(** * Text chunking of ai-nexus: [textsplitter] package

    A shallow embedding of [textsplitter/sentence_splitter.go],
    [textsplitter/paragraph_splitter.go] and the tokenizers, with the parts of
    the Go runtime and of the [strings], [unicode] and [unicode/utf8] packages
    they rest on.

    Conventions.
    - A Go [string] is a sequence of bytes: [gostring := list ascii].
    - A Go [int] is modelled as [Z].  Every [int] the splitters compute is a
      length of a string or slice held in memory, or a sum of a few of them
      compared against a configured bound, so the 64-bit range is never left
      and no wrap-around is written out.
    - A [rune] is a [Z] (Go's [int32] code point).
    - [panic] and running out of recursion fuel are explicit results. *)

From Stdlib Require Import Ascii String.
From Stdlib Require Import ZArith Bool Lia Arith List.
Import ListNotations.
Open Scope Z_scope.

(* ================================================================== *)
(** * Go strings, UTF-8 and the [strings] package                       *)
(* ================================================================== *)

Module GoStrings.

Definition gostring := list ascii.

(** String literals: the bytes of a Rocq string. *)
Definition str (s : string) : gostring := list_ascii_of_string s.

Definition byteZ (c : ascii) : Z := Z.of_N (N_of_ascii c).
Definition byte_of (z : Z) : ascii := ascii_of_N (Z.to_N z).

(** [len(s)] *)
Definition len {A} (l : list A) : Z := Z.of_nat (List.length l).

Definition isEmpty (a : gostring) : bool :=
  match a with [] => true | _ => false end.

(** ** [unicode/utf8] *)

Definition rune := Z.
Definition RuneError : rune := 65533.   (* U+FFFD *)
Definition RuneSelf : Z := 128.
Definition MaxRune : rune := 1114111.   (* U+10FFFF *)
Definition UTFMax : Z := 4.

(** The [first] table of utf8.go with its accept ranges: for a leading
    byte, the length of the sequence and the range allowed for the second
    byte; [None] for the bytes that start no sequence ([xx]). *)
Definition first (s0 : Z) : option (nat * Z * Z) :=
  if (194 <=? s0) && (s0 <=? 223) then Some (2%nat, 128, 191)        (* C2..DF *)
  else if s0 =? 224 then Some (3%nat, 160, 191)                      (* E0 *)
  else if (225 <=? s0) && (s0 <=? 236) then Some (3%nat, 128, 191)   (* E1..EC *)
  else if s0 =? 237 then Some (3%nat, 128, 159)                      (* ED *)
  else if (238 <=? s0) && (s0 <=? 239) then Some (3%nat, 128, 191)   (* EE..EF *)
  else if s0 =? 240 then Some (4%nat, 144, 191)                      (* F0 *)
  else if (241 <=? s0) && (s0 <=? 243) then Some (4%nat, 128, 191)   (* F1..F3 *)
  else if s0 =? 244 then Some (4%nat, 128, 143)                      (* F4 *)
  else None.

Definition byteAt (s : gostring) (i : nat) : Z := byteZ (nth i s zero).

Definition outside (lo hi b : Z) : bool := (b <? lo) || (hi <? b).

(** [utf8.DecodeRuneInString]: the rune at the head of [s] and its width in
    bytes; an invalid or short sequence is [(RuneError, 1)]. *)
Definition DecodeRune (s : gostring) : rune * nat :=
  match s with
  | [] => (RuneError, 0%nat)
  | c0 :: _ =>
    let s0 := byteZ c0 in
    if s0 <? RuneSelf then (s0, 1%nat)
    else
      match first s0 with
      | None => (RuneError, 1%nat)
      | Some (sz, lo, hi) =>
        if (List.length s <? sz)%nat then (RuneError, 1%nat)
        else
          let s1 := byteAt s 1 in
          if outside lo hi s1 then (RuneError, 1%nat)
          else if (sz <=? 2)%nat then
            (Z.lor (Z.shiftl (Z.land s0 31) 6) (Z.land s1 63), 2%nat)
          else
            let s2 := byteAt s 2 in
            if outside 128 191 s2 then (RuneError, 1%nat)
            else if (sz <=? 3)%nat then
              (Z.lor (Z.lor (Z.shiftl (Z.land s0 15) 12)
                            (Z.shiftl (Z.land s1 63) 6))
                     (Z.land s2 63), 3%nat)
            else
              let s3 := byteAt s 3 in
              if outside 128 191 s3 then (RuneError, 1%nat)
              else
                (Z.lor (Z.lor (Z.lor (Z.shiftl (Z.land s0 7) 18)
                                     (Z.shiftl (Z.land s1 63) 12))
                              (Z.shiftl (Z.land s2 63) 6))
                       (Z.land s3 63), 4%nat)
      end
  end.

(** [for i, r := range s]: the runes of [s] in order, each with the bytes
    it was decoded from.  [skip] counts the bytes of the current rune that
    are still to be passed over. *)
Fixpoint segmentsFrom (skip : nat) (s : gostring) : list (rune * gostring) :=
  match s with
  | [] => []
  | _ :: s' =>
    match skip with
    | S k => segmentsFrom k s'
    | O => let (r, w) := DecodeRune s in
           (r, firstn w s) :: segmentsFrom (w - 1) s'
    end
  end.

Definition segments (s : gostring) : list (rune * gostring) := segmentsFrom 0 s.

(** [[]rune(s)] *)
Definition runes (s : gostring) : list rune := map fst (segments s).

(** The values that are Unicode code points: in range and no surrogate. *)
Definition validRune (r : rune) : bool :=
  (0 <=? r) && (r <=? MaxRune) && negb ((55296 <=? r) && (r <=? 57343)).

(** [string(r)]: the UTF-8 encoding of [r]; a value that is no code point
    (negative, beyond U+10FFFF, a surrogate) encodes as U+FFFD. *)
Definition EncodeRune (r0 : rune) : gostring :=
  let r := if validRune r0 then r0 else RuneError in
  if r <=? 127 then [byte_of r]
  else if r <=? 2047 then
    [byte_of (Z.lor 192 (Z.shiftr r 6)); byte_of (Z.lor 128 (Z.land r 63))]
  else if r <=? 65535 then
    [byte_of (Z.lor 224 (Z.shiftr r 12));
     byte_of (Z.lor 128 (Z.land (Z.shiftr r 6) 63));
     byte_of (Z.lor 128 (Z.land r 63))]
  else
    [byte_of (Z.lor 240 (Z.shiftr r 18));
     byte_of (Z.lor 128 (Z.land (Z.shiftr r 12) 63));
     byte_of (Z.lor 128 (Z.land (Z.shiftr r 6) 63));
     byte_of (Z.lor 128 (Z.land r 63))].

(** [string(rs)] for a rune slice. *)
Definition stringOfRunes (rs : list rune) : gostring := flat_map EncodeRune rs.

(** [utf8.RuneStart] *)
Definition RuneStart (b : Z) : bool := negb (Z.land b 192 =? 128).

(** The backward scan of [utf8.DecodeLastRuneInString] for a start byte,
    from [start] down to [lim]. *)
Fixpoint scanStart (fuel : nat) (s : gostring) (start lim : Z) : Z :=
  match fuel with
  | O => start
  | S f =>
    if start <? lim then start
    else if RuneStart (byteAt s (Z.to_nat start)) then start
    else scanStart f s (start - 1) lim
  end.

(** [utf8.DecodeLastRuneInString] *)
Definition DecodeLastRune (s : gostring) : rune * nat :=
  let e := len s in
  if e =? 0 then (RuneError, 0%nat)
  else
    let r := byteAt s (Z.to_nat (e - 1)) in
    if r <? RuneSelf then (r, 1%nat)
    else
      let lim := Z.max 0 (e - UTFMax) in
      let start0 := scanStart 4 s (e - 2) lim in
      let start := if start0 <? 0 then 0 else start0 in
      let (r', size) := DecodeRune (skipn (Z.to_nat start) s) in
      if negb (start + Z.of_nat size =? e) then (RuneError, 1%nat)
      else (r', size).

(** ** [unicode.IsSpace] *)

Definition unicode_IsSpace (r : rune) : bool :=
  if r <=? 255 then
    (r =? 9) || (r =? 10) || (r =? 11) || (r =? 12) || (r =? 13) ||
    (r =? 32) || (r =? 133) || (r =? 160)
  else
    (r =? 5760) || ((8192 <=? r) && (r <=? 8202)) ||
    (r =? 8232) || (r =? 8233) || (r =? 8239) || (r =? 8287) || (r =? 12288).

(** ** [strings] *)

Fixpoint dropSpaces (segs : list (rune * gostring)) : list (rune * gostring) :=
  match segs with
  | [] => []
  | (r, b) :: more => if unicode_IsSpace r then dropSpaces more else segs
  end.

(** [strings.TrimLeftFunc(s, unicode.IsSpace)]: [s] from its first rune that
    is no space; empty when there is none. *)
Definition strings_TrimLeft (s : gostring) : gostring :=
  concat (map snd (dropSpaces (segments s))).

(** [lastIndexFunc(s, unicode.IsSpace, false)]: the byte index of the last
    rune that is no space, [-1] when there is none.  [i] is the end of the
    part still to scan. *)
Fixpoint lastIndexNonSpace (fuel : nat) (s : gostring) (i : Z) : Z :=
  match fuel with
  | O => -1
  | S f =>
    if i >? 0 then
      let (r, size) := DecodeLastRune (firstn (Z.to_nat i) s) in
      let i' := i - Z.of_nat size in
      if negb (unicode_IsSpace r) then i' else lastIndexNonSpace f s i'
    else -1
  end.

(** [strings.TrimRightFunc(s, unicode.IsSpace)] *)
Definition strings_TrimRight (s : gostring) : gostring :=
  let i := lastIndexNonSpace (S (List.length s)) s (len s) in
  let i' :=
    if (0 <=? i) && (RuneSelf <=? byteAt s (Z.to_nat i)) then
      i + Z.of_nat (snd (DecodeRune (skipn (Z.to_nat i) s)))
    else i + 1 in
  firstn (Z.to_nat i') s.

(** [strings.TrimSpace]: leading and trailing white space, as
    [unicode.IsSpace] has it, removed. *)
Definition strings_TrimSpace (s : gostring) : gostring := strings_TrimRight (strings_TrimLeft s).

(** The loop of [strings.FieldsFunc(s, unicode.IsSpace)]: [cur] holds the
    bytes of the field being read ([None] between fields). *)
Fixpoint fieldsLoop (cur : option gostring) (segs : list (rune * gostring))
  : list gostring :=
  match segs with
  | [] => match cur with Some f => [f] | None => [] end
  | (r, b) :: more =>
    if unicode_IsSpace r then
      match cur with
      | Some f => f :: fieldsLoop None more
      | None => fieldsLoop None more
      end
    else
      match cur with
      | Some f => fieldsLoop (Some (f ++ b)) more
      | None => fieldsLoop (Some b) more
      end
  end.

(** [strings.Fields] *)
Definition strings_Fields (s : gostring) : list gostring := fieldsLoop None (segments s).

Fixpoint hasPrefix (p s : gostring) : bool :=
  match p, s with
  | [], _ => true
  | _ :: _, [] => false
  | a :: p', b :: s' => if ascii_dec a b then hasPrefix p' s' else false
  end.

(** The cutting loop of [strings.genSplit] for a separator that is not
    empty: cut at the first occurrence of [sep], go on behind it.  [skip]
    counts the bytes of a matched separator still to pass, [cur] holds the
    piece being read, reversed. *)
Fixpoint splitLoop (sep : gostring) (skip : nat) (cur : gostring) (s : gostring)
  : list gostring :=
  match s with
  | [] => [rev cur]
  | c :: s' =>
    match skip with
    | S k => splitLoop sep k cur s'
    | O =>
      if hasPrefix sep s
      then rev cur :: splitLoop sep (List.length sep - 1) [] s'
      else splitLoop sep 0 (c :: cur) s'
    end
  end.

(** [strings.Split(s, sep)]; with the empty separator the string explodes
    into its UTF-8 sequences. *)
Definition strings_Split (s sep : gostring) : list gostring :=
  match sep with
  | [] => map snd (segments s)
  | _ => splitLoop sep 0 [] s
  end.

(** [strings.Join] *)
Fixpoint strings_Join (elems : list gostring) (sep : gostring) : gostring :=
  match elems with
  | [] => []
  | [a] => a
  | a :: more => a ++ sep ++ strings_Join more sep
  end.

End GoStrings.
Export GoStrings.


(* ================================================================== *)
(** * Results of calls that may panic or recurse without end           *)
(* ================================================================== *)

(** The one panic of the package, raised by [SentenceSplitter.merge] with
    the message "Single token exceeded chunk size: %d > %d". *)
Inductive panicValue :=
| SingleTokenExceeded (tokenSize chunkSize : Z).

Inductive result (A : Type) :=
| Ok (a : A)
| Panic (p : panicValue)
| OutOfFuel.
Arguments Ok {A} a.
Arguments Panic {A} p.
Arguments OutOfFuel {A}.

(* ================================================================== *)
(** * Tokenizers (second part of [paragraph_splitter.go])              *)
(* ================================================================== *)

(** The [Tokenizer] interface: one method, [Encode(text) []string]. *)
Record Tokenizer := { Encode : gostring -> list gostring }.

(** [SimpleTokenizer.Encode] returns [strings.Fields(text)]. *)
Definition SimpleTokenizer : Tokenizer := {| Encode := strings_Fields |}.
Definition NewSimpleTokenizer : Tokenizer := SimpleTokenizer.

(** The [SentenceSplitterStrategy] interface: one method,
    [Split(text) []string]. *)
Record SentenceSplitterStrategy := { Split : gostring -> list gostring }.

(* ================================================================== *)
(** * [sentence_splitter.go]                                            *)
(* ================================================================== *)

Module SentenceSplit.

Definition DefaultChunkSize : Z := 1024.
Definition DefaultChunkOverlap : Z := 200.
Definition DefaultParagraphSep : gostring := [ascii_of_nat 10; ascii_of_nat 10; ascii_of_nat 10].
Definition DefaultSeparator : gostring := str " ".
(** The bytes of the default pattern: a negated class of six sentence
    terminators repeated, an optional terminator, or a lone terminator.
    The terminators are comma, full stop, semicolon and the three wide ones
    U+3002, U+FF1F and U+FF01. *)
Definition wideTerminators : gostring :=
  stringOfRunes [12290; 65311; 65281].
Definition DefaultChunkingRegex : gostring :=
  str "[^,.;" ++ wideTerminators ++ str "]+[,.;" ++ wideTerminators ++
  str "]?|[,.;" ++ wideTerminators ++ str "]".

(** [textSplit] holds intermediate split information. *)
Record textSplit := {
  text : gostring;
  isSentence : bool;
  tokenSize : Z
}.

Record SentenceSplitter := {
  ChunkSize : Z;
  ChunkOverlap : Z;
  Separator : gostring;
  ParagraphSeparator : gostring;
  SecondaryChunkingRegex : gostring;
  Tokenizer_ : Tokenizer;
  SplitterStrategy : SentenceSplitterStrategy;
  _splitFns : list (gostring -> list gostring);
  _subSentenceSplitFns : list (gostring -> list gostring)
}.

(** The functions of the package that [initSplitFns] and
    [NewSentenceSplitter] call and whose file is missing from the sources.
    They are parameters of the constructor. *)
Record SplitHelpers := {
  SplitBySep : gostring -> gostring -> list gostring;
  SplitByRegex : gostring -> gostring -> list gostring;
  SplitByChar : gostring -> list gostring;
  NewRegexSplitterStrategy : gostring -> SentenceSplitterStrategy
}.

Section Constructor.
Variable H : SplitHelpers.

(** [NewSentenceSplitter] followed by [initSplitFns].  A nil tokenizer or
    strategy is [None].  The second primary function is a closure over the
    splitter's strategy; the strategy is not reassigned after
    construction, so the closure is the strategy's [Split]. *)
Definition NewSentenceSplitter (chunkSize chunkOverlap : Z)
           (tokenizer : option Tokenizer)
           (splitterStrategy : option SentenceSplitterStrategy)
  : SentenceSplitter :=
  let chunkSize := if chunkSize <=? 0 then DefaultChunkSize else chunkSize in
  let tokenizer :=
    match tokenizer with None => NewSimpleTokenizer | Some t => t end in
  let splitterStrategy :=
    match splitterStrategy with
    | None => NewRegexSplitterStrategy H DefaultChunkingRegex
    | Some st => st
    end in
  {| ChunkSize := chunkSize;
     ChunkOverlap := chunkOverlap;
     Separator := DefaultSeparator;
     ParagraphSeparator := DefaultParagraphSep;
     SecondaryChunkingRegex := DefaultChunkingRegex;
     Tokenizer_ := tokenizer;
     SplitterStrategy := splitterStrategy;
     _splitFns :=
       [ SplitBySep H DefaultParagraphSep;
         (fun text => Split splitterStrategy text) ];
     _subSentenceSplitFns :=
       [ SplitByRegex H DefaultChunkingRegex;
         SplitBySep H DefaultSeparator;
         SplitByChar H ] |}.
End Constructor.

Definition getTokenSize (s : SentenceSplitter) (text : gostring) : Z :=
  len (Encode (Tokenizer_ s) text).

(** First loop of [getSplitsByFns]: the first function whose result has
    more than one element. *)
Fixpoint firstSplit (fns : list (gostring -> list gostring)) (text : gostring)
  : option (list gostring) :=
  match fns with
  | [] => None
  | splitFn :: more =>
    let splits := splitFn text in
    if len splits >? 1 then Some splits else firstSplit more text
  end.

(** Second loop of [getSplitsByFns]: [splits] is assigned by every function
    tried, and the loop stops at the first result with more than one
    element. *)
Fixpoint lastSplit (fns : list (gostring -> list gostring)) (text : gostring)
         (splits : list gostring) : list gostring :=
  match fns with
  | [] => splits
  | splitFn :: more =>
    let splits := splitFn text in
    if len splits >? 1 then splits else lastSplit more text splits
  end.

Definition getSplitsByFns (s : SentenceSplitter) (text : gostring)
  : list gostring * bool :=
  match firstSplit (_splitFns s) text with
  | Some splits => (splits, true)
  | None => (lastSplit (_subSentenceSplitFns s) text [], false)
  end.

(** The [for _, splitStr := range textSplitsByFns] loop of [split]; [rec]
    is the recursive call. *)
Fixpoint splitEach (rec : gostring -> option (list textSplit))
         (measure : gostring -> Z) (chunkSize : Z) (isSentence : bool)
         (pieces : list gostring) : option (list textSplit) :=
  match pieces with
  | [] => Some []
  | splitStr :: more =>
    let tokenSize := measure splitStr in
    if tokenSize <=? chunkSize then
      match splitEach rec measure chunkSize isSentence more with
      | Some rest =>
        Some ({| text := splitStr; isSentence := isSentence;
                 tokenSize := tokenSize |} :: rest)
      | None => None
      end
    else
      match rec splitStr with
      | Some recursiveSplits =>
        match splitEach rec measure chunkSize isSentence more with
        | Some rest => Some (recursiveSplits ++ rest)
        | None => None
        end
      | None => None
      end
  end.

(** [SentenceSplitter.split]; [fuel] bounds the depth of the recursion,
    [None] is a recursion that did not end within it. *)
Fixpoint split (fuel : nat) (s : SentenceSplitter) (text : gostring)
         (chunkSize : Z) : option (list textSplit) :=
  match fuel with
  | O => None
  | S fuel' =>
    let tokenSize := getTokenSize s text in
    if tokenSize <=? chunkSize then
      Some [{| text := text; isSentence := true; tokenSize := tokenSize |}]
    else
      let (textSplitsByFns, isSentence) := getSplitsByFns s text in
      splitEach (fun splitStr => split fuel' s splitStr chunkSize)
                (getTokenSize s) chunkSize isSentence textSplitsByFns
  end.

(** ** [merge] *)

(** The local type [bufItem] of [merge]. *)
Record bufItem := { item_text : gostring; item_len : Z }.

(** The variables of [merge] that its loop and [closeChunk] update. *)
Record mergeState := {
  chunks : list gostring;
  curChunk : list bufItem;
  lastChunk : list bufItem;
  curChunkLen : Z;
  newChunk : bool
}.

(** The [strings.Builder] loops: the texts of the items, concatenated. *)
Definition joinItems (items : list bufItem) : gostring :=
  concat (map item_text items).

(** The overlap loop of [closeChunk]: walk [lastChunk] from its end
    ([revLast] is what is left of it, last item first) and prepend items
    while the running length stays within [chunkOverlap]. *)
Fixpoint overlapLoop (chunkOverlap : Z) (revLast : list bufItem)
         (cur : list bufItem) (curLen : Z) : list bufItem * Z :=
  match revLast with
  | [] => (cur, curLen)
  | item :: more =>
    if curLen + item_len item <=? chunkOverlap
    then overlapLoop chunkOverlap more (item :: cur) (curLen + item_len item)
    else (cur, curLen)
  end.

Definition closeChunk (s : SentenceSplitter) (st : mergeState) : mergeState :=
  let chunks' := chunks st ++ [joinItems (curChunk st)] in
  let lastChunk' := curChunk st in
  let (cur, curLen) := overlapLoop (ChunkOverlap s) (rev lastChunk') [] 0 in
  {| chunks := chunks';
     curChunk := cur;
     lastChunk := lastChunk';
     curChunkLen := curLen;
     newChunk := true |}.

(** The loop that pops inherited overlap from the front of [curChunk]. *)
Fixpoint evict (chunkSize size : Z) (cur : list bufItem) (curLen : Z)
  : list bufItem * Z :=
  match cur with
  | [] => ([], curLen)
  | removed :: rest =>
    if curLen + size >? chunkSize
    then evict chunkSize size rest (curLen - item_len removed)
    else (cur, curLen)
  end.

(** The main loop of [merge]; [rest] is [splits[splitIdx:]], [fuel] bounds
    the number of iterations. *)
Fixpoint mergeLoop (fuel : nat) (s : SentenceSplitter) (chunkSize : Z)
         (st : mergeState) (rest : list textSplit) : result mergeState :=
  match rest with
  | [] => Ok st
  | curSplit :: more =>
    match fuel with
    | O => OutOfFuel
    | S fuel' =>
      if tokenSize curSplit >? chunkSize then
        Panic (SingleTokenExceeded (tokenSize curSplit) chunkSize)
      else if (curChunkLen st + tokenSize curSplit >? chunkSize)
                && negb (newChunk st) then
        mergeLoop fuel' s chunkSize (closeChunk s st) rest
      else
        let st1 :=
          if newChunk st && (curChunkLen st + tokenSize curSplit >? chunkSize)
          then
            let (cur, curLen) :=
              evict chunkSize (tokenSize curSplit) (curChunk st) (curChunkLen st) in
            {| chunks := chunks st; curChunk := cur; lastChunk := lastChunk st;
               curChunkLen := curLen; newChunk := newChunk st |}
          else st in
        if isSentence curSplit
           || (curChunkLen st1 + tokenSize curSplit <=? chunkSize)
           || newChunk st1 then
          mergeLoop fuel' s chunkSize
            {| chunks := chunks st1;
               curChunk := curChunk st1 ++
                 [{| item_text := text curSplit; item_len := tokenSize curSplit |}];
               lastChunk := lastChunk st1;
               curChunkLen := curChunkLen st1 + tokenSize curSplit;
               newChunk := false |}
            more
        else
          mergeLoop fuel' s chunkSize (closeChunk s st1) rest
    end
  end.

Definition mergeInit : mergeState :=
  {| chunks := []; curChunk := []; lastChunk := []; curChunkLen := 0;
     newChunk := true |}.

(** [SentenceSplitter.merge] *)
Definition merge (fuel : nat) (s : SentenceSplitter) (splits : list textSplit)
           (chunkSize : Z) : result (list gostring) :=
  match mergeLoop fuel s chunkSize mergeInit splits with
  | Ok st =>
    if negb (newChunk st)
    then Ok (chunks st ++ [joinItems (curChunk st)])
    else Ok (chunks st)
  | Panic p => Panic p
  | OutOfFuel => OutOfFuel
  end.

(** [SentenceSplitter.postprocessChunks] *)
Fixpoint postprocessChunks (chunks : list gostring) : list gostring :=
  match chunks with
  | [] => []
  | chunk :: more =>
    let stripped := strings_TrimSpace chunk in
    if isEmpty stripped then postprocessChunks more
    else stripped :: postprocessChunks more
  end.

(** [SentenceSplitter.splitText]; [fuel] bounds both the recursion of
    [split] and the iterations of [merge]. *)
Definition splitText (fuel : nat) (s : SentenceSplitter) (text : gostring)
           (chunkSize : Z) : result (list gostring) :=
  if isEmpty text then Ok [text]
  else
    match split fuel s text chunkSize with
    | None => OutOfFuel
    | Some splits =>
      match merge fuel s splits chunkSize with
      | Ok chunks => Ok (postprocessChunks chunks)
      | Panic p => Panic p
      | OutOfFuel => OutOfFuel
      end
    end.

(** [SentenceSplitter.SplitText] *)
Definition SplitText (fuel : nat) (s : SentenceSplitter) (text : gostring)
  : result (list gostring) :=
  splitText fuel s text (ChunkSize s).

End SentenceSplit.
Export SentenceSplit.

(* ================================================================== *)
(** * [paragraph_splitter.go]                                           *)
(* ================================================================== *)

Module Paragraph.

Record ParagraphSplitter := {
  MaxChunkSize : Z;
  Separator : gostring
}.

Definition NewParagraphSplitter (maxChunkSize : Z) : ParagraphSplitter :=
  let maxChunkSize :=
    if maxChunkSize <=? 0 then DefaultChunkSize else maxChunkSize in
  {| MaxChunkSize := maxChunkSize; Separator := [ascii_of_nat 10] |}.

(** The inner loop of [splitOversizedParagraph]: the number of leading
    runes of [chunkRunes] whose encodings fit, together with the [count]
    bytes already taken, in [maxChunkSize] bytes. *)
Fixpoint countTake (maxChunkSize : Z) (chunkRunes : list rune) (count : Z) : nat :=
  match chunkRunes with
  | [] => 0%nat
  | r :: more =>
    let rlen := len (EncodeRune r) in
    if count + rlen >? maxChunkSize then 0%nat
    else S (countTake maxChunkSize more (count + rlen))
  end.

(** [takeRunes] at the end of one round of the outer loop. *)
Definition takeRunes (maxChunkSize : Z) (chunkRunes : list rune) : nat :=
  let n := countTake maxChunkSize chunkRunes 0 in
  if (n =? 0)%nat && (len chunkRunes >? 0) then 1%nat else n.

(** The outer loop of [splitOversizedParagraph] on [runes[currentStart:]].
    Every round takes at least one rune, so [fuel] equal to the number of
    runes is never used up ([oversizedLoop_covers] below).  The variable
    [end] of the source is computed and never read; it is left out. *)
Fixpoint oversizedLoop (fuel : nat) (maxChunkSize : Z) (chunkRunes : list rune)
  : list (list rune) :=
  match fuel with
  | O => []
  | S fuel' =>
    match chunkRunes with
    | [] => []
    | _ =>
      let n := takeRunes maxChunkSize chunkRunes in
      firstn n chunkRunes :: oversizedLoop fuel' maxChunkSize (skipn n chunkRunes)
    end
  end.

Definition splitOversizedParagraph (s : ParagraphSplitter) (text : gostring)
  : list gostring :=
  let rs := runes text in
  map stringOfRunes (oversizedLoop (List.length rs) (MaxChunkSize s) rs).

(** The variables of [SplitText] that its loops update. *)
Record packState := {
  chunks : list gostring;
  currentChunk : list gostring;
  currentSize : Z
}.

(** The paragraphs kept by the first loop: trimmed and not empty. *)
Fixpoint keepParagraphs (rawParagraphs : list gostring) : list gostring :=
  match rawParagraphs with
  | [] => []
  | p :: more =>
    let trimmed := strings_TrimSpace p in
    if isEmpty trimmed then keepParagraphs more
    else trimmed :: keepParagraphs more
  end.

Definition lastPara (currentChunk : list gostring) : gostring :=
  last currentChunk [].

(** One round of the loop over [subParts]. *)
Definition addSubPart (s : ParagraphSplitter) (st : packState) (subP : gostring)
  : packState :=
  if currentSize st + len subP + len (Separator s) >? MaxChunkSize s then
    if len (currentChunk st) >? 0 then
      let chunks' := chunks st ++ [strings_Join (currentChunk st) (Separator s)] in
      let lp := lastPara (currentChunk st) in
      if len lp + len subP + len (Separator s) >? MaxChunkSize s then
        {| chunks := chunks'; currentChunk := [subP]; currentSize := len subP |}
      else
        {| chunks := chunks'; currentChunk := [lp; subP];
           currentSize := len lp + len (Separator s) + len subP |}
    else
      {| chunks := chunks st; currentChunk := [subP]; currentSize := len subP |}
  else
    let size1 :=
      if len (currentChunk st) >? 0
      then currentSize st + len (Separator s) else currentSize st in
    {| chunks := chunks st;
       currentChunk := currentChunk st ++ [subP];
       currentSize := size1 + len subP |}.

(** One round of the loop over [paragraphs]. *)
Definition addParagraph (s : ParagraphSplitter) (st : packState) (p : gostring)
  : packState :=
  if len p >? MaxChunkSize s then
    let st1 :=
      if len (currentChunk st) >? 0 then
        let lp := lastPara (currentChunk st) in
        {| chunks := chunks st ++ [strings_Join (currentChunk st) (Separator s)];
           currentChunk := [lp];
           currentSize := len lp |}
      else st in
    fold_left (addSubPart s) (splitOversizedParagraph s p) st1
  else
    let addedSize :=
      if len (currentChunk st) >? 0 then len p + len (Separator s) else len p in
    if currentSize st + addedSize >? MaxChunkSize s then
      let chunks' := chunks st ++ [strings_Join (currentChunk st) (Separator s)] in
      if len (currentChunk st) >? 0 then
        let lp := lastPara (currentChunk st) in
        let overlapSize := len lp + len (Separator s) + len p in
        if overlapSize >? MaxChunkSize s then
          {| chunks := chunks'; currentChunk := [p]; currentSize := len p |}
        else
          {| chunks := chunks'; currentChunk := [lp; p];
             currentSize := overlapSize |}
      else
        {| chunks := chunks'; currentChunk := [p]; currentSize := len p |}
    else
      {| chunks := chunks st;
         currentChunk := currentChunk st ++ [p];
         currentSize := currentSize st + addedSize |}.

(** [ParagraphSplitter.SplitText] *)
Definition SplitText (s : ParagraphSplitter) (text : gostring) : list gostring :=
  if isEmpty text then []
  else
    let rawParagraphs := strings_Split text (Separator s) in
    let paragraphs := keepParagraphs rawParagraphs in
    if len paragraphs =? 0 then []
    else
      let st := fold_left (addParagraph s) paragraphs
                  {| chunks := []; currentChunk := []; currentSize := 0 |} in
      if len (currentChunk st) >? 0
      then chunks st ++ [strings_Join (currentChunk st) (Separator s)]
      else chunks st.

End Paragraph.

(* ================================================================== *)
(** * The split functions of the chain, after the specification        *)
(* ================================================================== *)

Module SpecHelpers.

(** Modelled from the spec: the single-character split [SplitByChar], whose
    file is missing.  It yields every character (UTF-8 sequence) of the
    fragment as a candidate of its own, "or exactly the original fragment
    if length <= 1". *)
Definition SplitByChar (text : gostring) : list gostring :=
  match segments text with
  | [] => [text]
  | [_] => [text]
  | segs => map snd segs
  end.

Definition nonEmpty (a : gostring) : bool := negb (isEmpty a).

(** Modelled from the spec: the paragraph-separator and word-separator
    split [SplitBySep], whose file is missing.  The spec names the
    separator and asks that the candidates, concatenated, give the fragment
    back; the fragment is cut in front of every separator and the stretches
    that are not empty are the candidates. *)
Definition SplitBySep (sep text : gostring) : list gostring :=
  match strings_Split text sep with
  | [] => []
  | head :: more => filter nonEmpty (head :: map (app sep) more)
  end.

(** The sentence terminators of the default pattern. *)
Definition isTerminator (r : rune) : bool :=
  (r =? 44) || (r =? 46) || (r =? 59) ||
  (r =? 12290) || (r =? 65311) || (r =? 65281).

(** Cut behind every terminator; [cur] is the candidate being read. *)
Fixpoint cutAfter (cur : gostring) (segs : list (rune * gostring))
  : list gostring :=
  match segs with
  | [] => if isEmpty cur then [] else [cur]
  | (r, b) :: more =>
    if isTerminator r then (cur ++ b) :: cutAfter [] more
    else cutAfter (cur ++ b) more
  end.

(** Modelled from the spec: the regex split [SplitByRegex], whose file is
    missing, for the default pattern "covering common Latin and CJK
    sentence terminators; each match boundary retains trailing punctuation
    with its preceding fragment".  Only the default pattern is modelled;
    [pattern] is not interpreted. *)
Definition SplitByRegex (pattern text : gostring) : list gostring :=
  cutAfter [] (segments text).

(** Modelled from the spec: the regex strategy [NewRegexSplitterStrategy],
    whose file is missing; it segments with the same pattern split. *)
Definition NewRegexSplitterStrategy (pattern : gostring)
  : SentenceSplitterStrategy :=
  {| Split := SplitByRegex pattern |}.

Definition helpers : SplitHelpers :=
  {| SentenceSplit.SplitBySep := SplitBySep;
     SentenceSplit.SplitByRegex := SplitByRegex;
     SentenceSplit.SplitByChar := SplitByChar;
     SentenceSplit.NewRegexSplitterStrategy := NewRegexSplitterStrategy |}.

End SpecHelpers.

(* ================================================================== *)
(** * Notions used in the statements                                    *)
(* ================================================================== *)

(** A split function loses nothing: its candidates, concatenated, are the
    fragment. *)
Definition lossless (f : gostring -> list gostring) : Prop :=
  forall t, concat (f t) = t.

(** Every function of both chains is lossless, and the fallback chain is
    not empty (as [initSplitFns] leaves it). *)
Definition losslessChain (s : SentenceSplitter) : Prop :=
  Forall lossless (_splitFns s) /\
  Forall lossless (_subSentenceSplitFns s) /\
  _subSentenceSplitFns s <> [].

(** Every candidate of a fragment that is too large either fits or is
    strictly shorter than the fragment. *)
Definition progresses (s : SentenceSplitter) (chunkSize : Z) : Prop :=
  forall t, getTokenSize s t > chunkSize ->
    Forall (fun p => getTokenSize s p <= chunkSize \/
                     (List.length p < List.length t)%nat)
           (fst (getSplitsByFns s t)).

(** The measure of a concatenation is at most the sum of the measures. *)
Definition subadditive (tk : Tokenizer) : Prop :=
  forall a b, len (Encode tk (a ++ b)) <= len (Encode tk a) + len (Encode tk b).

(** Trimming white space does not raise the measure. *)
Definition trimStable (tk : Tokenizer) : Prop :=
  forall a, len (Encode tk (strings_TrimSpace a)) <= len (Encode tk a).

(** The text consists of white space only. *)
Definition whitespaceOnly (text : gostring) : bool :=
  forallb unicode_IsSpace (runes text).

(** Total of the sizes recorded in a run of buffer items. *)
Fixpoint sumLen (items : list bufItem) : Z :=
  match items with
  | [] => 0
  | it :: more => item_len it + sumLen more
  end.

Definition itemOf (sp : textSplit) : bufItem :=
  {| item_text := text sp; item_len := tokenSize sp |}.

(** What the rounds of [mergeLoop] spent on one leaf amount to: close the
    chunk if the leaf does not fit a chunk already begun, drop inherited
    overlap from the front of a fresh chunk until the leaf fits, append
    the leaf. *)
Definition stepLeaf (s : SentenceSplitter) (chunkSize : Z) (st : mergeState)
           (sp : textSplit) : mergeState :=
  let st0 :=
    if (curChunkLen st + tokenSize sp >? chunkSize) && negb (newChunk st)
    then closeChunk s st else st in
  let (cur, curLen) :=
    if newChunk st0 && (curChunkLen st0 + tokenSize sp >? chunkSize)
    then evict chunkSize (tokenSize sp) (curChunk st0) (curChunkLen st0)
    else (curChunk st0, curChunkLen st0) in
  {| chunks := chunks st0;
     curChunk := cur ++ [itemOf sp];
     lastChunk := lastChunk st0;
     curChunkLen := curLen + tokenSize sp;
     newChunk := false |}.

(** The overlap [closeChunk] seeds the next chunk with. *)
Definition overlapOf (s : SentenceSplitter) (closed : list bufItem) : list bufItem :=
  fst (overlapLoop (ChunkOverlap s) (rev closed) [] 0).

(** [O] is the overlap a chunk opened by leaf [x] keeps of the closed chunk
    [G]: a run of trailing items of [G] that is empty or within the
    overlap budget, leaves room for [x], and cannot be extended by the item
    in front of it. *)
Definition keptOverlap (s : SentenceSplitter) (chunkSize : Z)
           (G O : list bufItem) (x : bufItem) : Prop :=
  (exists P, G = P ++ O) /\
  (O = [] \/ sumLen O <= ChunkOverlap s) /\
  sumLen O + item_len x <= chunkSize /\
  (forall P y, G = P ++ y :: O ->
     sumLen (y :: O) > ChunkOverlap s \/
     sumLen (y :: O) + item_len x > chunkSize).

(** Consecutive elements of a list are related by [R]. *)
Fixpoint chain {A} (R : A -> A -> Prop) (l : list A) : Prop :=
  match l with
  | a :: more =>
    match more with
    | b :: _ => R a b /\ chain R more
    | [] => True
    end
  | [] => True
  end.

(** What the merge loop keeps true about sizes; [Q] is any property of
    the items that the leaves have. *)
Definition sizeInv (chunkSize : Z) (Q : bufItem -> Prop) (st : mergeState)
  : Prop :=
  curChunkLen st = sumLen (curChunk st) /\
  Forall Q (curChunk st) /\
  (newChunk st = false -> sumLen (curChunk st) <= chunkSize) /\
  Forall (fun c => exists g, c = joinItems g /\ sumLen g <= chunkSize /\
                             Forall Q g) (chunks st).

(** A piece of a hard split, with the runes [rest] that follow it: it is
    not empty, and either it fits in [maxChunkSize] bytes and the next rune
    would not fit with it, or it is one rune wider than [maxChunkSize]. *)
Definition goodPiece (maxChunkSize : Z) (piece rest : list rune) : Prop :=
  piece <> [] /\
  ((len (stringOfRunes piece) <= maxChunkSize /\
    match rest with
    | [] => True
    | r :: _ => len (stringOfRunes piece) + len (EncodeRune r) > maxChunkSize
    end)
   \/ (exists r, piece = [r] /\ len (EncodeRune r) > maxChunkSize)).

Fixpoint piecesGood (maxChunkSize : Z) (pieces : list (list rune)) : Prop :=
  match pieces with
  | [] => True
  | piece :: more =>
    goodPiece maxChunkSize piece (concat more) /\ piecesGood maxChunkSize more
  end.

(** No rune of the paragraph is wider than [maxChunkSize] bytes. *)
Definition runesFit (maxChunkSize : Z) (p : gostring) : Prop :=
  Forall (fun r => len (EncodeRune r) <= maxChunkSize) (runes p).

(** What the packing loops of [ParagraphSplitter.SplitText] keep true. *)
Definition packInv (s : Paragraph.ParagraphSplitter) (st : Paragraph.packState)
  : Prop :=
  Paragraph.currentSize st =
    len (strings_Join (Paragraph.currentChunk st) (Paragraph.Separator s)) /\
  (Paragraph.currentChunk st = [] \/
   len (strings_Join (Paragraph.currentChunk st) (Paragraph.Separator s))
     <= Paragraph.MaxChunkSize s) /\
  Forall (fun c => len c <= Paragraph.MaxChunkSize s) (Paragraph.chunks st).

(** The overlap property as the specification words it, for two
    consecutive chunks [c], [c'] of a text with the given leaves: [c']
    begins with a suffix of [c] that is not empty and measures at most the
    overlap size, or some leaf would not have fitted a chunk together with
    the leaf before it. *)
Definition overlapAsSpecified (s : SentenceSplitter) (leaves : list textSplit)
           (c c' : gostring) : Prop :=
  (exists o, o <> [] /\ (exists pre, c = pre ++ o) /\
             (exists post, c' = o ++ post) /\
             getTokenSize s o <= ChunkOverlap s) \/
  (exists l x, In l leaves /\ In x leaves /\
               tokenSize l + tokenSize x > ChunkSize s).

(** A split function is proper when it is lossless and yields no empty
    candidate. *)
Definition proper (f : gostring -> list gostring) : Prop :=
  lossless f /\ forall t, Forall (fun p => p <> []) (f t).

(** The tokenizer charges at most [chunkSize] for a text of at most one
    character. *)
Definition charFits (tk : Tokenizer) (chunkSize : Z) : Prop :=
  forall t, (List.length (segments t) <= 1)%nat -> len (Encode tk t) <= chunkSize.

(** The pieces of a cut, put back with the separator between them. *)
Definition unsplit (sep : gostring) (pieces : list gostring) : gostring :=
  match pieces with
  | [] => []
  | head :: more => head ++ concat (map (app sep) more)
  end.

(** The measure the leaves carry: the recorded size of an item is the
    measure of its text. *)
Definition measured (s : SentenceSplitter) (it : bufItem) : Prop :=
  item_len it = getTokenSize s (item_text it).

(** A continuation byte of UTF-8, 0x80 to 0xBF. *)
Definition contByte (c : ascii) : bool :=
  (128 <=? byteZ c) && (byteZ c <=? 191).

(** The string is empty or does not begin with a continuation byte. *)
Definition startsClean (q : gostring) : Prop :=
  match q with
  | [] => True
  | c :: _ => contByte c = false
  end.

(** The number of fields the loop of [strings.Fields] reports. *)
Definition countFields (cur : option gostring) (segs : list (rune * gostring)) : Z :=
  len (fieldsLoop cur segs).


(* ================================================================== *)
(** * Configurations of the examples                                    *)
(* ================================================================== *)

(** A tokenizer with one token for every byte. *)
Definition byteTokenizer : Tokenizer :=
  {| Encode := fun text => map (fun c => [c]) text |}.

(** A tokenizer with two tokens for every byte: a single character already
    measures more than a chunk size of 1. *)
Definition twoPerByte : Tokenizer :=
  {| Encode := fun text => flat_map (fun c => [[c]; [c]]) text |}.

(** [NewSentenceSplitter(0, 0, nil, nil)] *)
Definition defaultSplitter : SentenceSplitter :=
  NewSentenceSplitter SpecHelpers.helpers 0 0 None None.

(** [NewSentenceSplitter(2, 0, nil, nil)] *)
Definition smallSplitter : SentenceSplitter :=
  NewSentenceSplitter SpecHelpers.helpers 2 0 None None.

(** [NewSentenceSplitter(3, 1, byteTokenizer, nil)] *)
Definition byteSplitter : SentenceSplitter :=
  NewSentenceSplitter SpecHelpers.helpers 3 1 (Some byteTokenizer) None.

(** [NewSentenceSplitter(1, 0, twoPerByte, nil)] *)
Definition twoPerByteSplitter : SentenceSplitter :=
  NewSentenceSplitter SpecHelpers.helpers 1 0 (Some twoPerByte) None.

(** [NewParagraphSplitter(1)], [NewParagraphSplitter(3)] and
    [NewParagraphSplitter(5)] *)
Definition paragraphSplitter1 := Paragraph.NewParagraphSplitter 1.
Definition paragraphSplitter3 := Paragraph.NewParagraphSplitter 3.
Definition paragraphSplitter5 := Paragraph.NewParagraphSplitter 5.

(** U+00E9, two bytes in UTF-8, and U+1F600, four bytes. *)
Definition eAcute : gostring := stringOfRunes [233].
Definition grinningFace : gostring := stringOfRunes [128512].

(** A tokenizer whose measure is not subadditive: three tokens for a text
    of two bytes or more, one token otherwise. *)
Definition lumpTokenizer : Tokenizer :=
  {| Encode := fun t =>
       match t with
       | _ :: _ :: _ => [t; t; t]
       | _ => [t]
       end |}.

(** [NewSentenceSplitter(2, 0, lumpTokenizer, nil)] *)
Definition lumpSplitter : SentenceSplitter :=
  NewSentenceSplitter SpecHelpers.helpers 2 0 (Some lumpTokenizer) None.

(** The leaves of "abcdefg" under [byteSplitter]. *)
Definition byteLeaves : list textSplit :=
  map (fun c => {| text := [c]; isSentence := false; tokenSize := 1 |})
      (str "abcdefg").

From Stdlib Require DecimalString DecimalZ DecimalPos.

(* ================================================================== *)
(** * Further notions: what the merger does with the leaves             *)
(* ================================================================== *)

(** A chunk as [merge] builds it, in two parts: the items [fst p] it
    inherits from the chunk before, and the items [snd p] it is the first
    to hold. *)
Definition groupOf {A} (p : list A * list A) : list A := fst p ++ snd p.

Definition chunkOf (p : list bufItem * list bufItem) : gostring :=
  joinItems (groupOf p).

(** The first chunk inherits nothing. *)
Definition firstFresh {A B} (pairs : list (list A * B)) : Prop :=
  match pairs with
  | [] => True
  | p :: _ => fst p = []
  end.

(** The last chunk holds something new. *)
Definition lastNew {A B} (pairs : list (A * list B)) : Prop :=
  forall l p, pairs = l ++ [p] -> snd p <> [].

(** Chunk [p'] comes right after chunk [p]: it was opened by a leaf [x]
    that did not fit [p], and what it inherits is the kept overlap of [p]
    for [x]. *)
Definition follows (s : SentenceSplitter) (chunkSize : Z)
           (p p' : list bufItem * list bufItem) : Prop :=
  exists x R,
    snd p' = x :: R /\
    sumLen (groupOf p) + item_len x > chunkSize /\
    keptOverlap s chunkSize (groupOf p) (fst p') x.

(** The chunks [pairs] are laid out over the items [items] the way
    [merge] does it: the new parts of the chunks, in order, are the items;
    the first chunk inherits nothing; every chunk holds a new item and is
    within the chunk size; and each chunk follows the one before. *)
Definition mergeLayout (s : SentenceSplitter) (chunkSize : Z)
           (items : list bufItem) (pairs : list (list bufItem * list bufItem))
  : Prop :=
  concat (map snd pairs) = items /\
  firstFresh pairs /\
  Forall (fun p => snd p <> [] /\ sumLen (groupOf p) <= chunkSize) pairs /\
  chain (follows s chunkSize) pairs.

(** What a chunk inherits is a run of trailing items of the chunk
    before. *)
Definition carries (p p' : list bufItem * list bufItem) : Prop :=
  exists P, groupOf p = P ++ fst p'.

(** What the merge loop keeps true about the leaves [done] it has taken:
    before the first leaf nothing is there; after it, the closed chunks
    and the current one are laid out over the leaves taken. *)
Definition layInv (s : SentenceSplitter) (chunkSize : Z) (st : mergeState)
           (done : list bufItem) : Prop :=
  curChunkLen st = sumLen (curChunk st) /\
  (newChunk st = true -> chunks st = [] /\ curChunk st = [] /\ done = []) /\
  (newChunk st = false ->
   exists pairs curO curN,
     chunks st = map chunkOf pairs /\
     curChunk st = curO ++ curN /\
     mergeLayout s chunkSize done (pairs ++ [(curO, curN)])).

(** What the merge loop keeps true when every leaf is larger than the
    overlap size: no overlap is ever inherited, and the chunks closed and
    the current one are the texts taken. *)
Definition partInv (s : SentenceSplitter) (st : mergeState) (done : gostring)
  : Prop :=
  curChunkLen st = sumLen (curChunk st) /\
  Forall (fun it => item_len it > ChunkOverlap s) (curChunk st) /\
  (newChunk st = true -> curChunk st = []) /\
  concat (chunks st) ++ joinItems (curChunk st) = done.

(** A strategy that cuts at white space and drops it, as [strings.Fields]
    does, and [NewSentenceSplitter(1, 0, nil, fieldsStrategy)]. *)
Definition fieldsStrategy : SentenceSplitterStrategy :=
  {| Split := strings_Fields |}.

Definition fieldsSplitter : SentenceSplitter :=
  NewSentenceSplitter SpecHelpers.helpers 1 0 None (Some fieldsStrategy).

(* ================================================================== *)
(** * Further notions: the paragraph chunker                            *)
(* ================================================================== *)

Module ParagraphNotions.
Import Paragraph.

(** The units the packing loops handle: a paragraph that fits is one unit,
    a paragraph that is too large gives its pieces. *)
Definition units (ps : ParagraphSplitter) (paragraphs : list gostring)
  : list gostring :=
  flat_map (fun p => if len p >? MaxChunkSize ps
                     then splitOversizedParagraph ps p else [p]) paragraphs.

(** The paragraphs of a text. *)
Definition paragraphsOf (ps : ParagraphSplitter) (t : gostring) : list gostring :=
  keepParagraphs (strings_Split t (Separator ps)).

(** The recorded size of the current chunk is its size. *)
Definition accurate (ps : ParagraphSplitter) (st : packState) : Prop :=
  currentSize st = len (strings_Join (currentChunk st) (Separator ps)).

(** The first [if] of the oversized branch of [SplitText]: the current
    chunk, if there is one, is flushed and its last paragraph kept. *)
Definition preFlush (ps : ParagraphSplitter) (st : packState) : packState :=
  if len (currentChunk st) >? 0 then
    {| chunks := chunks st ++ [strings_Join (currentChunk st) (Separator ps)];
       currentChunk := [lastPara (currentChunk st)];
       currentSize := len (lastPara (currentChunk st)) |}
  else st.

(** What one round does with a unit [u].  When the current chunk is
    empty, or [u] fits it behind a separator, [u] is appended.  Else the
    current chunk is closed, and the next is opened with [u] alone, when
    the last paragraph of the closed chunk leaves no room for [u], or with
    that paragraph and [u]. *)
Definition packStep (ps : ParagraphSplitter) (st : packState) (u : gostring)
           (st' : packState) : Prop :=
  accurate ps st' /\
  ((chunks st' = chunks st /\ currentChunk st' = currentChunk st ++ [u] /\
    (currentChunk st = [] \/
     len (strings_Join (currentChunk st) (Separator ps)) + len (Separator ps)
       + len u <= MaxChunkSize ps)) \/
   (currentChunk st <> [] /\
    len (strings_Join (currentChunk st) (Separator ps)) + len (Separator ps)
      + len u > MaxChunkSize ps /\
    chunks st' = chunks st ++ [strings_Join (currentChunk st) (Separator ps)] /\
    ((currentChunk st' = [u] /\
      len (lastPara (currentChunk st)) + len (Separator ps) + len u
      > MaxChunkSize ps) \/
     (currentChunk st' = [lastPara (currentChunk st); u] /\
      len (lastPara (currentChunk st)) + len (Separator ps) + len u
      <= MaxChunkSize ps)))).

(** The units with a mark on those that open a paragraph that is too
    large: its first piece. *)
Definition tagFirst (pieces : list gostring) : list (bool * gostring) :=
  match pieces with
  | [] => []
  | u :: rest => (true, u) :: map (pair false) rest
  end.

Definition taggedUnits (ps : ParagraphSplitter) (paragraphs : list gostring)
  : list (bool * gostring) :=
  flat_map (fun p => if len p >? MaxChunkSize ps
                     then tagFirst (splitOversizedParagraph ps p)
                     else [(false, p)]) paragraphs.

(** A chunk of the paragraph chunker in two parts: the paragraph it
    inherits, if any, and the units it is the first to hold. *)
Definition paraGroup (p : list gostring * list (bool * gostring))
  : list gostring :=
  fst p ++ map snd (snd p).

Definition paraChunk (ps : ParagraphSplitter)
           (p : list gostring * list (bool * gostring)) : gostring :=
  strings_Join (paraGroup p) (Separator ps).

(** A chunk is not empty; it is within the maximum or one unit alone; and
    a unit that opens a paragraph that is too large is the first new unit
    of its chunk. *)
Definition chunkOK (ps : ParagraphSplitter)
           (p : list gostring * list (bool * gostring)) : Prop :=
  paraGroup p <> [] /\
  (len (paraChunk ps p) <= MaxChunkSize ps \/ exists u, paraGroup p = [u]) /\
  match snd p with
  | [] => True
  | _ :: R => Forall (fun tu => fst tu = false) R
  end.

(** Chunk [p'] comes right after chunk [p], whose last paragraph is [lp].
    When the first new unit of [p'] is [u]: either [p'] inherits [lp],
    which with a separator and [u] fits the maximum, and [p] was closed
    because [u] opens a paragraph that is too large or because [u] did not
    fit [p]; or [p'] inherits nothing, [lp] with a separator and [u] does
    not fit the maximum, and [p] holds nothing new exactly when [u] opens
    a paragraph that is too large.  When [p'] holds nothing new, it is
    [lp] alone and [p] holds something new. *)
Definition paraFollows (ps : ParagraphSplitter)
           (p p' : list gostring * list (bool * gostring)) : Prop :=
  let lp := lastPara (paraGroup p) in
  match snd p' with
  | (opens, u) :: _ =>
    (fst p' = [lp] /\ snd p <> [] /\
     len lp + len (Separator ps) + len u <= MaxChunkSize ps /\
     (opens = true \/
      len (paraChunk ps p) + len (Separator ps) + len u > MaxChunkSize ps)) \/
    (fst p' = [] /\
     len lp + len (Separator ps) + len u > MaxChunkSize ps /\
     (if opens then snd p = [] else snd p <> []))
  | [] => fst p' = [lp] /\ snd p <> []
  end.

(** The chunks [pairs] laid out over the marked units [us], the last
    chunk left open: the new parts of the chunks, in order, are the units;
    the first chunk inherits nothing; every chunk is as [chunkOK] says;
    each chunk follows the one before. *)
Definition paraLayoutOpen (ps : ParagraphSplitter) (us : list (bool * gostring))
           (pairs : list (list gostring * list (bool * gostring))) : Prop :=
  concat (map snd pairs) = us /\
  firstFresh pairs /\
  Forall (chunkOK ps) pairs /\
  chain (paraFollows ps) pairs.

(** The same for the chunks returned: the last one holds a new unit. *)
Definition paraLayout (ps : ParagraphSplitter) (us : list (bool * gostring))
           (pairs : list (list gostring * list (bool * gostring))) : Prop :=
  paraLayoutOpen ps us pairs /\ lastNew pairs.

(** What a chunk inherits is nothing or the last paragraph of the chunk
    before; a chunk that holds nothing new inherits that paragraph, and
    comes after a chunk that holds something new. *)
Definition carriesPara (p p' : list gostring * list (bool * gostring)) : Prop :=
  (fst p' = [] /\ snd p' <> []) \/
  (fst p' = [lastPara (paraGroup p)] /\ snd p <> []).

(** What the packing loops keep true about the units [done] they have
    taken.  [pending] tells that the current chunk was just opened for a
    paragraph that is too large and holds nothing new yet. *)
Definition paraInv (ps : ParagraphSplitter) (pending : bool) (st : packState)
           (done : list (bool * gostring)) : Prop :=
  (currentChunk st = [] -> chunks st = [] /\ done = []) /\
  (currentChunk st <> [] ->
   exists pairs curO curN,
     chunks st = map (paraChunk ps) pairs /\
     currentChunk st = curO ++ map snd curN /\
     paraLayoutOpen ps done (pairs ++ [(curO, curN)]) /\
     (pending = false -> curN <> []) /\
     (pending = true -> curN = [])).

Definition nonEmptyInv (st : packState) (done : list gostring) : Prop :=
  Forall (fun p => p <> []) (currentChunk st) /\
  Forall (fun c => c <> []) (chunks st) /\
  (done <> [] -> currentChunk st <> []).

(** Every rune of the text, encoded again, is the bytes it was read from:
    the text is valid UTF-8. *)
Definition wellEncoded (t : gostring) : Prop :=
  Forall (fun seg => EncodeRune (fst seg) = snd seg) (segments t).

End ParagraphNotions.

(* ================================================================== *)
(** * The ingestion service: package [rag]                              *)
(* ================================================================== *)

Module Rag.

(** [fmt.Sprintf("%d", i)]: the decimal digits of [i], with a minus sign
    in front for a negative number. *)
Definition decimal (i : Z) : gostring :=
  str (DecimalString.NilZero.string_of_int (Z.to_int i)).

(** An [error] value: one that carries a message only, or one made by
    [fmt.Errorf] with the verb [%w], which holds its message and the error
    it wraps. *)
Inductive error :=
| errorString (msg : gostring)
| wrapError (msg : gostring) (err : error).

(** [err.Error()] *)
Definition Error (e : error) : gostring :=
  match e with
  | errorString msg => msg
  | wrapError msg _ => msg
  end.

(** [err.Unwrap()] *)
Definition Unwrap (e : error) : option error :=
  match e with
  | errorString _ => None
  | wrapError _ err => Some err
  end.

(** [fmt.Errorf(prefix + "%w", err)] *)
Definition Errorf_w (prefix : gostring) (err : error) : error :=
  wrapError (prefix ++ Error err) err.

(** A value of type [interface{}] kept in metadata.  The service copies
    such values and never looks inside them. *)
Inductive any :=
| AnyNil
| AnyBool (v : bool)
| AnyInt (v : Z)
| AnyFloat (bits : Z)
| AnyString (v : gostring).

(** [map[string]interface{}]: the bindings of the map, a key bound once
    in a map the code builds.  Should a list bind a key twice, the later
    binding counts. *)
Definition metadataMap := list (gostring * any).

Definition keyEq (a b : gostring) : bool :=
  if list_eq_dec ascii_dec a b then true else false.

(** [m[k]] *)
Fixpoint lookup (m : metadataMap) (k : gostring) : option any :=
  match m with
  | [] => None
  | (k', v) :: more =>
    match lookup more k with
    | Some w => Some w
    | None => if keyEq k' k then Some v else None
    end
  end.

(** [m[k] = v]: the binding of [k], if there is one, is replaced. *)
Definition assign (m : metadataMap) (k : gostring) (v : any) : metadataMap :=
  filter (fun kv => negb (keyEq (fst kv) k)) m ++ [(k, v)].

(** [models.Document]; a [float32] of [Vector] is held as its 32 bits. *)
Record Document := {
  ID : gostring;
  Title : gostring;
  Content : gostring;
  Metadata : metadataMap;
  Vector : list Z
}.

(** The method of [iface.VectorDB] that ingestion calls.  The store is
    passed in and handed back; the context argument is passed through
    unread and is left out. *)
Record VectorDB (DB : Type) := {
  Upsert : DB -> gostring -> list Document -> DB * option error
}.
Arguments Upsert {DB} _ _ _ _.

(** Modelled from the spec: the interface [textsplitter.TextSplitter] is
    declared outside the files at hand; its one operation is [split_text],
    from a text to an ordered sequence of strings (section 6).  A call may
    panic or not return, as [SentenceSplitter.SplitText] may. *)
Record TextSplitter := {
  SplitText : gostring -> result (list gostring)
}.

(** The two splitters of package [textsplitter] as [TextSplitter]s. *)
Definition ofParagraphSplitter (ps : Paragraph.ParagraphSplitter) : TextSplitter :=
  {| SplitText := fun text => Ok (Paragraph.SplitText ps text) |}.

Definition ofSentenceSplitter (fuel : nat) (s : SentenceSplitter) : TextSplitter :=
  {| SplitText := fun text => SentenceSplit.SplitText fuel s text |}.

Record Service (DB : Type) := {
  vectorDB : VectorDB DB;
  splitter : TextSplitter
}.
Arguments vectorDB {DB} _.
Arguments splitter {DB} _.

(** [NewService] *)
Definition NewService {DB} (vdb : VectorDB DB) (splitter : TextSplitter)
  : Service DB :=
  {| vectorDB := vdb; splitter := splitter |}.

(** [fmt.Sprintf("%s_chunk_%d", doc.ID, i)] *)
Definition chunkID (docID : gostring) (i : Z) : gostring :=
  docID ++ str "_chunk_" ++ decimal i.

(** The body of the loop over [textChunks]: the document made for chunk
    [i].  The metadata is a fresh map that receives the bindings of
    [doc.Metadata], then [source_id] and [chunk_index]. *)
Definition chunkDocument (doc : Document) (i : Z) (textChunk : gostring)
  : Document :=
  let metadata :=
    fold_left (fun m kv => assign m (fst kv) (snd kv)) (Metadata doc) [] in
  let metadata := assign metadata (str "source_id") (AnyString (ID doc)) in
  let metadata := assign metadata (str "chunk_index") (AnyInt i) in
  {| ID := chunkID (ID doc) i;
     Title := [];
     Content := textChunk;
     Metadata := metadata;
     Vector := [] |}.

(** [for i, textChunk := range textChunks { ... append(chunks, chunk) }],
    from index [i] on. *)
Fixpoint chunkLoop (doc : Document) (textChunks : list gostring) (i : Z)
         (chunks : list Document) : list Document :=
  match textChunks with
  | [] => chunks
  | textChunk :: more =>
    chunkLoop doc more (i + 1) (chunks ++ [chunkDocument doc i textChunk])
  end.

(** [Service.Ingest] *)
Definition Ingest {DB} (s : Service DB) (db : DB) (collectionName : gostring)
           (doc : Document) : result (DB * option error) :=
  match SplitText (splitter s) (Content doc) with
  | Ok textChunks =>
    let chunks := chunkLoop doc textChunks 0 [] in
    if len chunks =? 0 then Ok (db, None)
    else
      match Upsert (vectorDB s) db collectionName chunks with
      | (db', Some err) =>
        Ok (db', Some (Errorf_w (str "failed to upsert chunks: ") err))
      | (db', None) => Ok (db', None)
      end
  | Panic p => Panic p
  | OutOfFuel => OutOfFuel
  end.

(** The loop of [Service.BatchIngest] over [docs]. *)
Fixpoint batchLoop (sp : TextSplitter) (docs : list Document)
         (allChunks : list Document) : result (list Document) :=
  match docs with
  | [] => Ok allChunks
  | doc :: more =>
    match SplitText sp (Content doc) with
    | Ok textChunks => batchLoop sp more (chunkLoop doc textChunks 0 allChunks)
    | Panic p => Panic p
    | OutOfFuel => OutOfFuel
    end
  end.

(** [Service.BatchIngest] *)
Definition BatchIngest {DB} (s : Service DB) (db : DB)
           (collectionName : gostring) (docs : list Document)
  : result (DB * option error) :=
  match batchLoop (splitter s) docs [] with
  | Ok allChunks =>
    if len allChunks =? 0 then Ok (db, None)
    else
      match Upsert (vectorDB s) db collectionName allChunks with
      | (db', Some err) =>
        Ok (db', Some (Errorf_w (str "failed to upsert chunks: ") err))
      | (db', None) => Ok (db', None)
      end
  | Panic p => Panic p
  | OutOfFuel => OutOfFuel
  end.

(** ** Notions for the statements *)

(** The documents made for the chunks [textChunks] of [doc], numbered from
    [i]. *)
Fixpoint chunksFrom (doc : Document) (i : Z) (textChunks : list gostring)
  : list Document :=
  match textChunks with
  | [] => []
  | c :: more => chunkDocument doc i c :: chunksFrom doc (i + 1) more
  end.

(** What both methods do with the documents they made: nothing for none,
    else one call of [Upsert], whose error is wrapped. *)
Definition store {DB} (s : Service DB) (db : DB) (collectionName : gostring)
           (chunks : list Document) : DB * option error :=
  match chunks with
  | [] => (db, None)
  | _ =>
    match Upsert (vectorDB s) db collectionName chunks with
    | (db', Some err) =>
      (db', Some (Errorf_w (str "failed to upsert chunks: ") err))
    | (db', None) => (db', None)
    end
  end.

Definition isDigit (c : ascii) : bool :=
  (48 <=? byteZ c) && (byteZ c <=? 57).

(** A store that keeps the calls of [Upsert] it received and reports no
    error, and one that keeps nothing and fails. *)
Definition recordingDB : VectorDB (list (gostring * list Document)) :=
  {| Upsert := fun db collectionName documents =>
                 (db ++ [(collectionName, documents)], None) |}.

Definition failingDB : VectorDB unit :=
  {| Upsert := fun db _ _ => (db, Some (errorString (str "no space left"))) |}.

Definition sampleDocument : Document :=
  {| ID := str "doc1";
     Title := str "Sample";
     Content := str "Para1" ++ [ascii_of_nat 10; ascii_of_nat 10] ++ str "Para2"
                  ++ [ascii_of_nat 10; ascii_of_nat 10] ++ str "Para3";
     Metadata := [(str "author", AnyString (str "ann"));
                  (str "source_id", AnyString (str "old"))];
     Vector := [] |}.

Definition otherDocument : Document :=
  {| ID := str "doc2";
     Title := [];
     Content := str "Lorem ipsum";
     Metadata := [];
     Vector := [] |}.

End Rag.

(* ================================================================== *)
(** * Facts about the Go string layer                                   *)
(* ================================================================== *)

(** Split a goal into its conjuncts, and nothing else. *)
Ltac split_ands := repeat match goal with |- _ /\ _ => split end.

Lemma len_nonneg {A} (l : list A) : 0 <= len l.
Proof. unfold len. lia. Qed.

Lemma len_app {A} (a b : list A) : len (a ++ b) = len a + len b.
Proof. unfold len. rewrite length_app. lia. Qed.

Lemma len_nil {A} : len (@nil A) = 0.
Proof. reflexivity. Qed.

Lemma len_cons {A} (x : A) l : len (x :: l) = 1 + len l.
Proof. unfold len. simpl List.length. lia. Qed.

Lemma gtb_false a b : (a >? b) = false <-> a <= b.
Proof. rewrite Z.gtb_ltb. apply Z.ltb_ge. Qed.

Lemma gtb_true a b : (a >? b) = true <-> b < a.
Proof. rewrite Z.gtb_ltb. apply Z.ltb_lt. Qed.

Lemma isEmpty_true a : isEmpty a = true <-> a = [].
Proof. destruct a; simpl; split; congruence. Qed.

Lemma isEmpty_false a : isEmpty a = false <-> a <> [].
Proof. destruct a; simpl; split; congruence. Qed.

Lemma first_size s0 sz lo hi :
  first s0 = Some (sz, lo, hi) -> (2 <= sz <= 4)%nat.
Proof.
  unfold first.
  repeat match goal with
         | |- context [if ?b then _ else _] => destruct b
         end; intros E; inversion E; subst; lia.
Qed.

(** A rune read from a string that is not empty is 1 to 4 bytes wide and
    lies within the string. *)
Lemma DecodeRune_width c s :
  (1 <= snd (DecodeRune (c :: s)) <= List.length (c :: s))%nat /\
  (snd (DecodeRune (c :: s)) <= 4)%nat.
Proof.
  unfold DecodeRune.
  destruct (byteZ c <? RuneSelf); [simpl; lia|].
  destruct (first (byteZ c)) as [[[sz lo] hi]|] eqn:F; [|simpl; lia].
  apply first_size in F.
  destruct (List.length (c :: s) <? sz)%nat eqn:L; [simpl; lia|].
  apply Nat.ltb_ge in L.
  destruct (outside lo hi _); [simpl; lia|].
  destruct (sz <=? 2)%nat eqn:L2; [simpl in *; lia|].
  apply Nat.leb_gt in L2.
  destruct (outside 128 191 _); [simpl; lia|].
  destruct (sz <=? 3)%nat eqn:L3; [simpl in *; lia|].
  apply Nat.leb_gt in L3.
  destruct (outside 128 191 _); simpl in *; lia.
Qed.

Lemma segmentsFrom_concat s : forall skip,
  concat (map snd (segmentsFrom skip s)) = skipn skip s.
Proof.
  induction s as [|c s IH]; intros skip.
  - destruct skip; reflexivity.
  - destruct skip as [|k].
    + cbn [segmentsFrom].
      pose proof (DecodeRune_width c s) as [[W1 W2] _].
      destruct (DecodeRune (c :: s)) as [r w]. cbn [snd] in *.
      cbn [map concat snd]. rewrite IH.
      destruct w as [|w]; [lia|].
      replace (S w - 1)%nat with w by lia.
      change (skipn 0 (c :: s)) with (c :: s).
      change (skipn w s) with (skipn (S w) (c :: s)).
      apply firstn_skipn.
    + cbn [segmentsFrom]. rewrite IH. reflexivity.
Qed.

(** The byte runs of the runes of a string, concatenated, are the string. *)
Lemma segments_concat s : concat (map snd (segments s)) = s.
Proof. unfold segments. apply segmentsFrom_concat. Qed.

Lemma segmentsFrom_nonempty s : forall skip,
  Forall (fun seg => snd seg <> []) (segmentsFrom skip s).
Proof.
  induction s as [|c s IH]; intros skip.
  - destruct skip; constructor.
  - destruct skip as [|k]; cbn [segmentsFrom]; [|apply IH].
    pose proof (DecodeRune_width c s) as [[W1 W2] _].
    destruct (DecodeRune (c :: s)) as [r w]. cbn [snd] in *.
    constructor; [|apply IH].
    destruct w; [lia|]. simpl. discriminate.
Qed.

Lemma segments_nil_inv s : segments s = [] -> s = [].
Proof.
  intros E. rewrite <- (segments_concat s), E. reflexivity.
Qed.

(** [string(r)] is 1 to 4 bytes long. *)
Lemma EncodeRune_len r : 1 <= len (EncodeRune r) <= 4.
Proof.
  unfold EncodeRune.
  repeat match goal with
         | |- context [if ?b then _ else _] => destruct b
         end; unfold len; simpl; lia.
Qed.

Lemma stringOfRunes_app a b :
  stringOfRunes (a ++ b) = stringOfRunes a ++ stringOfRunes b.
Proof. unfold stringOfRunes. apply flat_map_app. Qed.

Lemma stringOfRunes_cons r rs :
  stringOfRunes (r :: rs) = EncodeRune r ++ stringOfRunes rs.
Proof. reflexivity. Qed.

(** ** White space *)

Lemma fieldsLoop_spaces segs :
  forallb unicode_IsSpace (map fst segs) = true -> fieldsLoop None segs = [].
Proof.
  induction segs as [|[r b] segs IH]; simpl; intros E; [reflexivity|].
  apply andb_true_iff in E as [E1 E2]. rewrite E1. auto.
Qed.

Lemma dropSpaces_spaces segs :
  forallb unicode_IsSpace (map fst segs) = true -> dropSpaces segs = [].
Proof.
  induction segs as [|[r b] segs IH]; simpl; intros E; [reflexivity|].
  apply andb_true_iff in E as [E1 E2]. rewrite E1. auto.
Qed.

(** White space only: no field. *)
Lemma Fields_whitespaceOnly text :
  whitespaceOnly text = true -> strings_Fields text = [].
Proof. intros W. apply fieldsLoop_spaces, W. Qed.

(** White space only: nothing is left by trimming. *)
Lemma TrimSpace_whitespaceOnly text :
  whitespaceOnly text = true -> strings_TrimSpace text = [].
Proof.
  intros W. unfold strings_TrimSpace, strings_TrimLeft.
  rewrite (dropSpaces_spaces _ W). reflexivity.
Qed.

Lemma TrimSpace_nil : strings_TrimSpace [] = [].
Proof. reflexivity. Qed.

(* ================================================================== *)
(** * The recursive splitter                                            *)
(* ================================================================== *)

Section Split.
Variable s : SentenceSplitter.
Variable chunkSize : Z.

Lemma firstSplit_lossless fns t sp :
  Forall lossless fns -> firstSplit fns t = Some sp -> concat sp = t.
Proof.
  induction 1 as [|f fns Hf _ IH]; simpl; [discriminate|].
  destruct (len (f t) >? 1); [|exact IH].
  intros E. inversion E. apply Hf.
Qed.

Lemma lastSplit_lossless fns t : forall init,
  Forall lossless fns -> concat init = t ->
  concat (lastSplit fns t init) = t.
Proof.
  induction fns as [|f fns IH]; simpl; intros init Hl Hi; [exact Hi|].
  inversion_clear Hl.
  destruct (len (f t) >? 1); [auto|]. apply IH; auto.
Qed.

Lemma getSplitsByFns_lossless t :
  losslessChain s -> concat (fst (getSplitsByFns s t)) = t.
Proof.
  intros (H1 & H2 & H3). unfold getSplitsByFns.
  destruct (firstSplit (_splitFns s) t) eqn:E; cbn [fst].
  - exact (firstSplit_lossless _ _ _ H1 E).
  - destruct (_subSentenceSplitFns s) as [|f fns]; [congruence|].
    inversion_clear H2. cbn [lastSplit].
    destruct (len (f t) >? 1); [auto|].
    apply lastSplit_lossless; auto.
Qed.

(** What [splitEach] returns is made of the candidates that fit and of
    what the recursive calls returned, in order. *)
Lemma splitEach_inv (P : gostring -> list textSplit -> Prop) rec measure b :
  (forall p, measure p <= chunkSize ->
             P p [{| text := p; isSentence := b; tokenSize := measure p |}]) ->
  (forall p ls, rec p = Some ls -> P p ls) ->
  forall pieces leaves,
    splitEach rec measure chunkSize b pieces = Some leaves ->
    exists groups, leaves = concat groups /\ Forall2 P pieces groups.
Proof.
  intros Hfit Hrec. induction pieces as [|p pieces IH]; simpl; intros leaves E.
  - inversion E. exists []. split; [reflexivity|constructor].
  - destruct (measure p <=? chunkSize) eqn:M.
    + destruct (splitEach rec measure chunkSize b pieces) as [rest|] eqn:R;
        [|discriminate].
      inversion E; subst. destruct (IH _ eq_refl) as (gs & -> & F).
      exists ([{| text := p; isSentence := b; tokenSize := measure p |}] :: gs).
      split; [reflexivity|].
      constructor; [apply Hfit; lia|exact F].
    + destruct (rec p) as [ls|] eqn:Rp; [|discriminate].
      destruct (splitEach rec measure chunkSize b pieces) as [rest|] eqn:R;
        [|discriminate].
      inversion E; subst. destruct (IH _ eq_refl) as (gs & -> & F).
      exists (ls :: gs). split; [reflexivity|].
      constructor; [apply Hrec; exact Rp|exact F].
Qed.

Lemma splitEach_total rec measure b pieces :
  Forall (fun p => measure p <= chunkSize \/ exists ls, rec p = Some ls) pieces ->
  exists leaves, splitEach rec measure chunkSize b pieces = Some leaves.
Proof.
  induction 1 as [|p pieces Hp _ [rest IH]]; simpl; [eauto|].
  rewrite IH. destruct (measure p <=? chunkSize) eqn:M; [eauto|].
  destruct Hp as [Hp|[ls Hp]]; [lia|]. rewrite Hp. eauto.
Qed.

Lemma split_unfold fuel t :
  split (S fuel) s t chunkSize =
  if getTokenSize s t <=? chunkSize then
    Some [{| text := t; isSentence := true; tokenSize := getTokenSize s t |}]
  else
    splitEach (fun p => split fuel s p chunkSize) (getTokenSize s) chunkSize
              (snd (getSplitsByFns s t)) (fst (getSplitsByFns s t)).
Proof.
  cbn [split]. destruct (getSplitsByFns s t). reflexivity.
Qed.

(** Every leaf fits the chunk size, and its recorded size is its
    measure. *)
Lemma split_sizes : forall fuel t leaves,
  split fuel s t chunkSize = Some leaves ->
  Forall (fun l => tokenSize l <= chunkSize /\
                   tokenSize l = getTokenSize s (text l)) leaves.
Proof.
  induction fuel as [|fuel IH]; intros t leaves E; [discriminate|].
  rewrite split_unfold in E.
  destruct (getTokenSize s t <=? chunkSize) eqn:M.
  - inversion E. constructor; [|constructor]. cbn. lia.
  - apply (splitEach_inv
             (fun _ ls => Forall (fun l => tokenSize l <= chunkSize /\
                                           tokenSize l = getTokenSize s (text l)) ls))
      in E as (gs & -> & F).
    + apply Forall_concat. clear -F.
      induction F; constructor; auto.
    + intros p Hp. constructor; [|constructor]. cbn. lia.
    + intros p ls Hp. eapply IH; eauto.
Qed.

(** The texts of the leaves, concatenated, are the text that was split. *)
Lemma split_concat :
  losslessChain s ->
  forall fuel t leaves,
    split fuel s t chunkSize = Some leaves ->
    concat (map text leaves) = t.
Proof.
  intros HL. induction fuel as [|fuel IH]; intros t leaves E; [discriminate|].
  rewrite split_unfold in E.
  destruct (getTokenSize s t <=? chunkSize) eqn:M.
  - inversion E. cbn. apply app_nil_r.
  - apply (splitEach_inv (fun p ls => concat (map text ls) = p))
      in E as (gs & -> & F).
    + transitivity (concat (fst (getSplitsByFns s t)));
        [|apply getSplitsByFns_lossless; exact HL].
      clear -F. induction F as [|p g ps gs Hp _ IHF]; [reflexivity|].
      cbn [concat]. rewrite map_app, concat_app, Hp, IHF. reflexivity.
    + intros p Hp. cbn. apply app_nil_r.
    + intros p ls Hp. eapply IH; eauto.
Qed.

(** With candidates that fit or shrink, a recursion depth of one more
    than the length of the text is enough. *)
Lemma split_total :
  progresses s chunkSize ->
  forall fuel t, (List.length t < fuel)%nat ->
    exists leaves, split fuel s t chunkSize = Some leaves.
Proof.
  intros HP. induction fuel as [|fuel IH]; intros t Hlen; [lia|].
  rewrite split_unfold.
  destruct (getTokenSize s t <=? chunkSize) eqn:M; [eauto|].
  apply splitEach_total.
  assert (G : getTokenSize s t > chunkSize) by lia.
  specialize (HP t G).
  eapply Forall_impl; [|exact HP].
  intros p [Hp|Hp]; [left; exact Hp|right]. apply IH. lia.
Qed.

Lemma splitEach_mono rec rec' measure b : forall pieces leaves,
  (forall p ls, rec p = Some ls -> rec' p = Some ls) ->
  splitEach rec measure chunkSize b pieces = Some leaves ->
  splitEach rec' measure chunkSize b pieces = Some leaves.
Proof.
  induction pieces as [|p pieces IH]; intros leaves Hr E; [exact E|].
  cbn [splitEach] in *.
  destruct (measure p <=? chunkSize).
  - destruct (splitEach rec measure chunkSize b pieces) as [rest|] eqn:R;
      [|discriminate].
    rewrite (IH rest Hr eq_refl). exact E.
  - destruct (rec p) as [ls|] eqn:Rp; [|discriminate].
    rewrite (Hr p ls Rp).
    destruct (splitEach rec measure chunkSize b pieces) as [rest|] eqn:R;
      [|discriminate].
    rewrite (IH rest Hr eq_refl). exact E.
Qed.

(** More depth does not change what [split] returns. *)
Lemma split_fuel_mono : forall n t leaves,
  split n s t chunkSize = Some leaves ->
  forall m, (n <= m)%nat -> split m s t chunkSize = Some leaves.
Proof.
  induction n as [|n IH]; intros t leaves E m L; [discriminate|].
  destruct m as [|m]; [lia|].
  rewrite split_unfold in *.
  destruct (getTokenSize s t <=? chunkSize); [exact E|].
  eapply splitEach_mono; [|exact E].
  intros p ls Hp. apply IH; [exact Hp|lia].
Qed.

(** A fragment that is too large and is its own only candidate is split
    again and again. *)
Lemma split_diverges t :
  getTokenSize s t > chunkSize ->
  fst (getSplitsByFns s t) = [t] ->
  forall fuel, split fuel s t chunkSize = None.
Proof.
  intros G E. induction fuel as [|fuel IH]; [reflexivity|].
  rewrite split_unfold, E.
  destruct (getTokenSize s t <=? chunkSize) eqn:M; [lia|].
  cbn [splitEach]. rewrite M, IH. reflexivity.
Qed.
End Split.

(* ================================================================== *)
(** * The greedy merger                                                 *)
(* ================================================================== *)

Section Merge.
Variable s : SentenceSplitter.
Variable chunkSize : Z.

Lemma closeChunk_newChunk st : newChunk (closeChunk s st) = true.
Proof.
  unfold closeChunk. destruct (overlapLoop _ _ _ _). reflexivity.
Qed.

(** One round of the loop: panic, close and come back to the same leaf,
    or take the leaf.  The last [closeChunk] of the source, in the
    [else] of the append test, is never reached. *)
Lemma mergeLoop_step fuel st x more :
  mergeLoop (S fuel) s chunkSize st (x :: more) =
  if tokenSize x >? chunkSize then
    Panic (SingleTokenExceeded (tokenSize x) chunkSize)
  else if (curChunkLen st + tokenSize x >? chunkSize) && negb (newChunk st)
  then mergeLoop fuel s chunkSize (closeChunk s st) (x :: more)
  else mergeLoop fuel s chunkSize (stepLeaf s chunkSize st x) more.
Proof.
  cbn [mergeLoop].
  destruct (tokenSize x >? chunkSize); [reflexivity|].
  destruct ((curChunkLen st + tokenSize x >? chunkSize) && negb (newChunk st))
    eqn:C; [reflexivity|].
  unfold stepLeaf. rewrite C.
  destruct (newChunk st) eqn:N;
    destruct (curChunkLen st + tokenSize x >? chunkSize) eqn:O;
    cbn [andb negb] in *; try discriminate.
  - destruct (evict _ _ _ _) as [cur curLen]. cbn.
    rewrite ?N, ?orb_true_r. reflexivity.
  - rewrite ?N, ?orb_true_r. reflexivity.
  - rewrite ?N.
    assert (F : (curChunkLen st + tokenSize x <=? chunkSize) = true)
      by (apply Z.leb_le; apply gtb_false in O; lia).
    rewrite F, orb_true_r. reflexivity.
Qed.

Lemma stepLeaf_close st x :
  (curChunkLen st + tokenSize x >? chunkSize) && negb (newChunk st) = true ->
  stepLeaf s chunkSize (closeChunk s st) x = stepLeaf s chunkSize st x.
Proof.
  intros C. unfold stepLeaf. rewrite C. cbv zeta iota.
  pose proof (closeChunk_newChunk st) as N.
  remember (closeChunk s st) as st1.
  rewrite N. cbn [negb]. rewrite andb_false_r. cbv iota.
  rewrite N. reflexivity.
Qed.

Lemma stepLeaf_newChunk st x : newChunk (stepLeaf s chunkSize st x) = false.
Proof.
  unfold stepLeaf.
  match goal with |- context [let (_, _) := ?e in _] => destruct e end.
  reflexivity.
Qed.

(** A loop that ends has taken the leaves one after the other, and none
    of them was larger than the chunk size. *)
Lemma mergeLoop_Ok : forall fuel st rest st',
  mergeLoop fuel s chunkSize st rest = Ok st' ->
  st' = fold_left (stepLeaf s chunkSize) rest st /\
  Forall (fun sp => tokenSize sp <= chunkSize) rest.
Proof.
  induction fuel as [|fuel IH]; intros st rest st' E.
  - destruct rest; [|discriminate]. inversion E. split; [reflexivity|constructor].
  - destruct rest as [|x more].
    + inversion E. split; [reflexivity|constructor].
    + rewrite mergeLoop_step in E.
      destruct (tokenSize x >? chunkSize) eqn:T; [discriminate|].
      apply gtb_false in T.
      destruct ((curChunkLen st + tokenSize x >? chunkSize) && negb (newChunk st))
        eqn:C.
      * apply IH in E as [E F]. split; [|exact F].
        rewrite E. cbn [fold_left]. rewrite stepLeaf_close by exact C.
        reflexivity.
      * apply IH in E as [E F]. split; [exact E|].
        constructor; [exact T|exact F].
Qed.

(** Two rounds for every leaf are enough: a round that closes a chunk is
    followed by a round that appends. *)
Lemma mergeLoop_enough : forall rest st fuel,
  Forall (fun sp => tokenSize sp <= chunkSize) rest ->
  (2 * List.length rest <= fuel)%nat ->
  mergeLoop fuel s chunkSize st rest =
  Ok (fold_left (stepLeaf s chunkSize) rest st).
Proof.
  induction rest as [|x more IH]; intros st fuel F L.
  - destruct fuel; reflexivity.
  - inversion_clear F as [|? ? Hx Hm].
    cbn [List.length] in L.
    destruct fuel as [|fuel]; [lia|].
    rewrite mergeLoop_step.
    assert (T : (tokenSize x >? chunkSize) = false).
    { apply gtb_false. lia. }
    rewrite T.
    destruct ((curChunkLen st + tokenSize x >? chunkSize) && negb (newChunk st))
      eqn:C.
    + destruct fuel as [|fuel]; [lia|].
      rewrite mergeLoop_step, T, closeChunk_newChunk, andb_false_r.
      rewrite stepLeaf_close by exact C.
      apply IH; [exact Hm|lia].
    + apply IH; [exact Hm|lia].
Qed.

Lemma mergeLoop_not_panic : forall fuel st rest p,
  Forall (fun sp => tokenSize sp <= chunkSize) rest ->
  mergeLoop fuel s chunkSize st rest <> Panic p.
Proof.
  induction fuel as [|fuel IH]; intros st rest p F.
  - destruct rest; discriminate.
  - destruct rest as [|x more]; [discriminate|].
    inversion_clear F as [|? ? Hx Hm].
    rewrite mergeLoop_step.
    assert (T : (tokenSize x >? chunkSize) = false).
    { apply gtb_false. lia. }
    rewrite T.
    destruct (_ && _); apply IH; auto.
Qed.

(** ** Sizes *)

Lemma sumLen_app a b : sumLen (a ++ b) = sumLen a + sumLen b.
Proof. induction a; cbn [sumLen app]; lia. Qed.

Lemma joinItems_app a b : joinItems (a ++ b) = joinItems a ++ joinItems b.
Proof. unfold joinItems. rewrite map_app, concat_app. reflexivity. Qed.

(** The overlap walk: what it prepends is a run of [revLast], every
    stretch at the front of the result that ends where [cur] begins stays
    within the budget, and the item the walk stopped at would exceed
    it. *)
Lemma overlapLoop_spec ov : forall revLast cur curLen,
  curLen = sumLen cur ->
  exists taken rest,
    revLast = taken ++ rest /\
    overlapLoop ov revLast cur curLen = (rev taken ++ cur, sumLen (rev taken ++ cur)) /\
    (forall A B, rev taken = A ++ B -> B <> [] -> sumLen (B ++ cur) <= ov) /\
    match rest with
    | [] => True
    | y :: _ => sumLen (y :: rev taken ++ cur) > ov
    end.
Proof.
  induction revLast as [|it more IH]; intros cur curLen E.
  - exists [], []. cbn. subst. repeat split; auto.
    intros A B HAB HB. destruct A, B; try discriminate. congruence.
  - cbn [overlapLoop].
    destruct (curLen + item_len it <=? ov) eqn:T.
    + apply Z.leb_le in T.
      destruct (IH (it :: cur) (curLen + item_len it)) as (tk & rs & E1 & E2 & E3 & E4).
      { cbn [sumLen]. lia. }
      exists (it :: tk), rs. cbn [rev].
      rewrite <- !app_assoc. cbn [app].
      repeat split; auto.
      * rewrite E1. reflexivity.
      * intros A B HAB HB.
        destruct (exists_last HB) as (B' & z & ->).
        rewrite app_assoc in HAB. apply app_inj_tail in HAB as [HAB ->].
        rewrite <- app_assoc. cbn [app].
        destruct B' as [|b B'].
        -- cbn [app sumLen]. subst. lia.
        -- apply (E3 A (b :: B')); [exact HAB|discriminate].
    + apply Z.leb_gt in T.
      exists [], (it :: more). cbn. subst. repeat split; auto.
      * intros A B HAB HB. destruct A, B; try discriminate. congruence.
      * lia.
Qed.

(** The eviction loop: what it leaves is the end of [cur]; it is empty
    or leaves room for the leaf; the last item dropped would not have. *)
Lemma evict_spec size : forall cur curLen,
  curLen = sumLen cur ->
  exists dropped kept,
    cur = dropped ++ kept /\
    evict chunkSize size cur curLen = (kept, sumLen kept) /\
    (kept = [] \/ sumLen kept + size <= chunkSize) /\
    (forall D y, dropped = D ++ [y] -> sumLen (y :: kept) + size > chunkSize).
Proof.
  induction cur as [|it more IH]; intros curLen E.
  - exists [], []. cbn. subst. repeat split; auto.
    intros D y HD. destruct D; discriminate.
  - cbn [evict]. destruct (curLen + size >? chunkSize) eqn:T.
    + apply gtb_true in T.
      destruct (IH (curLen - item_len it)) as (dr & kp & E1 & E2 & E3 & E4).
      { subst. cbn [sumLen]. lia. }
      exists (it :: dr), kp. repeat split; auto.
      * rewrite E1. reflexivity.
      * intros D y HD.
        destruct dr as [|d dr].
        -- destruct D as [|? D]; [|destruct D; discriminate].
           inversion HD; subst. cbn [app] in *. cbn [sumLen] in *. lia.
        -- destruct D as [|d' D]; [discriminate|].
           inversion HD. eapply E4; eauto.
    + apply gtb_false in T.
      exists [], (it :: more). subst. repeat split; auto.
      intros D y HD. destruct D; discriminate.
Qed.
End Merge.

Section MergeInvariants.
Variable s : SentenceSplitter.
Variable chunkSize : Z.

Lemma closeChunk_fields st :
  curChunkLen (closeChunk s st) = sumLen (curChunk (closeChunk s st)) /\
  curChunk (closeChunk s st) = overlapOf s (curChunk st) /\
  chunks (closeChunk s st) = chunks st ++ [joinItems (curChunk st)].
Proof.
  unfold closeChunk, overlapOf.
  destruct (overlapLoop_spec (ChunkOverlap s) (rev (curChunk st)) [] 0 eq_refl)
    as (tk & rs & _ & E & _).
  rewrite E. cbn. auto.
Qed.

(** The overlap of a closed chunk [G], cut back for the leaf [x], is the
    kept overlap of [G] for [x]. *)
Lemma overlap_evict_kept G x :
  item_len x <= chunkSize ->
  let ov := overlapOf s G in
  let r := if sumLen ov + item_len x >? chunkSize
           then evict chunkSize (item_len x) ov (sumLen ov)
           else (ov, sumLen ov) in
  snd r = sumLen (fst r) /\ keptOverlap s chunkSize G (fst r) x.
Proof.
  intros Hx. unfold overlapOf.
  destruct (overlapLoop_spec (ChunkOverlap s) (rev G) [] 0 eq_refl)
    as (tk & rs & E1 & E2 & E3 & E4).
  rewrite E2. cbn [fst]. rewrite !app_nil_r in *.
  assert (EG : G = rev rs ++ rev tk).
  { rewrite <- (rev_involutive G), E1, rev_app_distr. reflexivity. }
  assert (Hov : forall P y, G = P ++ y :: rev tk ->
                            sumLen (y :: rev tk) > ChunkOverlap s).
  { intros P y HP. rewrite EG in HP.
    change (y :: rev tk) with ([y] ++ rev tk) in HP.
    rewrite app_assoc in HP. apply app_inv_tail in HP.
    destruct rs as [|y' rs].
    - destruct P; discriminate.
    - cbn [rev] in HP. apply app_inj_tail in HP as [_ ->].
      exact E4. }
  assert (Hsuf : forall A B, rev tk = A ++ B -> B = [] \/ sumLen B <= ChunkOverlap s).
  { intros A B HAB. destruct B as [|b B]; [left; reflexivity|right].
    specialize (E3 A (b :: B) HAB). rewrite ?app_nil_r in E3.
    apply E3. discriminate. }
  destruct (sumLen (rev tk) + item_len x >? chunkSize) eqn:T; cbv zeta.
  - apply gtb_true in T.
    destruct (evict_spec chunkSize (item_len x) (rev tk) (sumLen (rev tk)) eq_refl)
      as (dr & kp & D1 & D2 & D3 & D4).
    rewrite D2. cbn [fst snd]. split; [reflexivity|].
    unfold keptOverlap. split; [|split; [|split]].
    + exists (rev rs ++ dr). rewrite EG, D1, app_assoc. reflexivity.
    + apply (Hsuf dr kp D1).
    + destruct D3 as [->|D3]; [cbn [sumLen]; lia|exact D3].
    + intros P y HP.
      destruct dr as [|d0 dr0].
      * cbn [app] in D1. subst kp.
        left. eapply Hov; eauto.
      * destruct (@exists_last _ (d0 :: dr0)) as (D & y' & HD); [discriminate|].
        right. rewrite EG, D1, HD in HP.
        rewrite <- !app_assoc in HP. cbn [app] in HP.
        change (y' :: kp) with ([y'] ++ kp) in HP.
        change (y :: kp) with ([y] ++ kp) in HP.
        rewrite !app_assoc in HP. apply app_inv_tail in HP.
        apply app_inj_tail in HP as [_ <-].
        eapply D4; eauto.
  - apply gtb_false in T. cbn [fst snd]. split; [reflexivity|].
    unfold keptOverlap. split; [|split; [|split]].
    + exists (rev rs). exact EG.
    + apply (Hsuf [] (rev tk) eq_refl).
    + exact T.
    + intros P y HP. left. eapply Hov; eauto.
Qed.

(** What taking one leaf does to the state. *)
Lemma stepLeaf_shape st x :
  curChunkLen st = sumLen (curChunk st) ->
  tokenSize x <= chunkSize ->
  let st' := stepLeaf s chunkSize st x in
  exists kept,
    curChunk st' = kept ++ [itemOf x] /\
    curChunkLen st' = sumLen (kept ++ [itemOf x]) /\
    sumLen kept + tokenSize x <= chunkSize /\
    newChunk st' = false /\
    ((newChunk st = false /\
      chunks st' = chunks st ++ [joinItems (curChunk st)] /\
      keptOverlap s chunkSize (curChunk st) kept (itemOf x))
     \/
     (chunks st' = chunks st /\
      exists dropped, curChunk st = dropped ++ kept /\
                      (newChunk st = false -> dropped = []))).
Proof.
  intros HL Hx. cbv zeta. unfold stepLeaf.
  destruct ((curChunkLen st + tokenSize x >? chunkSize) && negb (newChunk st))
    eqn:C.
  - apply andb_true_iff in C as [C1 C2].
    apply negb_true_iff in C2.
    destruct (closeChunk_fields st) as (F1 & F2 & F3).
    pose proof (closeChunk_newChunk s st) as N.
    remember (closeChunk s st) as st0.
    rewrite N. cbn [andb].
    pose proof (overlap_evict_kept (curChunk st) (itemOf x) Hx) as K.
    cbv zeta in K. cbn [itemOf item_len] in K.
    rewrite F1, F2.
    destruct (if sumLen (overlapOf s (curChunk st)) + tokenSize x >? chunkSize
              then _ else _) as [cur curLen] eqn:R.
    cbn [fst snd] in K. destruct K as [K1 K2].
    exists cur. cbn.
    rewrite sumLen_app. cbn [sumLen itemOf item_len].
    split_ands; try lia; try reflexivity.
    + destruct K2 as (_ & _ & K3 & _). cbn [itemOf item_len] in K3. exact K3.
    + left. split_ands; auto.
  - assert (C' : newChunk st = true \/
                 (newChunk st = false /\ curChunkLen st + tokenSize x <= chunkSize)).
    { destruct (newChunk st); [left; reflexivity|right]. split; [reflexivity|].
      rewrite andb_true_r in C. apply gtb_false in C. exact C. }
    destruct C' as [N|[N Fit]]; rewrite N; cbn [andb].
    + destruct (curChunkLen st + tokenSize x >? chunkSize) eqn:T.
      * destruct (evict_spec chunkSize (tokenSize x) (curChunk st) (curChunkLen st) HL)
          as (dr & kp & D1 & D2 & D3 & D4).
        rewrite D2. exists kp. cbn.
        rewrite sumLen_app. cbn [sumLen itemOf item_len].
        split_ands; try lia; try reflexivity.
        -- destruct D3 as [->|D3]; [cbn [sumLen]; lia|exact D3].
        -- right. split; [reflexivity|]. exists dr. split; [exact D1|congruence].
      * apply gtb_false in T. exists (curChunk st). cbn.
        rewrite sumLen_app. cbn [sumLen itemOf item_len].
        split_ands; try lia; try reflexivity.
        right. split; [reflexivity|]. exists []. split; [reflexivity|auto].
    + exists (curChunk st). cbn.
      rewrite sumLen_app. cbn [sumLen itemOf item_len].
      split_ands; try lia; try reflexivity.
      right. split; [reflexivity|]. exists []. split; [reflexivity|auto].
Qed.

Lemma chain_snoc {A} (R : A -> A -> Prop) gs g c :
  chain R (gs ++ [g]) -> R g c -> chain R ((gs ++ [g]) ++ [c]).
Proof.
  induction gs as [|a gs IH]; intros H Hr.
  - cbn. auto.
  - cbn [app] in *. destruct gs as [|b gs].
    + cbn in *. tauto.
    + cbn [app chain] in *. destruct H as [H1 H2]. split; [exact H1|].
      apply IH; assumption.
Qed.

Lemma chain_nth {A} (R : A -> A -> Prop) l :
  chain R l -> forall i a b,
    nth_error l i = Some a -> nth_error l (S i) = Some b -> R a b.
Proof.
  induction l as [|x l IH]; intros H i a b Ha Hb.
  - destruct i; discriminate.
  - destruct l as [|y l]; [destruct i; discriminate|].
    destruct H as [H1 H2]. destruct i as [|i].
    + cbn in Ha, Hb. inversion Ha; inversion Hb; subst. exact H1.
    + apply (IH H2 i); assumption.
Qed.

Lemma Forall_app_r {A} (P : A -> Prop) a b : Forall P (a ++ b) -> Forall P b.
Proof. intros H. apply Forall_app in H. tauto. Qed.

Lemma sizeInv_step Q st x :
  sizeInv chunkSize Q st -> Q (itemOf x) -> tokenSize x <= chunkSize ->
  sizeInv chunkSize Q (stepLeaf s chunkSize st x).
Proof.
  intros (I1 & I2 & I3 & I4) Hq Hx.
  destruct (stepLeaf_shape st x I1 Hx) as (kept & S1 & S2 & S3 & S4 & S5).
  assert (Hk : Forall Q kept).
  { destruct S5 as [(_ & _ & ((P & HP) & _))|(_ & dr & HD & _)].
    - rewrite HP in I2. eapply Forall_app_r; eauto.
    - rewrite HD in I2. eapply Forall_app_r; eauto. }
  unfold sizeInv. rewrite S1. split_ands.
  - rewrite S2. reflexivity.
  - apply Forall_app. split; [exact Hk|]. constructor; [exact Hq|constructor].
  - intros _. rewrite sumLen_app. cbn [sumLen itemOf item_len]. lia.
  - destruct S5 as [(N & -> & _)|(-> & _)]; [|exact I4].
    apply Forall_app. split; [exact I4|].
    constructor; [|constructor]. exists (curChunk st). auto.
Qed.

Lemma sizeInv_fold Q : forall rest st,
  sizeInv chunkSize Q st ->
  Forall (fun sp => Q (itemOf sp) /\ tokenSize sp <= chunkSize) rest ->
  sizeInv chunkSize Q (fold_left (stepLeaf s chunkSize) rest st).
Proof.
  induction rest as [|x rest IH]; intros st I F; [exact I|].
  inversion_clear F as [|? ? [Hq Hx] Hr].
  cbn [fold_left]. apply IH; [|exact Hr]. apply sizeInv_step; assumption.
Qed.

Lemma merge_Ok fuel splits out :
  merge fuel s splits chunkSize = Ok out ->
  let st := fold_left (stepLeaf s chunkSize) splits mergeInit in
  Forall (fun sp => tokenSize sp <= chunkSize) splits /\
  out = if negb (newChunk st)
        then chunks st ++ [joinItems (curChunk st)]
        else chunks st.
Proof.
  unfold merge. intros E.
  destruct (mergeLoop fuel s chunkSize mergeInit splits) as [st'| |] eqn:M;
    try discriminate.
  apply mergeLoop_Ok in M as [-> F]. cbv zeta. split; [exact F|].
  destruct (negb _); inversion E; reflexivity.
Qed.

(** The chunks [merge] returns are runs of leaves whose recorded sizes
    total at most the chunk size. *)
Lemma merge_sizes Q fuel splits out :
  merge fuel s splits chunkSize = Ok out ->
  Forall (fun sp => Q (itemOf sp)) splits ->
  Forall (fun c => exists g, c = joinItems g /\ sumLen g <= chunkSize /\
                             Forall Q g) out.
Proof.
  intros E HQ. apply merge_Ok in E as [F ->].
  assert (I : sizeInv chunkSize Q (fold_left (stepLeaf s chunkSize) splits mergeInit)).
  { apply sizeInv_fold.
    - unfold sizeInv, mergeInit. cbn. split_ands; auto. discriminate.
    - rewrite Forall_forall in *. intros sp Hsp. split; auto. }
  destruct I as (I1 & I2 & I3 & I4).
  destruct (newChunk _) eqn:N; cbn [negb]; [exact I4|].
  apply Forall_app. split; [exact I4|].
  constructor; [|constructor]. eexists. split; [reflexivity|]. auto.
Qed.
End MergeInvariants.

(* ================================================================== *)
(** * The paragraph chunker                                             *)
(* ================================================================== *)

Section ParagraphFacts.
Import Paragraph.
Variable s : ParagraphSplitter.

Lemma countTake_spec : forall rs count,
  let n := countTake (MaxChunkSize s) rs count in
  (n <= List.length rs)%nat /\
  (n <> 0%nat ->
   count + len (stringOfRunes (firstn n rs)) <= MaxChunkSize s) /\
  match skipn n rs with
  | [] => True
  | r :: _ => count + len (stringOfRunes (firstn n rs)) + len (EncodeRune r)
              > MaxChunkSize s
  end.
Proof.
  induction rs as [|r rs IH]; intros count; cbv zeta.
  - cbn. split_ands; auto. lia.
  - cbn [countTake].
    destruct (count + len (EncodeRune r) >? MaxChunkSize s) eqn:T.
    + apply gtb_true in T. cbn. split_ands; try lia.
    + apply gtb_false in T.
      specialize (IH (count + len (EncodeRune r))). cbv zeta in IH.
      destruct IH as (I1 & I2 & I3).
      cbn [List.length firstn skipn]. rewrite stringOfRunes_cons, len_app.
      split_ands.
      * lia.
      * intros _.
        destruct (countTake (MaxChunkSize s) rs (count + len (EncodeRune r))) eqn:C.
        -- cbn. lia.
        -- specialize (I2 ltac:(discriminate)). lia.
      * destruct (skipn _ rs); [exact I|]. lia.
Qed.

Lemma takeRunes_spec rs :
  rs <> [] ->
  let n := takeRunes (MaxChunkSize s) rs in
  (1 <= n <= List.length rs)%nat /\
  goodPiece (MaxChunkSize s) (firstn n rs) (skipn n rs).
Proof.
  intros Hrs. cbv zeta. unfold takeRunes.
  destruct (countTake_spec rs 0) as (C1 & C2 & C3). cbv zeta in *.
  destruct rs as [|r rs]; [congruence|].
  destruct (countTake (MaxChunkSize s) (r :: rs) 0) as [|n] eqn:C.
  - cbn [Nat.eqb andb]. rewrite len_cons.
    assert (L : (1 + len rs >? 0) = true) by (apply gtb_true; pose proof (len_nonneg rs); lia).
    rewrite L. cbn [List.length firstn skipn]. split; [lia|].
    split; [discriminate|]. right. exists r. split; [reflexivity|].
    cbn [countTake] in C.
    destruct (0 + len (EncodeRune r) >? MaxChunkSize s) eqn:T; [|discriminate].
    apply gtb_true in T. lia.
  - cbn [Nat.eqb andb]. split; [lia|].
    split; [cbn; discriminate|]. left.
    specialize (C2 ltac:(discriminate)). split; [lia|].
    destruct (skipn (S n) (r :: rs)); [exact I|]. lia.
Qed.

(** The hard split loses no rune and cuts between runes; every piece is
    as long as fits, or one rune that is too wide. *)
Lemma oversizedLoop_spec : forall fuel rs,
  (List.length rs <= fuel)%nat ->
  concat (oversizedLoop fuel (MaxChunkSize s) rs) = rs /\
  piecesGood (MaxChunkSize s) (oversizedLoop fuel (MaxChunkSize s) rs).
Proof.
  induction fuel as [|fuel IH]; intros rs L.
  - destruct rs; [|cbn in L; lia]. cbn. auto.
  - destruct rs as [|r rs]; [cbn; auto|].
    cbn [oversizedLoop].
    destruct (takeRunes_spec (r :: rs)) as (T1 & T2); [discriminate|].
    cbv zeta in *.
    set (n := takeRunes (MaxChunkSize s) (r :: rs)) in *.
    destruct (IH (skipn n (r :: rs))) as (I1 & I2).
    { rewrite length_skipn. cbn [List.length] in *. lia. }
    cbn [concat piecesGood]. rewrite I1. split.
    + apply firstn_skipn.
    + split; assumption.
Qed.

Lemma piecesGood_fit maxSize : forall pieces,
  piecesGood maxSize pieces ->
  Forall (fun r => len (EncodeRune r) <= maxSize) (concat pieces) ->
  Forall (fun piece => len (stringOfRunes piece) <= maxSize) pieces.
Proof.
  induction pieces as [|p pieces IH]; intros G F; [constructor|].
  destruct G as [(_ & G1) G2]. cbn [concat] in F.
  apply Forall_app in F as [F1 F2].
  constructor; [|apply IH; assumption].
  destruct G1 as [[G1 _]|(r & -> & G1)]; [exact G1|].
  inversion_clear F1. lia.
Qed.

(** The pieces of a paragraph none of whose runes is too wide are within
    the maximum. *)
Lemma splitOversizedParagraph_fit p :
  runesFit (MaxChunkSize s) p ->
  Forall (fun subP => len subP <= MaxChunkSize s) (splitOversizedParagraph s p).
Proof.
  intros F. unfold splitOversizedParagraph.
  destruct (oversizedLoop_spec (List.length (runes p)) (runes p) (Nat.le_refl _))
    as (C & G).
  apply Forall_map. apply piecesGood_fit; [exact G|]. rewrite C. exact F.
Qed.

(** ** Packing *)

Lemma Join_snoc sep : forall l p,
  l <> [] -> strings_Join (l ++ [p]) sep = strings_Join l sep ++ sep ++ p.
Proof.
  induction l as [|a l IH]; intros p H; [congruence|].
  destruct l as [|b l]; [reflexivity|].
  change (strings_Join ((a :: b :: l) ++ [p]) sep)
    with (a ++ sep ++ strings_Join ((b :: l) ++ [p]) sep).
  rewrite IH by discriminate.
  change (strings_Join (a :: b :: l) sep)
    with (a ++ sep ++ strings_Join (b :: l) sep).
  rewrite <- !app_assoc. reflexivity.
Qed.

Lemma lastPara_le sep : forall l,
  l <> [] -> len (lastPara l) <= len (strings_Join l sep).
Proof.
  unfold lastPara.
  induction l as [|a l IH]; intros H; [congruence|].
  destruct l as [|b l]; [cbn; lia|].
  change (last (a :: b :: l) []) with (last (b :: l) []).
  change (strings_Join (a :: b :: l) sep)
    with (a ++ sep ++ strings_Join (b :: l) sep).
  rewrite !len_app. specialize (IH ltac:(discriminate)).
  pose proof (len_nonneg a). pose proof (len_nonneg sep). lia.
Qed.

Lemma len_pos_nonempty {A} (l : list A) : (len l >? 0) = true <-> l <> [].
Proof.
  rewrite gtb_true. destruct l; [cbn; split; [lia|congruence]|].
  rewrite len_cons. pose proof (len_nonneg l). split; [discriminate|lia].
Qed.

Lemma len_pos_empty {A} (l : list A) : (len l >? 0) = false <-> l = [].
Proof.
  rewrite gtb_false. destruct l; [cbn; split; [reflexivity|lia]|].
  rewrite len_cons. pose proof (len_nonneg l). split; [lia|discriminate].
Qed.

Lemma packInv_flush (st : packState) :
  packInv s st -> currentChunk st <> [] ->
  Forall (fun c => len c <= MaxChunkSize s)
         (chunks st ++ [strings_Join (currentChunk st) (Separator s)]).
Proof.
  intros (I1 & I2 & I3) H. apply Forall_app. split; [exact I3|].
  constructor; [|constructor]. destruct I2; [congruence|assumption].
Qed.

Lemma packInv_pair (a b : gostring) cs :
  Forall (fun c => len c <= MaxChunkSize s) cs ->
  len a + len b + len (Separator s) <= MaxChunkSize s ->
  packInv s {| chunks := cs; currentChunk := [a; b];
               currentSize := len a + len (Separator s) + len b |}.
Proof.
  intros F L. unfold packInv. cbn. rewrite !len_app. split_ands; auto.
  - lia.
  - right. lia.
Qed.

Lemma packInv_single (a : gostring) cs :
  Forall (fun c => len c <= MaxChunkSize s) cs ->
  len a <= MaxChunkSize s ->
  packInv s {| chunks := cs; currentChunk := [a]; currentSize := len a |}.
Proof.
  intros F L. unfold packInv. cbn. split_ands; auto.
Qed.

Lemma packInv_append (st : packState) (p : gostring) :
  packInv s st ->
  currentSize st + len p + len (Separator s) <= MaxChunkSize s ->
  packInv s {| chunks := chunks st;
               currentChunk := currentChunk st ++ [p];
               currentSize := (if len (currentChunk st) >? 0
                               then currentSize st + len (Separator s)
                               else currentSize st) + len p |}.
Proof.
  intros (I1 & I2 & I3) L. unfold packInv. cbn.
  pose proof (len_nonneg (Separator s)).
  destruct (currentChunk st) as [|a l] eqn:E.
  - cbn in *. split_ands; auto; try lia; try (right; lia).
  - assert (N : a :: l <> []) by discriminate.
    rewrite (proj2 (len_pos_nonempty (a :: l)) N).
    rewrite Join_snoc by exact N. rewrite !len_app.
    split_ands; auto; try lia; try (right; lia).
Qed.

Lemma addSubPart_inv (st : packState) subP :
  packInv s st -> len subP <= MaxChunkSize s ->
  packInv s (addSubPart s st subP).
Proof.
  intros I L. unfold addSubPart.
  destruct (currentSize st + len subP + len (Separator s) >? MaxChunkSize s) eqn:T.
  - destruct (len (currentChunk st) >? 0) eqn:N.
    + apply len_pos_nonempty in N.
      pose proof (packInv_flush st I N) as F.
      destruct (len (lastPara (currentChunk st)) + len subP + len (Separator s)
                >? MaxChunkSize s) eqn:O.
      * apply packInv_single; assumption.
      * apply gtb_false in O. apply packInv_pair; assumption.
    + destruct I as (_ & _ & I3). apply packInv_single; assumption.
  - apply gtb_false in T. apply packInv_append; assumption.
Qed.

Lemma addSubParts_inv : forall parts st,
  packInv s st -> Forall (fun subP => len subP <= MaxChunkSize s) parts ->
  packInv s (fold_left (addSubPart s) parts st).
Proof.
  induction parts as [|p parts IH]; intros st I F; [exact I|].
  inversion_clear F. cbn [fold_left]. apply IH; [|assumption].
  apply addSubPart_inv; assumption.
Qed.

Lemma addParagraph_inv (st : packState) p :
  packInv s st -> runesFit (MaxChunkSize s) p ->
  packInv s (addParagraph s st p).
Proof.
  intros I F. unfold addParagraph.
  destruct (len p >? MaxChunkSize s) eqn:Big.
  - apply addSubParts_inv; [|apply splitOversizedParagraph_fit; exact F].
    destruct (len (currentChunk st) >? 0) eqn:N; [|exact I].
    apply len_pos_nonempty in N.
    apply packInv_single; [apply packInv_flush; assumption|].
    destruct I as (_ & [I2|I2] & _); [congruence|].
    pose proof (lastPara_le (Separator s) _ N). lia.
  - apply gtb_false in Big.
    destruct (len (currentChunk st) >? 0) eqn:N.
    + pose proof N as N'. apply len_pos_nonempty in N'.
      destruct (currentSize st + (len p + len (Separator s)) >? MaxChunkSize s) eqn:T.
      * pose proof (packInv_flush st I N') as Fl.
        destruct (len (lastPara (currentChunk st)) + len (Separator s) + len p
                  >? MaxChunkSize s) eqn:O.
        -- apply packInv_single; assumption.
        -- apply gtb_false in O.
           apply packInv_pair; [assumption|lia].
      * apply gtb_false in T.
        pose proof (packInv_append st p I ltac:(lia)) as A.
        rewrite N in A.
        replace (currentSize st + (len p + len (Separator s)))
          with (currentSize st + len (Separator s) + len p) by lia.
        exact A.
    + pose proof N as N'. apply len_pos_empty in N'.
      destruct I as (I1 & I2 & I3). rewrite N' in *. cbn in I1.
      destruct (currentSize st + len p >? MaxChunkSize s) eqn:T.
      * apply gtb_true in T. lia.
      * unfold packInv. cbn. rewrite I1. split_ands; auto.
Qed.

Lemma addParagraphs_inv : forall ps st,
  packInv s st -> Forall (runesFit (MaxChunkSize s)) ps ->
  packInv s (fold_left (addParagraph s) ps st).
Proof.
  induction ps as [|p ps IH]; intros st I F; [exact I|].
  inversion_clear F. cbn [fold_left]. apply IH; [|assumption].
  apply addParagraph_inv; assumption.
Qed.

(** Every chunk is within the maximum when no rune of a paragraph is
    wider than the maximum. *)
Lemma Paragraph_SplitText_bound text :
  Forall (runesFit (MaxChunkSize s))
         (keepParagraphs (strings_Split text (Separator s))) ->
  Forall (fun c => len c <= MaxChunkSize s) (SplitText s text).
Proof.
  intros F. unfold SplitText.
  destruct (isEmpty text); [constructor|].
  destruct (len _ =? 0); [constructor|].
  set (st := fold_left _ _ _).
  assert (I : packInv s st).
  { apply addParagraphs_inv; [|exact F].
    unfold packInv. cbn. auto. }
  destruct (len (currentChunk st) >? 0) eqn:N.
  - apply len_pos_nonempty in N. apply packInv_flush; assumption.
  - destruct I as (_ & _ & I3). exact I3.
Qed.

Lemma runesFit_wide p : 4 <= MaxChunkSize s -> runesFit (MaxChunkSize s) p.
Proof.
  intros H. unfold runesFit. apply Forall_forall. intros r _.
  pose proof (EncodeRune_len r). lia.
Qed.
End ParagraphFacts.

(* ================================================================== *)
(** * The split functions after the specification                      *)
(* ================================================================== *)

Section HelperFacts.
Import SpecHelpers.

Lemma concat_filter_nonEmpty l : concat (filter nonEmpty l) = concat l.
Proof.
  induction l as [|a l IH]; [reflexivity|].
  cbn [filter concat]. destruct a; cbn; [exact IH|]. rewrite IH. reflexivity.
Qed.

Lemma filter_nonEmpty_all l : Forall (fun p => p <> []) (filter nonEmpty l).
Proof.
  apply Forall_forall. intros p Hp. apply filter_In in Hp as [_ Hp].
  destruct p; [discriminate|discriminate].
Qed.

Lemma hasPrefix_split p : forall t,
  hasPrefix p t = true -> t = p ++ skipn (List.length p) t.
Proof.
  induction p as [|a p IH]; intros t H; [reflexivity|].
  destruct t as [|b t]; [discriminate|]. cbn [hasPrefix] in H.
  destruct (ascii_dec a b) as [->|]; [|discriminate].
  cbn. f_equal. apply IH. exact H.
Qed.

Lemma splitLoop_nonempty sep t : forall skip cur,
  splitLoop sep skip cur t <> [].
Proof.
  induction t as [|c t IH]; intros skip cur; cbn; [discriminate|].
  destruct skip; [|apply IH].
  destruct (hasPrefix sep (c :: t)); [discriminate|apply IH].
Qed.

Lemma splitLoop_unsplit sep :
  sep <> [] ->
  forall t skip cur,
    unsplit sep (splitLoop sep skip cur t) = rev cur ++ skipn skip t.
Proof.
  intros Hsep. induction t as [|c t IH]; intros skip cur.
  - cbn. destruct skip; reflexivity.
  - cbn [splitLoop]. destruct skip as [|k]; [|rewrite IH; reflexivity].
    destruct (hasPrefix sep (c :: t)) eqn:P.
    + specialize (IH (List.length sep - 1)%nat []).
      pose proof (splitLoop_nonempty sep t (List.length sep - 1)%nat []) as NE.
      destruct (splitLoop sep (List.length sep - 1) [] t) as [|h more];
        [congruence|].
      cbn [unsplit map concat] in *. f_equal.
      rewrite <- app_assoc, IH. cbn [rev app skipn].
      apply hasPrefix_split in P.
      destruct sep as [|a sep']; [congruence|].
      cbn [List.length] in *. replace (S (List.length sep') - 1)%nat
        with (List.length sep') by lia.
      exact (eq_sym P).
    + rewrite IH. cbn [rev skipn]. rewrite <- app_assoc. reflexivity.
Qed.

Lemma SplitBySep_lossless sep : lossless (SplitBySep sep).
Proof.
  intros t. unfold SplitBySep, strings_Split.
  destruct sep as [|a sep'].
  - rewrite <- (segments_concat t) at 2.
    destruct (map snd (segments t)) as [|h more]; [reflexivity|].
    rewrite concat_filter_nonEmpty. cbn [concat]. f_equal.
    rewrite map_id. reflexivity.
  - pose proof (splitLoop_unsplit (a :: sep') ltac:(discriminate) t 0%nat [])
      as U.
    destruct (splitLoop (a :: sep') 0 [] t) as [|h more] eqn:E.
    + exfalso. eapply splitLoop_nonempty; eauto.
    + rewrite concat_filter_nonEmpty. exact U.
Qed.

Lemma SplitBySep_proper sep : proper (SplitBySep sep).
Proof.
  split; [apply SplitBySep_lossless|].
  intros t. unfold SplitBySep.
  destruct (strings_Split t sep); [constructor|apply filter_nonEmpty_all].
Qed.

Lemma cutAfter_concat : forall segs cur,
  concat (cutAfter cur segs) = cur ++ concat (map snd segs).
Proof.
  induction segs as [|[r b] segs IH]; intros cur.
  - cbn. destruct cur; cbn; rewrite ?app_nil_r; reflexivity.
  - cbn [cutAfter map concat snd]. destruct (isTerminator r).
    + cbn [concat]. rewrite IH. cbn [app]. rewrite <- app_assoc. reflexivity.
    + rewrite IH, <- app_assoc. reflexivity.
Qed.

Lemma cutAfter_nonempty : forall segs cur,
  Forall (fun seg => snd seg <> []) segs ->
  Forall (fun p => p <> []) (cutAfter cur segs).
Proof.
  induction segs as [|[r b] segs IH]; intros cur F.
  - cbn. destruct cur; cbn; constructor; [discriminate|constructor].
  - inversion_clear F as [|? ? Hb Hs]. cbn [snd] in Hb.
    cbn [cutAfter]. destruct (isTerminator r).
    + constructor; [|apply IH; exact Hs].
      intros E. apply app_eq_nil in E as [_ E]. congruence.
    + apply IH. exact Hs.
Qed.

Lemma SplitByRegex_proper pattern : proper (SplitByRegex pattern).
Proof.
  split.
  - intros t. unfold SplitByRegex. rewrite cutAfter_concat. cbn [app].
    apply segments_concat.
  - intros t. apply cutAfter_nonempty. apply segmentsFrom_nonempty.
Qed.

Lemma SplitByChar_lossless : lossless SplitByChar.
Proof.
  intros t. unfold SplitByChar.
  pose proof (segments_concat t) as C.
  destruct (segments t) as [|a [|b l]]; cbn [concat]; rewrite ?app_nil_r; auto.
Qed.

(** The character split gives the fragment back when it has at most one
    character, and more than one candidate otherwise. *)
Lemma SplitByChar_cases t :
  ((List.length (segments t) <= 1)%nat /\ SplitByChar t = [t]) \/
  (len (SplitByChar t) > 1 /\
   Forall (fun p => p <> []) (SplitByChar t)).
Proof.
  unfold SplitByChar.
  pose proof (segmentsFrom_nonempty t 0) as NE. fold (segments t) in NE.
  destruct (segments t) as [|a [|b l]].
  - left. cbn. auto.
  - left. cbn. auto.
  - right. split.
    + unfold len. cbn [map List.length]. lia.
    + apply Forall_map. exact NE.
Qed.

(** Candidates that are not empty and are more than one are each
    shorter than the text they add up to. *)
Lemma pieces_shorter (l : list gostring) t :
  concat l = t -> Forall (fun p => p <> []) l -> len l > 1 ->
  Forall (fun p => (List.length p < List.length t)%nat) l.
Proof.
  intros C NE L.
  assert (G : forall p, In p l -> exists a b, l = a ++ p :: b /\ (a <> [] \/ b <> [])).
  { intros p Hp. apply in_split in Hp as (a & b & ->). exists a, b.
    split; [reflexivity|].
    destruct a; [right|left; discriminate].
    destruct b; [|discriminate]. unfold len in L. cbn in L. lia. }
  apply Forall_forall. intros p Hp.
  destruct (G p Hp) as (a & b & -> & Hab).
  rewrite <- C, concat_app. cbn [concat]. rewrite !length_app.
  apply Forall_app in NE as [Na Nb]. inversion_clear Nb as [|? ? _ Nb'].
  destruct Hab as [Ha|Hb].
  - destruct a as [|a0 a]; [congruence|]. inversion_clear Na as [|? ? Ha0 _].
    cbn [concat]. rewrite length_app.
    destruct a0; [congruence|]. cbn [List.length]. lia.
  - destruct b as [|b0 b]; [congruence|]. inversion_clear Nb' as [|? ? Hb0 _].
    cbn [concat]. rewrite length_app.
    destruct b0; [congruence|]. cbn [List.length]. lia.
Qed.

Section Built.
Variables (chunkSize chunkOverlap : Z) (tokenizer : option Tokenizer).
Let sp := NewSentenceSplitter helpers chunkSize chunkOverlap tokenizer None.

(** The chains of a splitter built with the default strategy lose
    nothing. *)
Lemma built_lossless : losslessChain sp.
Proof.
  unfold losslessChain. cbn.
  split_ands; [| |discriminate]; repeat constructor;
    try apply SplitBySep_lossless;
    try apply (SplitByRegex_proper DefaultChunkingRegex);
    try apply SplitByChar_lossless.
Qed.

(** And its recursion goes to ever shorter candidates, when a single
    character fits. *)
Lemma built_progresses :
  charFits (Tokenizer_ sp) (ChunkSize sp) ->
  progresses sp (ChunkSize sp).
Proof.
  intros CF t G. unfold getSplitsByFns.
  pose proof (SplitBySep_proper DefaultParagraphSep) as [P1 P1'].
  pose proof (SplitBySep_proper DefaultSeparator) as [P2 P2'].
  pose proof (SplitByRegex_proper DefaultChunkingRegex) as [P3 P3'].
  cbn [sp NewSentenceSplitter _splitFns _subSentenceSplitFns firstSplit
       lastSplit helpers SentenceSplit.SplitBySep SentenceSplit.SplitByRegex
       SentenceSplit.SplitByChar SentenceSplit.NewRegexSplitterStrategy
       NewRegexSplitterStrategy Split].
  assert (Sh : forall f, lossless f -> Forall (fun p => p <> []) (f t) ->
               (len (f t) >? 1) = true ->
               Forall (fun p => getTokenSize sp p <= ChunkSize sp \/
                                (List.length p < List.length t)%nat) (f t)).
  { intros f Hl Hn L. apply gtb_true in L.
    eapply Forall_impl; [|apply (pieces_shorter (f t) t); auto; lia].
    intros p Hp. right. exact Hp. }
  destruct (len (SplitBySep DefaultParagraphSep t) >? 1) eqn:E1;
    [apply Sh; auto|].
  destruct (len (SplitByRegex DefaultChunkingRegex t) >? 1) eqn:E2;
    [apply Sh; auto|].
  cbn [fst]. rewrite ?E2.
  destruct (len (SplitBySep DefaultSeparator t) >? 1) eqn:E3;
    [apply Sh; auto|].
  destruct (SplitByChar_cases t) as [[L E]|[L NE]].
  - rewrite E. cbn. constructor; [|constructor]. left. apply CF. exact L.
  - assert (L' : (len (SplitByChar t) >? 1) = true) by (apply gtb_true; lia).
    rewrite L'. apply Sh; auto. apply SplitByChar_lossless.
Qed.
End Built.

(** ** Tokenizers *)

Lemma SimpleTokenizer_charFits chunkSize :
  1 <= chunkSize -> charFits SimpleTokenizer chunkSize.
Proof.
  intros H t L. cbn [Encode SimpleTokenizer]. unfold strings_Fields.
  destruct (segments t) as [|[r b] [|x l]]; [cbn; lia| |cbn in L; lia].
  cbn. destruct (unicode_IsSpace r); cbn; lia.
Qed.

Lemma byteTokenizer_subadditive : subadditive byteTokenizer.
Proof.
  intros a b. cbn [Encode byteTokenizer]. rewrite map_app, len_app. lia.
Qed.

Lemma dropSpaces_suffix segs : exists pre, segs = pre ++ dropSpaces segs.
Proof.
  induction segs as [|[r b] segs [pre IH]]; [exists []; reflexivity|].
  cbn [dropSpaces]. destruct (unicode_IsSpace r).
  - exists ((r, b) :: pre). cbn. f_equal. exact IH.
  - exists []. reflexivity.
Qed.

(** Trimming removes bytes only. *)
Lemma TrimSpace_length a :
  (List.length (strings_TrimSpace a) <= List.length a)%nat.
Proof.
  unfold strings_TrimSpace, strings_TrimRight.
  rewrite length_firstn.
  apply Nat.le_trans with (List.length (strings_TrimLeft a)); [lia|].
  unfold strings_TrimLeft.
  destruct (dropSpaces_suffix (segments a)) as [pre E].
  rewrite <- (segments_concat a) at 2. rewrite E at 2.
  rewrite map_app, concat_app, length_app. lia.
Qed.

Lemma byteTokenizer_trimStable : trimStable byteTokenizer.
Proof.
  intros a. cbn [Encode byteTokenizer]. unfold len. rewrite !length_map.
  pose proof (TrimSpace_length a). lia.
Qed.
End HelperFacts.

(* ================================================================== *)
(** * Decoding is local                                                 *)
(* ================================================================== *)

Lemma first_range s0 sz lo hi :
  first s0 = Some (sz, lo, hi) -> 128 <= lo /\ hi <= 191 /\ 194 <= s0.
Proof.
  unfold first.
  repeat match goal with
         | |- context [if ?b then _ else _] => destruct b eqn:?
         end; intros E; inversion E; subst; lia.
Qed.

Lemma outside_clean lo hi d :
  128 <= lo -> hi <= 191 -> contByte d = false -> outside lo hi (byteZ d) = true.
Proof.
  unfold contByte, outside. intros Hlo Hhi H.
  apply andb_false_iff in H as [H|H].
  - apply Z.leb_gt in H. apply orb_true_iff. left. apply Z.ltb_lt. lia.
  - apply Z.leb_gt in H. apply orb_true_iff. right. apply Z.ltb_lt. lia.
Qed.

Lemma outside_cont lo hi d :
  128 <= lo -> hi <= 191 -> outside lo hi (byteZ d) = false -> contByte d = true.
Proof.
  unfold contByte, outside. intros Hlo Hhi H.
  apply orb_false_iff in H as [H1 H2].
  apply Z.ltb_ge in H1, H2. apply andb_true_iff. split; apply Z.leb_le; lia.
Qed.

Ltac case_ifs :=
  repeat match goal with
         | |- context [if ?b then _ else _] => destruct b eqn:?
         end.

(** What follows a string does not change its first rune when it does not
    begin with a continuation byte. *)
Lemma DecodeRune_app_clean a b :
  a <> [] -> startsClean b -> DecodeRune (a ++ b) = DecodeRune a.
Proof.
  intros Ha Hb. destruct a as [|c0 a]; [congruence|].
  destruct b as [|d b]; [rewrite app_nil_r; reflexivity|].
  cbn [startsClean] in Hb.
  unfold DecodeRune. cbn [app].
  destruct (byteZ c0 <? RuneSelf); [reflexivity|].
  destruct (first (byteZ c0)) as [[[sz lo] hi]|] eqn:F; [|reflexivity].
  pose proof (first_size _ _ _ _ F) as Hsz.
  destruct (first_range _ _ _ _ F) as (Hlo & Hhi & _).
  pose proof (outside_clean lo hi d Hlo Hhi Hb) as O1.
  pose proof (outside_clean 128 191 d ltac:(lia) ltac:(lia) Hb) as O2.
  unfold byteAt.
  destruct a as [|c1 [|c2 [|c3 a]]]; cbn [app nth List.length];
    destruct sz as [|[|[|[|[|sz]]]]]; try lia;
    cbn [Nat.ltb Nat.leb]; rewrite ?O1, ?O2;
    case_ifs; try reflexivity; try discriminate.
Qed.

(** The first rune of [a ++ b] either lies within [a], and then it is the
    first rune of [a]; or it reaches into [b], and then [a] alone begins
    with an invalid byte and the bytes taken from [b] are continuation
    bytes. *)
Lemma DecodeRune_app a b :
  a <> [] ->
  ((snd (DecodeRune (a ++ b)) <= List.length a)%nat /\
   DecodeRune a = DecodeRune (a ++ b)) \/
  ((List.length a < snd (DecodeRune (a ++ b)))%nat /\
   DecodeRune a = (RuneError, 1%nat) /\
   Forall (fun c => contByte c = true)
          (firstn (snd (DecodeRune (a ++ b)) - List.length a) b)).
Proof.
  intros Ha. destruct a as [|c0 a]; [congruence|].
  unfold DecodeRune. cbn [app].
  destruct (byteZ c0 <? RuneSelf); [left; cbn; split; [lia|reflexivity]|].
  destruct (first (byteZ c0)) as [[[sz lo] hi]|] eqn:F;
    [|left; cbn; split; [lia|reflexivity]].
  pose proof (first_size _ _ _ _ F) as Hsz.
  destruct (first_range _ _ _ _ F) as (Hlo & Hhi & _).
  unfold byteAt.
  destruct a as [|c1 [|c2 [|c3 a]]]; destruct b as [|d0 [|d1 [|d2 b]]];
    cbn [app nth List.length];
    destruct sz as [|[|[|[|[|sz]]]]]; try lia;
    cbn [Nat.ltb Nat.leb];
    case_ifs; cbn [snd List.length Nat.sub firstn];
    try (left; split; [lia|reflexivity]);
    try (right; split_ands; [lia|reflexivity|
           repeat constructor;
           first [eapply (outside_cont lo hi); eassumption
                 |eapply (outside_cont 128 191); [lia|lia|eassumption]]]).
Qed.

Lemma DecodeRune_cont c s :
  contByte c = true -> DecodeRune (c :: s) = (RuneError, 1%nat).
Proof.
  unfold contByte. intros H. apply andb_true_iff in H as [H1 H2].
  apply Z.leb_le in H1, H2. unfold DecodeRune.
  assert (A : (byteZ c <? RuneSelf) = false) by (apply Z.ltb_ge; unfold RuneSelf; lia).
  rewrite A.
  destruct (first (byteZ c)) as [[[sz lo] hi]|] eqn:F; [|reflexivity].
  apply first_range in F. lia.
Qed.

Lemma segmentsFrom_skip s : forall k,
  segmentsFrom k s = segments (skipn k s).
Proof.
  induction s as [|c s IH]; intros k.
  - destruct k; reflexivity.
  - destruct k as [|k]; [reflexivity|]. cbn [segmentsFrom skipn]. apply IH.
Qed.

(** The runes of a string: its first rune, then the runes of the rest. *)
Lemma segments_unfold c s :
  segments (c :: s) =
  (fst (DecodeRune (c :: s)), firstn (snd (DecodeRune (c :: s))) (c :: s))
    :: segments (skipn (snd (DecodeRune (c :: s))) (c :: s)).
Proof.
  unfold segments at 1. cbn [segmentsFrom].
  pose proof (DecodeRune_width c s) as [[W1 _] _].
  destruct (DecodeRune (c :: s)) as [r w]. cbn [fst snd] in *.
  rewrite segmentsFrom_skip. destruct w as [|w]; [lia|].
  replace (S w - 1)%nat with w by lia. reflexivity.
Qed.

Lemma segments_conts : forall p q,
  Forall (fun c => contByte c = true) p ->
  segments (p ++ q) = map (fun c => (RuneError, [c])) p ++ segments q.
Proof.
  induction p as [|c p IH]; intros q F; [reflexivity|].
  inversion_clear F as [|? ? Hc Hp].
  cbn [app]. rewrite segments_unfold, (DecodeRune_cont c (p ++ q) Hc).
  cbn [fst snd firstn skipn map app]. rewrite IH by exact Hp. reflexivity.
Qed.

Lemma RuneError_not_space : unicode_IsSpace RuneError = false.
Proof. reflexivity. Qed.

(** The runes of [a ++ b]: those of [a] followed by those of [b], unless
    one rune straddles the seam; then it takes the place of a run of
    invalid bytes at the end of [a] and of one at the head of [b]. *)
Lemma segments_app_cases : forall n a b,
  (List.length a <= n)%nat ->
  segments (a ++ b) = segments a ++ segments b \/
  exists A t1 T m H B,
    segments a = A ++ t1 :: T /\ unicode_IsSpace (fst t1) = false /\
    segments b = H ++ B /\
    segments (a ++ b) = A ++ m :: B.
Proof.
  induction n as [|n IH]; intros a b L.
  - destruct a; [left; reflexivity|cbn in L; lia].
  - destruct a as [|c a]; [left; reflexivity|].
    destruct (DecodeRune_app (c :: a) b ltac:(discriminate)) as [[W E]|(W & E & C)].
    + change ((c :: a) ++ b) with (c :: (a ++ b)) in *.
      rewrite (segments_unfold c (a ++ b)), (segments_unfold c a), E.
      set (w := snd (DecodeRune (c :: a ++ b))) in *.
      pose proof (DecodeRune_width c (a ++ b)) as [[W1 _] _]. fold w in W1.
      change (c :: a ++ b) with ((c :: a) ++ b).
      rewrite firstn_app, skipn_app.
      replace (w - List.length (c :: a))%nat with 0%nat by lia.
      cbn [firstn skipn]. rewrite app_nil_r.
      destruct (IH (skipn w (c :: a)) b) as [S|(A & t1 & T & m & H & B & S1 & S2 & S3 & S4)].
      { rewrite length_skipn. cbn [List.length] in *. lia. }
      * left. rewrite S. reflexivity.
      * right.
        exists ((fst (DecodeRune ((c :: a) ++ b)), firstn w (c :: a)) :: A),
          t1, T, m, H, B.
        rewrite S1, S4. split_ands; auto.
    + right.
      set (w := snd (DecodeRune ((c :: a) ++ b))) in *.
      exists [], (RuneError, [c]), (segments (skipn 1 (c :: a))),
        (fst (DecodeRune ((c :: a) ++ b)), firstn w ((c :: a) ++ b)),
        (map (fun c => (RuneError, [c])) (firstn (w - List.length (c :: a)) b)),
        (segments (skipn (w - List.length (c :: a)) b)).
      split_ands.
      * rewrite segments_unfold, E. reflexivity.
      * reflexivity.
      * rewrite <- (firstn_skipn (w - List.length (c :: a)) b) at 1.
        apply segments_conts. exact C.
      * change ((c :: a) ++ b) with (c :: (a ++ b)) in *.
        rewrite (segments_unfold c (a ++ b)). fold w. cbn [app].
        f_equal. f_equal.
        change (c :: a ++ b) with ((c :: a) ++ b).
        rewrite skipn_app.
        rewrite (skipn_all2 (c :: a)) by lia. reflexivity.
Qed.

(** No rune straddles a seam behind which no continuation byte stands. *)
Lemma segments_app_clean : forall n a b,
  (List.length a <= n)%nat -> startsClean b ->
  segments (a ++ b) = segments a ++ segments b.
Proof.
  induction n as [|n IH]; intros a b L Hb.
  - destruct a; [reflexivity|cbn in L; lia].
  - destruct a as [|c a]; [reflexivity|].
    pose proof (DecodeRune_app_clean (c :: a) b ltac:(discriminate) Hb) as E.
    change ((c :: a) ++ b) with (c :: (a ++ b)) in *.
    rewrite (segments_unfold c (a ++ b)), (segments_unfold c a), E.
    set (w := snd (DecodeRune (c :: a))).
    pose proof (DecodeRune_width c a) as [[W1 W2] _]. fold w in W1, W2.
    change (c :: a ++ b) with ((c :: a) ++ b).
    rewrite firstn_app, skipn_app.
    replace (w - List.length (c :: a))%nat with 0%nat by lia.
    cbn [firstn skipn]. rewrite app_nil_r.
    rewrite IH; [reflexivity| |exact Hb].
    rewrite length_skipn. cbn [List.length] in *. lia.
Qed.

(* ================================================================== *)
(** * Counting fields                                                   *)
(* ================================================================== *)

Lemma countFields_nonneg cur segs : 0 <= countFields cur segs.
Proof. apply len_nonneg. Qed.

(** Inside a field the count does not depend on what the field holds. *)
Lemma countFields_Some : forall segs f g,
  countFields (Some f) segs = countFields (Some g) segs.
Proof.
  unfold countFields.
  induction segs as [|[r b] segs IH]; intros f g; cbn [fieldsLoop].
  - reflexivity.
  - destruct (unicode_IsSpace r).
    + rewrite !len_cons. reflexivity.
    + apply IH.
Qed.

Lemma countFields_Some_pos segs f : 1 <= countFields (Some f) segs.
Proof.
  unfold countFields. revert f.
  induction segs as [|[r b] segs IH]; intros f; cbn [fieldsLoop].
  - cbn. lia.
  - destruct (unicode_IsSpace r); [|apply IH].
    rewrite len_cons. pose proof (len_nonneg (fieldsLoop None segs)). lia.
Qed.

Lemma countFields_None_le segs f :
  countFields None segs <= countFields (Some f) segs <= countFields None segs + 1.
Proof.
  unfold countFields.
  destruct segs as [|[r b] segs]; cbn [fieldsLoop]; [cbn; lia|].
  destruct (unicode_IsSpace r).
  - rewrite len_cons. lia.
  - pose proof (countFields_Some segs (f ++ b) b) as E.
    unfold countFields, gostring in *. lia.
Qed.

Lemma countFields_app : forall X cur Y,
  countFields cur (X ++ Y) <= countFields cur X + countFields None Y /\
  countFields cur X <= countFields cur (X ++ Y) /\
  countFields None Y <= countFields cur (X ++ Y).
Proof.
  induction X as [|[r b] X IH]; intros cur Y.
  - cbn [app]. destruct cur as [f|].
    + pose proof (countFields_None_le Y f).
      assert (countFields (Some f) [] = 1) by reflexivity.
      pose proof (countFields_Some_pos Y f). lia.
    + assert (countFields None [] = 0) by reflexivity.
      pose proof (countFields_nonneg None Y). lia.
  - unfold countFields in *. cbn [app fieldsLoop].
    destruct (unicode_IsSpace r); destruct cur as [f|]; rewrite ?len_cons;
      match goal with
      | |- context [fieldsLoop ?c (X ++ Y)] => specialize (IH c Y)
      end; lia.
Qed.

(** A rune put where a run that begins outside white space stood does not
    raise the count. *)
Lemma countFields_swap : forall A cur m t1 T,
  unicode_IsSpace (fst t1) = false ->
  countFields cur (A ++ [m]) <= countFields cur (A ++ t1 :: T).
Proof.
  unfold countFields.
  induction A as [|[r b] A IH]; intros cur m [r1 b1] T H1; cbn [fst] in H1.
  - cbn [app fieldsLoop]. rewrite H1. destruct m as [rm bm].
    assert (U : forall c, len (fieldsLoop c [(rm, bm)]) <= 1).
    { intros c. cbn [fieldsLoop]. destruct (unicode_IsSpace rm), c; cbn; lia. }
    specialize (U cur). cbn [fieldsLoop] in U.
    destruct cur as [f|].
    + pose proof (countFields_Some_pos T (f ++ b1)).
      unfold countFields, gostring in *. lia.
    + pose proof (countFields_Some_pos T b1).
      unfold countFields, gostring in *. lia.
  - cbn [app fieldsLoop].
    destruct (unicode_IsSpace r); destruct cur as [f|]; rewrite ?len_cons;
      match goal with
      | |- context [fieldsLoop ?c (A ++ [m])] => specialize (IH c m (r1, b1) T H1)
      end; lia.
Qed.

(** The white-space tokenizer is subadditive. *)
Lemma SimpleTokenizer_subadditive : subadditive SimpleTokenizer.
Proof.
  intros a b. cbn [Encode SimpleTokenizer]. unfold strings_Fields.
  change (countFields None (segments (a ++ b))
          <= countFields None (segments a) + countFields None (segments b)).
  destruct (segments_app_cases (List.length a) a b (Nat.le_refl _))
    as [E|(A & t1 & T & m & H & B & S1 & S2 & S3 & S4)].
  - rewrite E. apply countFields_app.
  - rewrite S1, S3, S4.
    change (A ++ m :: B) with (A ++ [m] ++ B). rewrite app_assoc.
    pose proof (countFields_app (A ++ [m]) None B) as (P1 & _ & _).
    pose proof (countFields_swap A None m t1 T S2) as P2.
    pose proof (countFields_app H None B) as (_ & _ & P3). lia.
Qed.

(** ** Trimming on the left *)

Lemma segments_suffix : forall X a Y,
  segments a = X ++ Y -> segments (concat (map snd Y)) = Y.
Proof.
  induction X as [|x X IH]; intros a Y E.
  - cbn [app] in E. rewrite <- E, segments_concat. reflexivity.
  - destruct a as [|c a]; [discriminate|].
    rewrite segments_unfold in E. cbn [app] in E. inversion E.
    eapply IH; eauto.
Qed.

Lemma segments_TrimLeft a :
  segments (strings_TrimLeft a) = dropSpaces (segments a).
Proof.
  unfold strings_TrimLeft.
  destruct (dropSpaces_suffix (segments a)) as [pre E].
  eapply segments_suffix; eauto.
Qed.

Lemma countFields_dropSpaces segs :
  countFields None (dropSpaces segs) = countFields None segs.
Proof.
  unfold countFields.
  induction segs as [|[r b] segs IH]; [reflexivity|].
  cbn [dropSpaces fieldsLoop]. destruct (unicode_IsSpace r) eqn:E; [exact IH|].
  cbn [fieldsLoop]. rewrite E. reflexivity.
Qed.

(* ================================================================== *)
(** * Trimming on the right                                              *)
(* ================================================================== *)

Lemma scanStart_le : forall fuel s start lim,
  scanStart fuel s start lim <= start.
Proof.
  induction fuel as [|fuel IH]; intros s start lim; cbn [scanStart]; [lia|].
  destruct (start <? lim); [lia|].
  destruct (RuneStart _); [lia|]. specialize (IH s (start - 1) lim). lia.
Qed.

Lemma skipn_last (s : gostring) :
  s <> [] -> skipn (List.length s - 1) s = [nth (List.length s - 1) s zero].
Proof.
  induction s as [|c s IH]; intros H; [congruence|].
  destruct s as [|d s]; [reflexivity|].
  cbn [List.length] in *. replace (S (S (List.length s)) - 1)%nat
    with (S (List.length s)) by lia.
  cbn [skipn nth]. specialize (IH ltac:(discriminate)).
  replace (S (List.length s) - 1)%nat with (List.length s) in IH by lia.
  exact IH.
Qed.

Lemma DecodeRune_single c : snd (DecodeRune [c]) = 1%nat.
Proof.
  pose proof (DecodeRune_width c []) as [[W1 W2] _]. cbn [List.length] in W2. lia.
Qed.

Lemma DecodeRune_ascii c s :
  byteZ c < 128 -> DecodeRune (c :: s) = (byteZ c, 1%nat).
Proof.
  intros H. unfold DecodeRune.
  assert (A : (byteZ c <? RuneSelf) = true) by (apply Z.ltb_lt; exact H).
  rewrite A. reflexivity.
Qed.

(** The last rune of a string: its width is that of the rune decoded
    forward from where it begins, and unless it is the error rune it is
    that rune. *)
Lemma DecodeLastRune_spec s :
  s <> [] ->
  let r := fst (DecodeLastRune s) in
  let size := snd (DecodeLastRune s) in
  let u := skipn (List.length s - size) s in
  (1 <= size <= List.length s)%nat /\
  snd (DecodeRune u) = size /\
  (r = RuneError \/ fst (DecodeRune u) = r).
Proof.
  intros Hs. cbv zeta.
  assert (Hl : (1 <= List.length s)%nat) by (destruct s; [congruence|cbn; lia]).
  pose proof (skipn_last s Hs) as SL.
  unfold DecodeLastRune.
  assert (E0 : (len s =? 0) = false) by (apply Z.eqb_neq; unfold len; lia).
  rewrite E0.
  replace (Z.to_nat (len s - 1)) with (List.length s - 1)%nat by (unfold len; lia).
  unfold byteAt.
  destruct (byteZ (nth (List.length s - 1) s zero) <? RuneSelf) eqn:A.
  - cbn [fst snd]. rewrite SL. apply Z.ltb_lt in A.
    rewrite (DecodeRune_ascii _ [] A). cbn [fst snd]. split_ands; auto; lia.
  - set (start0 := scanStart 4 s (len s - 2) (Z.max 0 (len s - UTFMax))).
    pose proof (scanStart_le 4 s (len s - 2) (Z.max 0 (len s - UTFMax))) as SLe.
    fold start0 in SLe.
    set (start := if start0 <? 0 then 0 else start0).
    assert (Hst : 0 <= start < len s).
    { unfold start. destruct (start0 <? 0) eqn:N.
      - unfold len. lia.
      - apply Z.ltb_ge in N. lia. }
    assert (NE : skipn (Z.to_nat start) s <> []).
    { intros E. apply (f_equal (@List.length _)) in E.
      rewrite length_skipn in E. cbn in E. unfold len in Hst. lia. }
    destruct (skipn (Z.to_nat start) s) as [|c0 t] eqn:Sk; [congruence|].
    pose proof (DecodeRune_width c0 t) as [[W1 W2] _].
    assert (Lk : List.length (c0 :: t) = (List.length s - Z.to_nat start)%nat).
    { rewrite <- Sk. apply length_skipn. }
    destruct (DecodeRune (c0 :: t)) as [r' size'] eqn:D. cbn [snd] in W1, W2.
    destruct (negb (start + Z.of_nat size' =? len s)) eqn:M.
    + cbn [fst snd]. rewrite SL, DecodeRune_single. split_ands; auto; lia.
    + apply negb_false_iff, Z.eqb_eq in M. cbn [fst snd].
      replace (List.length s - size')%nat with (Z.to_nat start)
        by (unfold len in *; lia).
      rewrite Sk, D. cbn [fst snd]. unfold len in *. split_ands; auto; lia.
Qed.

Lemma skipn_firstn_app (s : gostring) j i :
  (j <= i)%nat -> skipn j s = skipn j (firstn i s) ++ skipn i s.
Proof.
  intros H. rewrite <- (firstn_skipn i s) at 1.
  rewrite skipn_app, length_firstn.
  destruct (Nat.le_gt_cases i (List.length s)) as [L|L].
  - replace (j - Nat.min i (List.length s))%nat with 0%nat by lia. reflexivity.
  - rewrite (skipn_all2 s) by lia. rewrite !app_nil_r.
    rewrite (firstn_all2 s) by lia.
    rewrite skipn_nil, app_nil_r. reflexivity.
Qed.

Lemma space_head_clean u :
  unicode_IsSpace (fst (DecodeRune u)) = true -> u <> [] ->
  forall q, startsClean (u ++ q).
Proof.
  intros H Hu q. destruct u as [|h u]; [congruence|]. cbn [app startsClean].
  destruct (contByte h) eqn:C; [|reflexivity].
  rewrite (DecodeRune_cont h u C) in H. discriminate.
Qed.

(** The backward scan: it stops at the beginning [j] of a rune that ends
    at [i'], behind which only white space stands; or it passes over the
    whole string. *)
Lemma lastIndexNonSpace_spec s : forall fuel i,
  (i < fuel)%nat -> (i <= List.length s)%nat -> startsClean (skipn i s) ->
  let j := lastIndexNonSpace fuel s (Z.of_nat i) in
  (j = -1 /\ startsClean s) \/
  (exists j' i',
      j = Z.of_nat j' /\ (j' < i' <= List.length s)%nat /\
      startsClean (skipn i' s) /\
      snd (DecodeRune (skipn j' (firstn i' s))) = (i' - j')%nat).
Proof.
  induction fuel as [|fuel IH]; intros i Hf Hi Hc; [lia|].
  cbv zeta. cbn [lastIndexNonSpace].
  destruct (Z.of_nat i >? 0) eqn:P.
  - apply gtb_true in P. rewrite Nat2Z.id.
    assert (NE : firstn i s <> []).
    { intros E. apply (f_equal (@List.length _)) in E.
      rewrite length_firstn in E. cbn in E. lia. }
    assert (Lf : List.length (firstn i s) = i) by (rewrite length_firstn; lia).
    destruct (DecodeLastRune_spec (firstn i s) NE) as (S1 & S2 & S3).
    destruct (DecodeLastRune (firstn i s)) as [r size]. cbn [fst snd] in *.
    rewrite Lf in *.
    replace (Z.of_nat i - Z.of_nat size) with (Z.of_nat (i - size)) by lia.
    destruct (unicode_IsSpace r) eqn:Sp; cbn [negb].
    + destruct S3 as [->|S3]; [discriminate|].
      apply IH; [lia|lia|].
      rewrite (skipn_firstn_app s (i - size) i) by lia.
      apply space_head_clean; [rewrite S3; exact Sp|].
      intros E. apply (f_equal (@List.length _)) in E.
      rewrite length_skipn, Lf in E. cbn in E. lia.
    + right. exists (i - size)%nat, i.
      split_ands; auto; try lia; try (rewrite S2; lia).
  - left. apply gtb_false in P. assert (i = 0%nat) by lia. subst i.
    split; [reflexivity|exact Hc].
Qed.

(** Trimming on the right cuts the string where no rune straddles. *)
Lemma TrimRight_split s :
  exists q, s = strings_TrimRight s ++ q /\ startsClean q.
Proof.
  unfold strings_TrimRight.
  assert (Hc : startsClean (skipn (List.length s) s))
    by (rewrite skipn_all; exact I).
  destruct (lastIndexNonSpace_spec s (S (List.length s)) (List.length s)
              ltac:(lia) ltac:(lia) Hc)
    as [[E C]|(j & i & E & Hji & C & W)]; cbv zeta in E; fold (len s) in E;
    rewrite E.
  - cbn. exists s. split; [reflexivity|exact C].
  - assert (P : (0 <=? Z.of_nat j) = true) by (apply Z.leb_le; lia).
    rewrite P, Nat2Z.id. cbn [andb].
    assert (NE : skipn j (firstn i s) <> []).
    { intros E'. apply (f_equal (@List.length _)) in E'.
      rewrite length_skipn, length_firstn in E'. cbn in E'. lia. }
    assert (Hd : skipn j s = skipn j (firstn i s) ++ skipn i s)
      by (apply skipn_firstn_app; lia).
    assert (Wf : snd (DecodeRune (skipn j s)) = (i - j)%nat).
    { rewrite Hd, DecodeRune_app_clean by assumption. exact W. }
    assert (Res : forall k, k = Z.of_nat i ->
              exists q, s = firstn (Z.to_nat k) s ++ q /\ startsClean q).
    { intros k ->. rewrite Nat2Z.id. exists (skipn i s).
      split; [symmetry; apply firstn_skipn|exact C]. }
    destruct (RuneSelf <=? byteAt s j) eqn:B.
    + apply Res. rewrite Wf. lia.
    + apply Res. apply Z.leb_gt in B. unfold RuneSelf in B.
      assert (i - j = 1)%nat; [|lia].
      rewrite <- Wf.
      destruct (skipn j s) as [|h t] eqn:Sk.
      { rewrite Hd in NE. destruct (skipn j (firstn i s)); [congruence|discriminate]. }
      assert (Hh : byteAt s j = byteZ h).
      { unfold byteAt. rewrite <- (firstn_skipn j s), Sk.
        rewrite app_nth2; rewrite length_firstn; [|lia].
        replace (j - Nat.min j (List.length s))%nat with 0%nat by lia.
        reflexivity. }
      rewrite (DecodeRune_ascii h t ltac:(lia)). reflexivity.
Qed.

(** The white-space tokenizer counts no more fields after trimming. *)
Lemma SimpleTokenizer_trimStable : trimStable SimpleTokenizer.
Proof.
  intros a. cbn [Encode SimpleTokenizer]. unfold strings_Fields, strings_TrimSpace.
  destruct (TrimRight_split (strings_TrimLeft a)) as (q & E & C).
  change (countFields None (segments (strings_TrimRight (strings_TrimLeft a)))
          <= countFields None (segments a)).
  rewrite <- (countFields_dropSpaces (segments a)), <- segments_TrimLeft.
  rewrite E at 2.
  rewrite (segments_app_clean _ _ q (Nat.le_refl _) C).
  apply countFields_app.
Qed.

(* ================================================================== *)
(** * More on the merger                                                *)
(* ================================================================== *)

Section MergeMore.
Variable s : SentenceSplitter.
Variable chunkSize : Z.

(** The leaves that fit are taken one after the other, whatever follows
    them. *)
Lemma mergeLoop_prefix : forall pre st rest fuel,
  Forall (fun sp => tokenSize sp <= chunkSize) pre ->
  (2 * List.length pre <= fuel)%nat ->
  exists fuel',
    (fuel - 2 * List.length pre <= fuel')%nat /\
    mergeLoop fuel s chunkSize st (pre ++ rest) =
    mergeLoop fuel' s chunkSize (fold_left (stepLeaf s chunkSize) pre st) rest.
Proof.
  induction pre as [|x pre IH]; intros st rest fuel F L.
  - exists fuel. split; [cbn; lia|reflexivity].
  - inversion_clear F as [|? ? Hx Hp]. cbn [List.length] in L.
    destruct fuel as [|fuel]; [lia|].
    cbn [app]. rewrite mergeLoop_step.
    assert (T : (tokenSize x >? chunkSize) = false) by (apply gtb_false; lia).
    rewrite T.
    destruct ((curChunkLen st + tokenSize x >? chunkSize) && negb (newChunk st))
      eqn:C.
    + destruct fuel as [|fuel]; [lia|].
      rewrite mergeLoop_step, T, closeChunk_newChunk, andb_false_r.
      rewrite stepLeaf_close by exact C.
      destruct (IH (stepLeaf s chunkSize st x) rest fuel Hp ltac:(lia))
        as (f' & Hf & E).
      exists f'. split; [cbn [List.length]; lia|exact E].
    + destruct (IH (stepLeaf s chunkSize st x) rest fuel Hp ltac:(lia))
        as (f' & Hf & E).
      exists f'. split; [cbn [List.length]; lia|exact E].
Qed.

(** ** The layout of the chunks *)

Lemma chain_last {A} (R : A -> A -> Prop) a a' : forall l,
  chain R (l ++ [a]) -> (forall b, R b a -> R b a') -> chain R (l ++ [a']).
Proof.
  induction l as [|b l IH]; intros H HR; [exact I|].
  destruct l as [|c l].
  - cbn in *. split; [apply HR; tauto|exact I].
  - cbn [app chain] in *. destruct H as [H1 H2]. split; [exact H1|].
    apply IH; assumption.
Qed.

Lemma chain_last_rel {A} (R : A -> A -> Prop) a b : forall l,
  chain R (l ++ [a; b]) -> R a b.
Proof.
  induction l as [|c l IH]; intros H.
  - cbn in H. tauto.
  - apply IH. destruct l as [|c' l]; cbn [app chain] in *; tauto.
Qed.

Lemma firstFresh_app {A B} (l m : list (list A * B)) :
  firstFresh l -> l <> [] -> firstFresh (l ++ m).
Proof. destruct l; [congruence|]. cbn. auto. Qed.

Lemma stepLeaf_fits st x :
  newChunk st = false -> curChunkLen st + tokenSize x <= chunkSize ->
  chunks (stepLeaf s chunkSize st x) = chunks st.
Proof.
  intros N Fit. unfold stepLeaf.
  assert (T : (curChunkLen st + tokenSize x >? chunkSize) = false)
    by (apply gtb_false; lia).
  rewrite T, N. cbn [andb]. rewrite N. cbn [andb]. reflexivity.
Qed.

Lemma layInv_first st x :
  curChunkLen st = sumLen (curChunk st) ->
  newChunk st = true -> chunks st = [] -> curChunk st = [] ->
  tokenSize x <= chunkSize ->
  layInv s chunkSize (stepLeaf s chunkSize st x) [itemOf x].
Proof.
  intros I1 N C0 K0 Hx.
  destruct (stepLeaf_shape s chunkSize st x I1 Hx)
    as (kept & S1 & S2 & S3 & S4 & S5).
  destruct S5 as [(N' & _)|(C & dr & HD & _)]; [congruence|].
  rewrite K0 in HD. symmetry in HD. apply app_eq_nil in HD as [_ ->].
  cbn [app] in *.
  unfold layInv. split_ands.
  - rewrite S2, S1. reflexivity.
  - rewrite S4. discriminate.
  - intros _. exists [], [], [itemOf x]. split_ands.
    + rewrite C, C0. reflexivity.
    + exact S1.
    + unfold mergeLayout. cbn. split_ands; auto.
      constructor; [|constructor]. cbn. split; [discriminate|lia].
Qed.

Lemma layInv_step st done x :
  layInv s chunkSize st done -> tokenSize x <= chunkSize ->
  layInv s chunkSize (stepLeaf s chunkSize st x) (done ++ [itemOf x]).
Proof.
  intros (I1 & I2 & I3) Hx.
  destruct (newChunk st) eqn:N.
  - destruct (I2 eq_refl) as (C0 & K0 & ->). cbn [app].
    apply layInv_first; assumption.
  - destruct (I3 eq_refl) as (pairs & curO & curN & E1 & E2 & L1 & L2 & L3 & L4).
    destruct (stepLeaf_shape s chunkSize st x I1 Hx)
      as (kept & S1 & S2 & S3 & S4 & S5).
    assert (Plast : snd (curO, curN) <> [] /\
                    sumLen (groupOf (curO, curN)) <= chunkSize).
    { rewrite Forall_forall in L3. apply L3. apply in_or_app. right.
      left. reflexivity. }
    destruct Plast as [Pn Ps]. unfold groupOf in Pn, Ps. cbn [snd fst] in Pn, Ps.
    unfold layInv. split_ands.
    + rewrite S2, S1. reflexivity.
    + rewrite S4. discriminate.
    + intros _. destruct S5 as [(_ & C & K)|(C & dr & HD & HN)].
      * assert (G : curChunkLen st + tokenSize x > chunkSize).
        { destruct (Z_le_gt_dec (curChunkLen st + tokenSize x) chunkSize)
            as [Fit|G]; [|exact G].
          rewrite (stepLeaf_fits st x N Fit) in C.
          apply (f_equal (@List.length _)) in C.
          rewrite length_app in C. cbn in C. lia. }
        exists (pairs ++ [(curO, curN)]), kept, [itemOf x]. split_ands.
        -- rewrite C, E1, map_app. cbn [map]. unfold chunkOf at 3.
           unfold groupOf. cbn [fst snd]. rewrite E2. reflexivity.
        -- exact S1.
        -- unfold mergeLayout. split_ands.
           ++ rewrite map_app, concat_app. cbn [map concat snd].
              rewrite app_nil_r, L1. reflexivity.
           ++ apply firstFresh_app; [exact L2|].
              intros Z. apply app_eq_nil in Z as [_ Z]. discriminate.
           ++ apply Forall_app. split; [exact L3|].
              constructor; [|constructor]. unfold groupOf. cbn [fst snd].
              split; [discriminate|].
              rewrite sumLen_app. cbn [sumLen itemOf item_len]. lia.
           ++ apply chain_snoc; [exact L4|].
              exists (itemOf x), []. unfold groupOf. cbn [fst snd]. split_ands.
              ** reflexivity.
              ** rewrite <- E2, <- I1. cbn [itemOf item_len]. lia.
              ** rewrite <- E2. exact K.
      * specialize (HN N). subst dr. cbn [app] in HD.
        exists pairs, curO, (curN ++ [itemOf x]). split_ands.
        -- rewrite C. exact E1.
        -- rewrite S1, <- HD, E2, app_assoc. reflexivity.
        -- unfold mergeLayout. split_ands.
           ++ rewrite map_app, concat_app in *. cbn [map concat snd] in *.
              rewrite app_nil_r in *. rewrite app_assoc, L1. reflexivity.
           ++ destruct pairs; [exact L2|exact L2].
           ++ apply Forall_app in L3 as [L3 _].
              apply Forall_app. split; [exact L3|].
              constructor; [|constructor]. unfold groupOf. cbn [fst snd].
              split.
              ** intros Z. apply app_eq_nil in Z as [_ Z]. discriminate.
              ** rewrite app_assoc, <- E2, sumLen_app.
                 cbn [sumLen itemOf item_len].
                 rewrite HD. lia.
           ++ apply (chain_last _ (curO, curN)); [exact L4|].
              intros b (x0 & R & F1 & F2 & F3). cbn [fst snd] in *.
              exists x0, (R ++ [itemOf x]). cbn [fst snd]. split_ands.
              ** rewrite F1. reflexivity.
              ** exact F2.
              ** exact F3.
Qed.

Lemma layInv_fold : forall rest st done,
  layInv s chunkSize st done ->
  Forall (fun sp => tokenSize sp <= chunkSize) rest ->
  layInv s chunkSize (fold_left (stepLeaf s chunkSize) rest st)
         (done ++ map itemOf rest).
Proof.
  induction rest as [|x rest IH]; intros st done I F.
  - cbn. rewrite app_nil_r. exact I.
  - inversion_clear F as [|? ? Hx Hr]. cbn [fold_left map].
    replace (done ++ itemOf x :: map itemOf rest)
      with ((done ++ [itemOf x]) ++ map itemOf rest)
      by (rewrite <- app_assoc; reflexivity).
    apply IH; [|exact Hr]. apply layInv_step; assumption.
Qed.

(** The chunks of [merge] are laid out over the leaves. *)
Lemma merge_layout fuel splits out :
  merge fuel s splits chunkSize = Ok out ->
  exists pairs,
    out = map chunkOf pairs /\
    mergeLayout s chunkSize (map itemOf splits) pairs.
Proof.
  intros E. apply merge_Ok in E as [F ->].
  assert (I0 : layInv s chunkSize mergeInit []).
  { unfold layInv, mergeInit. cbn. split_ands; auto. discriminate. }
  pose proof (layInv_fold splits mergeInit [] I0 F) as I. cbn [app] in I.
  destruct I as (_ & I2 & I3).
  destruct (newChunk _) eqn:N; cbn [negb].
  - destruct (I2 eq_refl) as (C0 & _ & D0).
    exists []. rewrite C0, D0. unfold mergeLayout. cbn.
    split_ands; auto.
  - destruct (I3 eq_refl) as (pairs & curO & curN & E1 & E2 & L).
    exists (pairs ++ [(curO, curN)]). split; [|exact L].
    rewrite map_app, E1. cbn [map]. unfold chunkOf at 2, groupOf.
    cbn [fst snd]. rewrite E2. reflexivity.
Qed.

(** What a chunk inherits comes from the chunk before. *)
Lemma follows_carries p p' : follows s chunkSize p p' -> carries p p'.
Proof. intros (x & R & _ & _ & (P & _)). exact P. Qed.

Lemma chain_impl {A} (R R' : A -> A -> Prop) :
  (forall a b, R a b -> R' a b) -> forall l, chain R l -> chain R' l.
Proof.
  intros H. induction l as [|a l IH]; intros C; [exact I|].
  destruct l as [|b l]; [exact I|].
  destruct C as [C1 C2]. split; [apply H; exact C1|apply IH; exact C2].
Qed.

(** ** No overlap *)

Lemma overlapOf_nil G :
  Forall (fun it => item_len it > ChunkOverlap s) G -> overlapOf s G = [].
Proof.
  intros F. unfold overlapOf.
  destruct (rev G) as [|it more] eqn:R; [reflexivity|].
  cbn [overlapLoop].
  assert (H : item_len it > ChunkOverlap s).
  { rewrite Forall_forall in F. apply F. apply in_rev. rewrite R. left. reflexivity. }
  destruct (0 + item_len it <=? ChunkOverlap s) eqn:T; [|reflexivity].
  apply Z.leb_le in T. lia.
Qed.

Lemma partInv_step st done x :
  partInv s st done ->
  tokenSize x <= chunkSize -> tokenSize x > ChunkOverlap s ->
  partInv s (stepLeaf s chunkSize st x) (done ++ text x).
Proof.
  intros (I1 & I2 & I3 & I4) Hx Ho. unfold stepLeaf.
  destruct ((curChunkLen st + tokenSize x >? chunkSize) && negb (newChunk st))
    eqn:C.
  - destruct (closeChunk_fields s st) as (F1 & F2 & F3).
    pose proof (closeChunk_newChunk s st) as N.
    remember (closeChunk s st) as st0.
    rewrite (overlapOf_nil _ I2) in F2. rewrite F2 in *. cbn [sumLen] in F1.
    rewrite N, F1, F3.
    assert (R : (if true && (0 + tokenSize x >? chunkSize)
                 then evict chunkSize (tokenSize x) [] 0 else ([], 0)) = ([], 0))
      by (destruct (true && _); reflexivity).
    rewrite R. unfold partInv. cbn. split_ands.
    + lia.
    + constructor; [cbn; lia|constructor].
    + discriminate.
    + rewrite concat_app. cbn. rewrite !app_nil_r, <- I4. reflexivity.
  - destruct (newChunk st) eqn:N.
    + specialize (I3 eq_refl). rewrite I3 in *. cbn [sumLen] in I1.
      rewrite I1.
      assert (R : (if true && (0 + tokenSize x >? chunkSize)
                   then evict chunkSize (tokenSize x) [] 0 else ([], 0)) = ([], 0))
        by (destruct (true && _); reflexivity).
      rewrite R. unfold partInv. cbn. split_ands.
      * lia.
      * constructor; [cbn; lia|constructor].
      * discriminate.
      * rewrite <- I4. unfold joinItems. cbn. rewrite !app_nil_r. reflexivity.
    + cbn [andb]. unfold partInv. cbn. split_ands.
      * rewrite sumLen_app. cbn. lia.
      * apply Forall_app. split; [exact I2|].
        constructor; [cbn; lia|constructor].
      * discriminate.
      * unfold joinItems in *. rewrite map_app, concat_app, <- I4.
        cbn. rewrite app_nil_r, app_assoc. reflexivity.
Qed.

Lemma partInv_fold : forall rest st done,
  partInv s st done ->
  Forall (fun sp => tokenSize sp <= chunkSize /\
                    tokenSize sp > ChunkOverlap s) rest ->
  partInv s (fold_left (stepLeaf s chunkSize) rest st)
          (done ++ concat (map text rest)).
Proof.
  induction rest as [|x rest IH]; intros st done I F.
  - cbn. rewrite app_nil_r. exact I.
  - inversion_clear F as [|? ? [Hx Ho] Hr]. cbn [fold_left map concat].
    rewrite app_assoc. apply IH; [|exact Hr]. apply partInv_step; assumption.
Qed.
End MergeMore.

(* ================================================================== *)
(** * More on white space                                               *)
(* ================================================================== *)

Lemma fieldsLoop_nil_spaces : forall segs,
  fieldsLoop None segs = [] -> forallb unicode_IsSpace (map fst segs) = true.
Proof.
  induction segs as [|[r b] segs IH]; intros E; [reflexivity|].
  cbn [fieldsLoop] in E. cbn [map forallb fst].
  destruct (unicode_IsSpace r); [cbn; auto|].
  pose proof (countFields_Some_pos segs b) as P. unfold countFields in P.
  rewrite E in P. cbn in P. lia.
Qed.

Lemma segments_space_cons u rest :
  u <> [] -> startsClean rest ->
  snd (DecodeRune u) = List.length u ->
  segments (u ++ rest) = (fst (DecodeRune u), u) :: segments rest.
Proof.
  intros Hu Hc Hw. destruct u as [|c u]; [congruence|].
  pose proof (DecodeRune_app_clean (c :: u) rest ltac:(discriminate) Hc) as E.
  change ((c :: u) ++ rest) with (c :: (u ++ rest)) in *.
  rewrite segments_unfold, E, Hw.
  change (c :: u ++ rest) with ((c :: u) ++ rest).
  rewrite firstn_app, skipn_app, Nat.sub_diag, firstn_all, skipn_all.
  cbn [firstn skipn app]. rewrite app_nil_r. reflexivity.
Qed.

(** The backward scan again: what it passes over is white space. *)
Lemma lastIndexNonSpace_tail s : forall fuel i,
  (i < fuel)%nat -> (i <= List.length s)%nat ->
  startsClean (skipn i s) -> whitespaceOnly (skipn i s) = true ->
  let j := lastIndexNonSpace fuel s (Z.of_nat i) in
  (j = -1 /\ whitespaceOnly s = true) \/
  (exists j' i',
      j = Z.of_nat j' /\ (j' < i' <= List.length s)%nat /\
      startsClean (skipn i' s) /\ whitespaceOnly (skipn i' s) = true /\
      snd (DecodeRune (skipn j' (firstn i' s))) = (i' - j')%nat /\
      unicode_IsSpace (fst (DecodeLastRune (firstn i' s))) = false).
Proof.
  induction fuel as [|fuel IH]; intros i Hf Hi Hc Hw; [lia|].
  cbv zeta. cbn [lastIndexNonSpace].
  destruct (Z.of_nat i >? 0) eqn:P.
  - apply gtb_true in P. rewrite Nat2Z.id.
    assert (NE : firstn i s <> []).
    { intros E. apply (f_equal (@List.length _)) in E.
      rewrite length_firstn in E. cbn in E. lia. }
    assert (Lf : List.length (firstn i s) = i) by (rewrite length_firstn; lia).
    destruct (DecodeLastRune_spec (firstn i s) NE) as (S1 & S2 & S3).
    destruct (DecodeLastRune (firstn i s)) as [r size] eqn:DL.
    cbn [fst snd] in *.
    rewrite Lf in *.
    replace (Z.of_nat i - Z.of_nat size) with (Z.of_nat (i - size)) by lia.
    destruct (unicode_IsSpace r) eqn:Sp; cbn [negb].
    + destruct S3 as [->|S3]; [discriminate|].
      assert (Lu : List.length (skipn (i - size) (firstn i s)) = size)
        by (rewrite length_skipn, Lf; lia).
      assert (Nu : skipn (i - size) (firstn i s) <> []).
      { intros E. rewrite E in Lu. cbn in Lu. lia. }
      apply IH; [lia|lia| |].
      * rewrite (skipn_firstn_app s (i - size) i) by lia.
        apply space_head_clean; [rewrite S3; exact Sp|exact Nu].
      * rewrite (skipn_firstn_app s (i - size) i) by lia.
        unfold whitespaceOnly, runes.
        rewrite segments_space_cons; [|exact Nu|exact Hc|rewrite S2, Lu; reflexivity].
        cbn [map fst forallb]. rewrite S3, Sp. exact Hw.
    + right. exists (i - size)%nat, i.
      split_ands; auto; try lia; try (rewrite S2; lia).
      rewrite DL. exact Sp.
  - left. apply gtb_false in P. assert (i = 0%nat) by lia. subst i.
    split; [reflexivity|exact Hw].
Qed.

(** What trimming on the right removes is white space. *)
Lemma TrimRight_tail s :
  exists q, s = strings_TrimRight s ++ q /\ startsClean q /\
            whitespaceOnly q = true /\
            (strings_TrimRight s <> [] ->
             unicode_IsSpace (fst (DecodeLastRune (strings_TrimRight s))) = false).
Proof.
  unfold strings_TrimRight.
  assert (Hc : startsClean (skipn (List.length s) s))
    by (rewrite skipn_all; exact I).
  assert (Hw : whitespaceOnly (skipn (List.length s) s) = true)
    by (rewrite skipn_all; reflexivity).
  destruct (lastIndexNonSpace_tail s (S (List.length s)) (List.length s)
              ltac:(lia) ltac:(lia) Hc Hw)
    as [[E W]|(j & i & E & Hji & C & W & Wd & Ns)]; cbv zeta in E; fold (len s) in E;
    rewrite E.
  - cbn. exists s. split_ands; [reflexivity| |exact W|congruence].
    destruct s as [|c t]; [exact I|]. cbn.
    destruct (contByte c) eqn:Cc; [|reflexivity].
    unfold whitespaceOnly, runes in W. rewrite segments_unfold in W.
    rewrite (DecodeRune_cont c t Cc) in W. discriminate.
  - assert (P : (0 <=? Z.of_nat j) = true) by (apply Z.leb_le; lia).
    rewrite P, Nat2Z.id. cbn [andb].
    assert (NE : skipn j (firstn i s) <> []).
    { intros E'. apply (f_equal (@List.length _)) in E'.
      rewrite length_skipn, length_firstn in E'. cbn in E'. lia. }
    assert (Hd : skipn j s = skipn j (firstn i s) ++ skipn i s)
      by (apply skipn_firstn_app; lia).
    assert (Wf : snd (DecodeRune (skipn j s)) = (i - j)%nat).
    { rewrite Hd, DecodeRune_app_clean by assumption. exact Wd. }
    assert (Res : forall k, k = Z.of_nat i ->
              exists q, s = firstn (Z.to_nat k) s ++ q /\ startsClean q /\
                        whitespaceOnly q = true /\
                        (firstn (Z.to_nat k) s <> [] ->
                         unicode_IsSpace
                           (fst (DecodeLastRune (firstn (Z.to_nat k) s))) = false)).
    { intros k ->. rewrite Nat2Z.id. exists (skipn i s).
      split_ands; [symmetry; apply firstn_skipn|exact C|exact W|].
      intros _. exact Ns. }
    destruct (RuneSelf <=? byteAt s j) eqn:B.
    + apply Res. rewrite Wf. lia.
    + apply Res. apply Z.leb_gt in B. unfold RuneSelf in B.
      assert (i - j = 1)%nat; [|lia].
      rewrite <- Wf.
      destruct (skipn j s) as [|h t] eqn:Sk.
      { rewrite Hd in NE. destruct (skipn j (firstn i s)); [congruence|discriminate]. }
      assert (Hh : byteAt s j = byteZ h).
      { unfold byteAt. rewrite <- (firstn_skipn j s), Sk.
        rewrite app_nth2; rewrite length_firstn; [|lia].
        replace (j - Nat.min j (List.length s))%nat with 0%nat by lia.
        reflexivity. }
      rewrite (DecodeRune_ascii h t ltac:(lia)). reflexivity.
Qed.

(** Trimming does not change the number of fields. *)
Lemma Fields_TrimSpace a :
  len (strings_Fields (strings_TrimSpace a)) = len (strings_Fields a).
Proof.
  unfold strings_Fields, strings_TrimSpace.
  destruct (TrimRight_tail (strings_TrimLeft a)) as (q & E & C & W & _).
  change (countFields None (segments (strings_TrimRight (strings_TrimLeft a)))
          = countFields None (segments a)).
  rewrite <- (countFields_dropSpaces (segments a)), <- segments_TrimLeft.
  rewrite E at 2.
  rewrite (segments_app_clean _ _ q (Nat.le_refl _) C).
  pose proof (countFields_app (segments (strings_TrimRight (strings_TrimLeft a)))
                None (segments q)) as (P1 & P2 & _).
  assert (Z0 : countFields None (segments q) = 0).
  { unfold countFields. fold (strings_Fields q).
    rewrite (Fields_whitespaceOnly q W). reflexivity. }
  lia.
Qed.

Lemma dropSpaces_head segs r b more :
  dropSpaces segs = (r, b) :: more -> unicode_IsSpace r = false.
Proof.
  induction segs as [|[r0 b0] segs IH]; cbn [dropSpaces]; [discriminate|].
  destruct (unicode_IsSpace r0) eqn:E; [exact IH|].
  intros H. inversion H; subst. exact E.
Qed.

(** A trimmed string does not begin with white space. *)
Lemma TrimSpace_head a :
  strings_TrimSpace a <> [] ->
  unicode_IsSpace (fst (DecodeRune (strings_TrimSpace a))) = false.
Proof.
  intros NE. unfold strings_TrimSpace in *.
  destruct (TrimRight_split (strings_TrimLeft a)) as (q & E & C).
  pose proof (segments_TrimLeft a) as S. rewrite E in S.
  set (p := strings_TrimRight (strings_TrimLeft a)) in *.
  pose proof (DecodeRune_app_clean p q NE C) as D.
  destruct p as [|c p'] eqn:Hp; [congruence|].
  change ((c :: p') ++ q) with (c :: (p' ++ q)) in *.
  rewrite segments_unfold in S. rewrite D in S.
  symmetry in S. apply dropSpaces_head in S. exact S.
Qed.

(** Nor does it end with white space. *)
Lemma TrimSpace_last a :
  strings_TrimSpace a <> [] ->
  unicode_IsSpace (fst (DecodeLastRune (strings_TrimSpace a))) = false.
Proof.
  intros NE. unfold strings_TrimSpace in *.
  destruct (TrimRight_tail (strings_TrimLeft a)) as (_ & _ & _ & _ & H).
  exact (H NE).
Qed.

(* ================================================================== *)
(** * The paragraph chunker: what the packing loops do                  *)
(* ================================================================== *)

Section ParagraphMore.
Import Paragraph ParagraphNotions.
Variable s : ParagraphSplitter.

Lemma accurate_append (st : packState) (p : gostring) :
  accurate s st ->
  accurate s {| chunks := chunks st;
                currentChunk := currentChunk st ++ [p];
                currentSize := (if len (currentChunk st) >? 0
                                then currentSize st + len (Separator s)
                                else currentSize st) + len p |}.
Proof.
  unfold accurate. cbn. intros A.
  destruct (currentChunk st) as [|a l] eqn:E.
  - cbn in *. lia.
  - assert (N : a :: l <> []) by discriminate.
    rewrite (proj2 (len_pos_nonempty (a :: l)) N).
    rewrite Join_snoc by exact N. rewrite !len_app. lia.
Qed.

Lemma addSubPart_step (st : packState) (u : gostring) :
  accurate s st -> packStep s st u (addSubPart s st u).
Proof.
  intros A. unfold addSubPart, packStep. pose proof A as A'.
  unfold accurate in A'.
  destruct (currentSize st + len u + len (Separator s) >? MaxChunkSize s) eqn:T.
  - apply gtb_true in T.
    destruct (len (currentChunk st) >? 0) eqn:N.
    + apply len_pos_nonempty in N.
      destruct (len (lastPara (currentChunk st)) + len u + len (Separator s)
                >? MaxChunkSize s) eqn:O.
      * apply gtb_true in O. cbn. split.
        -- unfold accurate. reflexivity.
        -- right. split_ands; auto; try lia;
             try (left; split; [reflexivity|lia]).
      * apply gtb_false in O. cbn. split.
        -- unfold accurate. cbn. rewrite !len_app. lia.
        -- right. split_ands; auto; try lia;
             try (right; split; [reflexivity|lia]).
    + apply len_pos_empty in N. cbn. split.
      * unfold accurate. reflexivity.
      * left. rewrite N. split_ands; auto.
  - apply gtb_false in T. split.
    + apply accurate_append. exact A.
    + left. split_ands; try reflexivity. right. cbn. lia.
Qed.

Lemma addNormal_step (st : packState) (p : gostring) :
  accurate s st -> len p <= MaxChunkSize s ->
  packStep s st p (addParagraph s st p).
Proof.
  intros A L. unfold addParagraph, packStep. pose proof A as A'.
  unfold accurate in A'.
  assert (B : (len p >? MaxChunkSize s) = false) by (apply gtb_false; lia).
  rewrite B.
  destruct (len (currentChunk st) >? 0) eqn:N.
  - pose proof N as N'. apply len_pos_nonempty in N'.
    destruct (currentSize st + (len p + len (Separator s)) >? MaxChunkSize s) eqn:T.
    + apply gtb_true in T.
      destruct (len (lastPara (currentChunk st)) + len (Separator s) + len p
                >? MaxChunkSize s) eqn:O.
      * apply gtb_true in O. cbn. split.
        -- unfold accurate. reflexivity.
        -- right. split_ands; auto; try lia;
             try (left; split; [reflexivity|lia]).
      * apply gtb_false in O. cbn. split.
        -- unfold accurate. cbn. rewrite !len_app. lia.
        -- right. split_ands; auto; try lia;
             try (right; split; [reflexivity|lia]).
    + apply gtb_false in T. split.
      * pose proof (accurate_append st p A) as AA. rewrite N in AA.
        unfold accurate in *. cbn in *. rewrite <- AA. lia.
      * left. split_ands; try reflexivity. right. cbn. lia.
  - pose proof N as N'. apply len_pos_empty in N'.
    rewrite N' in A'. cbn in A'.
    destruct (currentSize st + len p >? MaxChunkSize s) eqn:T.
    + apply gtb_true in T. lia.
    + split.
      * unfold accurate. cbn. rewrite N'. cbn. lia.
      * left. split_ands; auto.
Qed.

Lemma preFlush_accurate (st : packState) :
  accurate s st -> accurate s (preFlush s st).
Proof.
  intros A. unfold preFlush.
  destruct (len (currentChunk st) >? 0); [|exact A].
  unfold accurate. reflexivity.
Qed.

Lemma addParagraph_oversized (st : packState) (p : gostring) :
  len p > MaxChunkSize s ->
  addParagraph s st p
  = fold_left (addSubPart s) (splitOversizedParagraph s p) (preFlush s st).
Proof.
  intros L. unfold addParagraph, preFlush.
  assert (B : (len p >? MaxChunkSize s) = true) by (apply gtb_true; lia).
  rewrite B. reflexivity.
Qed.

(** ** An induction principle for the two loops *)

Section Packing.
Variable Inv : packState -> list gostring -> Prop.
Variable Q : gostring -> Prop.
Hypothesis Hstep : forall st d u st',
  accurate s st -> Inv st d -> Q u -> packStep s st u st' ->
  Inv st' (d ++ [u]).
Hypothesis Hflush : forall st d,
  accurate s st -> Inv st d -> Inv (preFlush s st) d.

Lemma subParts_ind : forall parts st d,
  accurate s st -> Inv st d -> Forall Q parts ->
  accurate s (fold_left (addSubPart s) parts st) /\
  Inv (fold_left (addSubPart s) parts st) (d ++ parts).
Proof.
  induction parts as [|u parts IH]; intros st d A I F.
  - rewrite app_nil_r. split; assumption.
  - inversion_clear F. cbn [fold_left].
    pose proof (addSubPart_step st u A) as P.
    replace (d ++ u :: parts) with ((d ++ [u]) ++ parts)
      by (rewrite <- app_assoc; reflexivity).
    apply IH; [exact (proj1 P) | | assumption].
    eapply Hstep; eassumption.
Qed.

Lemma paragraphs_ind : forall paragraphs st d,
  accurate s st -> Inv st d -> Forall Q (units s paragraphs) ->
  accurate s (fold_left (addParagraph s) paragraphs st) /\
  Inv (fold_left (addParagraph s) paragraphs st) (d ++ units s paragraphs).
Proof.
  induction paragraphs as [|p paragraphs IH]; intros st d A I F.
  - cbn. rewrite app_nil_r. split; assumption.
  - cbn [fold_left]. unfold units in *. cbn [flat_map] in *.
    apply Forall_app in F as [F1 F2].
    rewrite app_assoc.
    destruct (len p >? MaxChunkSize s) eqn:B.
    + apply gtb_true in B. rewrite addParagraph_oversized by lia.
      destruct (subParts_ind (splitOversizedParagraph s p) (preFlush s st) d)
        as (A' & I'); auto using preFlush_accurate.
    + apply gtb_false in B.
      pose proof (addNormal_step st p A B) as P.
      inversion_clear F1.
      apply IH; [exact (proj1 P) | | assumption].
      eapply Hstep; eassumption.
Qed.
End Packing.

(** ** Units *)

Lemma stringOfRunes_nonempty rs : rs <> [] -> stringOfRunes rs <> [].
Proof.
  destruct rs as [|r rs]; [congruence|]. intros _.
  rewrite stringOfRunes_cons. pose proof (EncodeRune_len r) as L.
  destruct (EncodeRune r); [cbn in L; lia|discriminate].
Qed.

Lemma piecesGood_nonempty maxSize : forall pieces,
  piecesGood maxSize pieces -> Forall (fun piece => piece <> []) pieces.
Proof.
  induction pieces as [|p pieces IH]; intros G; [constructor|].
  destruct G as [(G0 & _) G2]. constructor; auto.
Qed.

Lemma runes_nonempty p : p <> [] -> runes p <> [].
Proof.
  intros H E. unfold runes in E. apply map_eq_nil in E.
  apply segments_nil_inv in E. congruence.
Qed.

(** The pieces of a paragraph are never empty, and a paragraph that is
    not empty has at least one. *)
Lemma splitOversizedParagraph_nonempty p :
  Forall (fun subP => subP <> []) (splitOversizedParagraph s p) /\
  (p <> [] -> splitOversizedParagraph s p <> []).
Proof.
  unfold splitOversizedParagraph.
  destruct (oversizedLoop_spec s (List.length (runes p)) (runes p) (Nat.le_refl _))
    as (C & G).
  split.
  - apply Forall_map. apply piecesGood_nonempty in G.
    eapply Forall_impl; [|exact G]. cbv beta. intros a.
    apply stringOfRunes_nonempty.
  - intros H E. apply map_eq_nil in E. rewrite E in C. cbn in C.
    symmetry in C. revert C. apply runes_nonempty. exact H.
Qed.

Lemma keepParagraphs_nonempty : forall raw,
  Forall (fun p => p <> []) (keepParagraphs raw).
Proof.
  induction raw as [|p raw IH]; [constructor|].
  cbn [keepParagraphs].
  destruct (isEmpty (strings_TrimSpace p)) eqn:E; [exact IH|].
  constructor; [|exact IH]. intros Z. rewrite Z in E. discriminate.
Qed.

Lemma units_nonempty : forall paragraphs,
  Forall (fun p => p <> []) paragraphs ->
  Forall (fun u => u <> []) (units s paragraphs) /\
  (paragraphs <> [] -> units s paragraphs <> []).
Proof.
  induction paragraphs as [|p paragraphs IH]; intros F.
  - split; [constructor|congruence].
  - inversion_clear F. destruct (IH H0) as (I1 & I2).
    unfold units in *. cbn [flat_map].
    destruct (splitOversizedParagraph_nonempty p) as (S1 & S2).
    split.
    + apply Forall_app. split; [|exact I1].
      destruct (len p >? MaxChunkSize s); [exact S1|].
      constructor; [assumption|constructor].
    + intros _ E. apply app_eq_nil in E as [E _].
      destruct (len p >? MaxChunkSize s); [|discriminate].
      exact (S2 H E).
Qed.

Lemma paragraphsOf_nil : paragraphsOf s [] = [].
Proof.
  unfold paragraphsOf, strings_Split.
  destruct (Separator s); [reflexivity|].
  reflexivity.
Qed.

(** [SplitText] in terms of its loop, for a text with a paragraph. *)
Lemma SplitText_unfold text :
  paragraphsOf s text <> [] ->
  SplitText s text =
    let st := fold_left (addParagraph s) (paragraphsOf s text)
                {| chunks := []; currentChunk := []; currentSize := 0 |} in
    if len (currentChunk st) >? 0
    then chunks st ++ [strings_Join (currentChunk st) (Separator s)]
    else chunks st.
Proof.
  intros H. unfold SplitText.
  destruct text as [|c text]; [rewrite paragraphsOf_nil in H; congruence|].
  cbn [isEmpty]. fold (paragraphsOf s (c :: text)).
  destruct (len (paragraphsOf s (c :: text)) =? 0) eqn:E; [|reflexivity].
  apply Z.eqb_eq in E. exfalso. apply H. apply len_pos_empty.
  apply gtb_false. lia.
Qed.

Lemma SplitText_no_paragraph text :
  paragraphsOf s text = [] -> SplitText s text = [].
Proof.
  intros H. unfold SplitText. destruct (isEmpty text); [reflexivity|].
  fold (paragraphsOf s text). rewrite H. reflexivity.
Qed.

(** ** No empty chunk *)

Lemma Join_nonempty sep : forall l,
  l <> [] -> Forall (fun p => p <> []) l -> strings_Join l sep <> [].
Proof.
  intros [|a l] H F; [congruence|]. inversion_clear F.
  destruct l as [|b l]; [exact H0|].
  change (strings_Join (a :: b :: l) sep)
    with (a ++ sep ++ strings_Join (b :: l) sep).
  destruct a; [congruence|discriminate].
Qed.

Lemma lastPara_In : forall l, l <> [] -> In (lastPara l) l.
Proof.
  unfold lastPara. induction l as [|a l IH]; intros H; [congruence|].
  destruct l as [|b l]; [left; reflexivity|].
  right. apply IH. discriminate.
Qed.

Lemma nonEmptyInv_step st d u st' :
  accurate s st -> nonEmptyInv st d -> u <> [] -> packStep s st u st' ->
  nonEmptyInv st' (d ++ [u]).
Proof.
  intros _ (I1 & I2 & I3) U (_ & [(P1 & P2 & _)|(N & _ & P1 & P2)]).
  - unfold nonEmptyInv. rewrite P1, P2. split_ands; auto.
    + apply Forall_app. split; [exact I1|]. constructor; [exact U|constructor].
    + intros _ E. apply app_eq_nil in E as [_ E]. discriminate.
  - assert (LP : lastPara (currentChunk st) <> []).
    { rewrite Forall_forall in I1. apply I1. apply lastPara_In. exact N. }
    unfold nonEmptyInv. rewrite P1.
    assert (F : Forall (fun c => c <> [])
                  (chunks st ++ [strings_Join (currentChunk st) (Separator s)])).
    { apply Forall_app. split; [exact I2|].
      constructor; [|constructor]. apply Join_nonempty; assumption. }
    destruct P2 as [(-> & _)|(-> & _)]; split_ands; auto; try discriminate.
Qed.

Lemma nonEmptyInv_flush st d :
  accurate s st -> nonEmptyInv st d -> nonEmptyInv (preFlush s st) d.
Proof.
  intros _ (I1 & I2 & I3). unfold preFlush.
  destruct (len (currentChunk st) >? 0) eqn:N;
    [|unfold nonEmptyInv; split_ands; assumption].
  apply len_pos_nonempty in N.
  assert (LP : lastPara (currentChunk st) <> []).
  { rewrite Forall_forall in I1. apply I1. apply lastPara_In. exact N. }
  unfold nonEmptyInv. cbn. split_ands; auto; try discriminate.
  apply Forall_app. split; [exact I2|].
  constructor; [|constructor]. apply Join_nonempty; assumption.
Qed.

Lemma accurate_init :
  accurate s {| chunks := []; currentChunk := []; currentSize := 0 |}.
Proof. reflexivity. Qed.

Lemma SplitText_nonempty_chunks text :
  Forall (fun c => c <> []) (SplitText s text) /\
  (SplitText s text = [] <-> paragraphsOf s text = []).
Proof.
  destruct (paragraphsOf s text) as [|p0 ps0] eqn:E.
  - rewrite (SplitText_no_paragraph _ E). split; [constructor|tauto].
  - assert (NE : paragraphsOf s text <> []) by (rewrite E; discriminate).
    rewrite (SplitText_unfold _ NE). cbv zeta.
    destruct (units_nonempty (paragraphsOf s text)) as (U1 & U2).
    { apply keepParagraphs_nonempty. }
    destruct (paragraphs_ind nonEmptyInv (fun u => u <> [])
                nonEmptyInv_step nonEmptyInv_flush (paragraphsOf s text)
                {| chunks := []; currentChunk := []; currentSize := 0 |} [])
      as (A & I1 & I2 & I3); auto using accurate_init.
    { unfold nonEmptyInv. cbn. split_ands; auto. }
    rewrite <- E.
    set (st := fold_left _ _ _) in *.
    specialize (I3 (U2 NE)).
    rewrite (proj2 (len_pos_nonempty _) I3). split.
    + apply Forall_app. split; [exact I2|].
      constructor; [|constructor]. apply Join_nonempty; assumption.
    + split; [|congruence]. intros Z. apply app_eq_nil in Z as [_ Z].
      discriminate.
Qed.

(** ** The same induction over the marked units *)

Lemma tagFirst_snd parts : map snd (tagFirst parts) = parts.
Proof.
  destruct parts as [|u rest]; [reflexivity|]. cbn [tagFirst map snd].
  f_equal. rewrite map_map. cbn. apply map_id.
Qed.

Lemma taggedUnits_units : forall paragraphs,
  map snd (taggedUnits s paragraphs) = units s paragraphs.
Proof.
  induction paragraphs as [|p paragraphs IH]; [reflexivity|].
  unfold taggedUnits, units in *. cbn [flat_map]. rewrite map_app, IH.
  f_equal. destruct (len p >? MaxChunkSize s); [apply tagFirst_snd|reflexivity].
Qed.

Section Packing2.
Variable Inv : bool -> packState -> list (bool * gostring) -> Prop.
Hypothesis Hstep : forall b st d u st',
  accurate s st -> Inv b st d -> packStep s st u st' ->
  Inv false st' (d ++ [(b, u)]).
Hypothesis Hflush : forall st d,
  accurate s st -> Inv false st d -> Inv true (preFlush s st) d.

Lemma subParts_rest : forall parts st d,
  accurate s st -> Inv false st d ->
  accurate s (fold_left (addSubPart s) parts st) /\
  Inv false (fold_left (addSubPart s) parts st)
      (d ++ map (pair false) parts).
Proof.
  induction parts as [|u parts IH]; intros st d A I.
  - cbn. rewrite app_nil_r. split; assumption.
  - cbn [fold_left map].
    pose proof (addSubPart_step st u A) as P.
    replace (d ++ (false, u) :: map (pair false) parts)
      with ((d ++ [(false, u)]) ++ map (pair false) parts)
      by (rewrite <- app_assoc; reflexivity).
    apply IH; [exact (proj1 P)|]. eapply Hstep; eassumption.
Qed.

Lemma subParts_ind2 : forall parts st d,
  parts <> [] -> accurate s st -> Inv true st d ->
  accurate s (fold_left (addSubPart s) parts st) /\
  Inv false (fold_left (addSubPart s) parts st) (d ++ tagFirst parts).
Proof.
  intros [|u parts] st d NE A I; [congruence|].
  cbn [fold_left tagFirst].
  pose proof (addSubPart_step st u A) as P.
  replace (d ++ (true, u) :: map (pair false) parts)
    with ((d ++ [(true, u)]) ++ map (pair false) parts)
    by (rewrite <- app_assoc; reflexivity).
  apply subParts_rest; [exact (proj1 P)|]. eapply Hstep; eassumption.
Qed.

Lemma paragraphs_ind2 : forall paragraphs st d,
  Forall (fun p => p <> []) paragraphs ->
  accurate s st -> Inv false st d ->
  accurate s (fold_left (addParagraph s) paragraphs st) /\
  Inv false (fold_left (addParagraph s) paragraphs st)
      (d ++ taggedUnits s paragraphs).
Proof.
  induction paragraphs as [|p paragraphs IH]; intros st d F A I.
  - cbn. rewrite app_nil_r. split; assumption.
  - inversion_clear F as [|? ? Hp Hr].
    cbn [fold_left]. unfold taggedUnits in *. cbn [flat_map] in *.
    rewrite app_assoc.
    destruct (len p >? MaxChunkSize s) eqn:B.
    + apply gtb_true in B. rewrite addParagraph_oversized by lia.
      destruct (subParts_ind2 (splitOversizedParagraph s p)
                  (preFlush s st) d)
        as (A' & I').
      * apply (proj2 (splitOversizedParagraph_nonempty p)). exact Hp.
      * apply preFlush_accurate. exact A.
      * apply Hflush; assumption.
      * apply IH; assumption.
    + apply gtb_false in B.
      pose proof (addNormal_step st p A B) as P.
      apply IH; [exact Hr|exact (proj1 P)|].
      eapply Hstep; eassumption.
Qed.
End Packing2.

(** ** The layout of the chunks *)

Lemma paraFollows_snoc q curO curN tu :
  curN <> [] ->
  paraFollows s q (curO, curN) -> paraFollows s q (curO, curN ++ [tu]).
Proof.
  intros NE. unfold paraFollows. cbn [fst snd].
  destruct curN as [|x R]; [congruence|]. cbn [app]. auto.
Qed.

Lemma chunkOK_single O b u :
  (O = [] \/ exists lp, O = [lp] /\
     len lp + len (Separator s) + len u <= MaxChunkSize s) ->
  chunkOK s (O, [(b, u)]).
Proof.
  intros H. unfold chunkOK, paraChunk, paraGroup. cbn [fst snd map].
  split_ands.
  - intros Z. apply app_eq_nil in Z as [_ Z]. discriminate.
  - destruct H as [->|(lp & -> & L)].
    + right. exists u. reflexivity.
    + left. cbn. rewrite !len_app. lia.
  - constructor.
Qed.

(** The current chunk, when it holds nothing new, is one paragraph. *)
Lemma pending_single d pairs curO :
  curO <> [] ->
  paraLayoutOpen s d (pairs ++ [(curO, [])]) ->
  exists q, curO = [lastPara (paraGroup q)].
Proof.
  intros NE (_ & L2 & _ & L4).
  destruct pairs as [|q0 pairs]; [cbn in L2; congruence|].
  destruct (@exists_last _ (q0 :: pairs)) as (l & q & Hl); [discriminate|].
  rewrite Hl, <- app_assoc in L4. cbn [app] in L4.
  pose proof (chain_last_rel _ _ _ _ L4) as Hq.
  unfold paraFollows in Hq. cbn [fst snd] in Hq.
  destruct Hq as [Hq _]. eauto.
Qed.

Lemma paraInv_step b st d u st' :
  accurate s st -> paraInv s b st d -> packStep s st u st' ->
  paraInv s false st' (d ++ [(b, u)]).
Proof.
  intros A (I1 & I2) (_ & [(P1 & P2 & P3)|(N & P0 & P1 & P2)]).
  - (* [u] is appended *)
    destruct (currentChunk st) as [|c0 cur0] eqn:EC.
    + destruct (I1 eq_refl) as (C0 & ->). cbn [app] in *.
      split; [rewrite P2; discriminate|]. intros _.
      exists [], [], [(b, u)]. split_ands.
      * rewrite P1, C0. reflexivity.
      * exact P2.
      * unfold paraLayoutOpen. cbn [app map snd concat firstFresh fst chain].
        split_ands; auto.
        constructor; [|constructor]. apply chunkOK_single. left. reflexivity.
      * discriminate.
      * discriminate.
    + destruct P3 as [P3|P3]; [discriminate|].
      destruct (I2 ltac:(discriminate))
        as (pairs & curO & curN & E1 & E2 & (L1 & L2 & L3 & L4) & Pn & Pt).
      split; [rewrite P2; discriminate|]. intros _.
      exists pairs, curO, (curN ++ [(b, u)]). split_ands.
      * rewrite P1. exact E1.
      * rewrite P2, E2, map_app, app_assoc. reflexivity.
      * unfold paraLayoutOpen. split_ands.
        -- rewrite map_app, concat_app in *. cbn [map concat snd] in *.
           rewrite app_nil_r in *. rewrite app_assoc, L1. reflexivity.
        -- destruct pairs; exact L2.
        -- apply Forall_app in L3 as [L3 L3'].
           apply Forall_app. split; [exact L3|].
           constructor; [|constructor].
           inversion_clear L3' as [|? ? (K1 & K2 & K3) _].
           unfold chunkOK, paraChunk, paraGroup in *. cbn [fst snd] in *.
           split_ands.
           ++ intros Z. apply app_eq_nil in Z as [_ Z].
              rewrite map_app in Z. apply app_eq_nil in Z as [_ Z].
              discriminate.
           ++ left. rewrite map_app, app_assoc, <- E2.
              cbn [map snd]. rewrite Join_snoc by discriminate.
              rewrite !len_app. lia.
           ++ destruct b.
              ** rewrite (Pt eq_refl). cbn [app]. constructor.
              ** destruct curN as [|x0 R0]; [exfalso; apply Pn; reflexivity|].
                 cbn [app]. apply Forall_app. split; [exact K3|].
                 constructor; [reflexivity|constructor].
        -- apply (chain_last _ (curO, curN)); [exact L4|].
           intros q Hq. destruct b.
           ++ (* the chunk held nothing new: it is one paragraph *)
              rewrite (Pt eq_refl) in *. cbn [app map] in *.
              unfold paraFollows in *. cbn [fst snd] in *.
              destruct Hq as [Hq1 Hq2]. left. split_ands; auto.
              rewrite app_nil_r in E2. rewrite E2, Hq1 in P3.
              cbn [strings_Join] in P3. exact P3.
           ++ apply paraFollows_snoc; [apply Pn; reflexivity|exact Hq].
      * intros _ Z. apply app_eq_nil in Z as [_ Z]. discriminate.
      * discriminate.
  - (* the chunk is closed *)
    destruct (I2 N)
      as (pairs & curO & curN & E1 & E2 & L & Pn & Pt).
    pose proof L as (L1 & L2 & L3 & L4).
    assert (NE' : currentChunk st' <> [])
      by (destruct P2 as [(-> & _)|(-> & _)]; discriminate).
    split; [intros Z; congruence|]. intros _.
    assert (Hc : chunks st' = map (paraChunk s) (pairs ++ [(curO, curN)])).
    { rewrite P1, E1, map_app. cbn [map]. unfold paraChunk at 3, paraGroup.
      cbn [fst snd]. rewrite E2. reflexivity. }
    assert (Hg : paraGroup (curO, curN) = currentChunk st).
    { unfold paraGroup. cbn [fst snd]. symmetry. exact E2. }
    assert (Hlay : forall O,
               chunkOK s (O, [(b, u)]) ->
               paraFollows s (curO, curN) (O, [(b, u)]) ->
               paraLayoutOpen s (d ++ [(b, u)])
                 ((pairs ++ [(curO, curN)]) ++ [(O, [(b, u)])])).
    { intros O K F. unfold paraLayoutOpen. split_ands.
      - rewrite map_app, concat_app. cbn [map concat snd].
        rewrite app_nil_r, L1. reflexivity.
      - apply firstFresh_app; [exact L2|].
        intros Z. apply app_eq_nil in Z as [_ Z]. discriminate.
      - apply Forall_app. split; [exact L3|]. constructor; [exact K|constructor].
      - apply chain_snoc; [exact L4|exact F]. }
    destruct P2 as [(P2 & Ov)|(P2 & Ov)].
    + exists (pairs ++ [(curO, curN)]), [], [(b, u)]. split_ands; auto.
      * apply Hlay; [apply chunkOK_single; left; reflexivity|].
        unfold paraFollows. cbn [fst snd]. rewrite Hg. right.
        split_ands; auto. destruct b.
        -- apply Pt. reflexivity.
        -- apply Pn. reflexivity.
      * discriminate.
      * discriminate.
    + assert (Hb : b = false).
      { destruct b; [|reflexivity]. exfalso.
        rewrite (Pt eq_refl) in *. cbn [map] in E2. rewrite app_nil_r in E2.
        assert (NO : curO <> []) by congruence.
        destruct (pending_single d pairs curO NO L) as (q & Hq).
        rewrite E2, Hq in Ov, P0. cbn [strings_Join] in P0.
        change (lastPara [lastPara (paraGroup q)]) with (lastPara (paraGroup q)) in Ov.
        lia. }
      subst b.
      exists (pairs ++ [(curO, curN)]), [lastPara (currentChunk st)], [(false, u)].
      split_ands; auto.
      * apply Hlay.
        -- apply chunkOK_single. right. eexists. split; [reflexivity|exact Ov].
        -- unfold paraFollows. cbn [fst snd]. rewrite Hg. left.
           split_ands; auto.
           right. unfold paraChunk. rewrite Hg. exact P0.
      * discriminate.
      * discriminate.
Qed.

Lemma paraInv_flush st d :
  accurate s st -> paraInv s false st d -> paraInv s true (preFlush s st) d.
Proof.
  intros _ (I1 & I2). unfold preFlush.
  destruct (len (currentChunk st) >? 0) eqn:N.
  - apply len_pos_nonempty in N.
    destruct (I2 N)
      as (pairs & curO & curN & E1 & E2 & (L1 & L2 & L3 & L4) & Pn & _).
    split; [cbn; discriminate|]. intros _. cbn [chunks currentChunk].
    exists (pairs ++ [(curO, curN)]), [lastPara (currentChunk st)], [].
    split_ands.
    + rewrite E1, map_app. cbn [map]. unfold paraChunk at 3, paraGroup.
      cbn [fst snd]. rewrite E2. reflexivity.
    + reflexivity.
    + unfold paraLayoutOpen. split_ands.
      * rewrite map_app, concat_app. cbn [map concat snd].
        rewrite !app_nil_r. exact L1.
      * apply firstFresh_app; [exact L2|].
        intros Z. apply app_eq_nil in Z as [_ Z]. discriminate.
      * apply Forall_app. split; [exact L3|].
        constructor; [|constructor].
        unfold chunkOK, paraGroup. cbn [fst snd map app]. split_ands.
        -- discriminate.
        -- right. eexists. reflexivity.
        -- exact I.
      * apply chain_snoc; [exact L4|].
        unfold paraFollows, paraGroup. cbn [fst snd].
        rewrite <- E2. split; [reflexivity|]. apply Pn. reflexivity.
    + discriminate.
    + reflexivity.
  - apply len_pos_empty in N. split.
    + exact I1.
    + intros Z. congruence.
Qed.

(** The chunks of [SplitText] are laid out over the units of the
    text. *)
Lemma paragraph_layout text :
  exists pairs,
    SplitText s text = map (paraChunk s) pairs /\
    paraLayout s (taggedUnits s (paragraphsOf s text)) pairs.
Proof.
  destruct (paragraphsOf s text) as [|p0 ps0] eqn:E.
  - exists []. rewrite (SplitText_no_paragraph _ E).
    split; [reflexivity|]. split.
    + unfold paraLayoutOpen. cbn. split_ands; auto.
    + intros l p Z. destruct l; discriminate.
  - assert (NE : paragraphsOf s text <> []) by (rewrite E; discriminate).
    rewrite <- E. rewrite (SplitText_unfold _ NE). cbv zeta.
    destruct (paragraphs_ind2 (paraInv s) paraInv_step paraInv_flush
                (paragraphsOf s text)
                {| chunks := []; currentChunk := []; currentSize := 0 |} [])
      as (_ & I1 & I2).
    { apply keepParagraphs_nonempty. }
    { apply accurate_init. }
    { split; [cbn; auto|]. cbn. congruence. }
    cbn [app] in *.
    set (st := fold_left _ _ _) in *.
    destruct (len (currentChunk st) >? 0) eqn:N.
    + apply len_pos_nonempty in N.
      destruct (I2 N) as (pairs & curO & curN & E1 & E2 & L & Pn & _).
      exists (pairs ++ [(curO, curN)]). split; [|split].
      * rewrite map_app, E1. cbn [map]. unfold paraChunk at 2, paraGroup.
        cbn [fst snd]. rewrite E2. reflexivity.
      * exact L.
      * intros l p Z. apply app_inj_tail in Z as [_ <-]. cbn [snd].
        apply Pn. reflexivity.
    + apply len_pos_empty in N. destruct (I1 N) as (C0 & D0).
      exfalso.
      destruct (units_nonempty (paragraphsOf s text)
                  (keepParagraphs_nonempty _)) as (_ & U).
      apply (U NE). rewrite <- taggedUnits_units, D0. reflexivity.
Qed.

Lemma paraFollows_carries p p' : paraFollows s p p' -> carriesPara p p'.
Proof.
  unfold paraFollows, carriesPara. destruct (snd p') as [|[b u] R].
  - intros [H1 H2]. right. auto.
  - intros [(H1 & H2 & _)|(H1 & _)].
    + right. auto.
    + left. split; [exact H1|discriminate].
Qed.
End ParagraphMore.

(* ================================================================== *)
(** * The ingestion service                                             *)
(* ================================================================== *)

Section RagFacts.
Import Rag.

Lemma chunkLoop_spec doc : forall textChunks i chunks,
  chunkLoop doc textChunks i chunks = chunks ++ chunksFrom doc i textChunks.
Proof.
  induction textChunks as [|c more IH]; intros i chunks.
  - cbn. rewrite app_nil_r. reflexivity.
  - cbn [chunkLoop chunksFrom]. rewrite IH, <- app_assoc. reflexivity.
Qed.

Lemma chunksFrom_length doc : forall textChunks i,
  List.length (chunksFrom doc i textChunks) = List.length textChunks.
Proof.
  induction textChunks as [|c more IH]; intros i; [reflexivity|].
  cbn [chunksFrom List.length]. rewrite IH. reflexivity.
Qed.

Lemma chunksFrom_nth doc : forall textChunks i n c,
  nth_error textChunks n = Some c ->
  nth_error (chunksFrom doc i textChunks) n
  = Some (chunkDocument doc (i + Z.of_nat n) c).
Proof.
  induction textChunks as [|c0 more IH]; intros i n c E.
  - destruct n; discriminate.
  - destruct n as [|n].
    + cbn in E. inversion E. cbn. rewrite Z.add_0_r. reflexivity.
    + cbn [nth_error chunksFrom] in *. rewrite (IH (i + 1) n c E).
      f_equal. f_equal. lia.
Qed.

Lemma chunksFrom_In doc : forall textChunks i d,
  In d (chunksFrom doc i textChunks) ->
  exists k c, i <= k /\ In c textChunks /\ d = chunkDocument doc k c.
Proof.
  induction textChunks as [|c0 more IH]; intros i d H; [destruct H|].
  destruct H as [<-|H].
  - exists i, c0. split_ands; auto; [lia|left; reflexivity].
  - destruct (IH _ _ H) as (k & c & K & I & ->).
    exists k, c. split_ands; auto; [lia|right; exact I].
Qed.

Lemma batchLoop_spec sp : forall docs tcss allChunks,
  Forall2 (fun doc tcs => SplitText sp (Content doc) = Ok tcs) docs tcss ->
  batchLoop sp docs allChunks
  = Ok (allChunks ++
        flat_map (fun dt => chunksFrom (fst dt) 0 (snd dt)) (combine docs tcss)).
Proof.
  induction docs as [|doc docs IH]; intros tcss allChunks F.
  - inversion_clear F. cbn. rewrite app_nil_r. reflexivity.
  - inversion F as [|? tcs ? tcss' E F']. subst.
    cbn [batchLoop combine flat_map fst snd]. rewrite E.
    rewrite (IH tcss' _ F'), chunkLoop_spec, <- app_assoc. reflexivity.
Qed.

(** ** Metadata *)

Lemma keyEq_refl k : keyEq k k = true.
Proof. unfold keyEq. destruct (list_eq_dec ascii_dec k k); congruence. Qed.

Lemma keyEq_neq a b : a <> b -> keyEq a b = false.
Proof. unfold keyEq. destruct (list_eq_dec ascii_dec a b); congruence. Qed.

Lemma keyEq_true a b : keyEq a b = true -> a = b.
Proof. unfold keyEq. destruct (list_eq_dec ascii_dec a b); congruence. Qed.

Lemma lookup_snoc : forall m k v k',
  lookup (m ++ [(k, v)]) k' = if keyEq k k' then Some v else lookup m k'.
Proof.
  induction m as [|[k0 v0] m IH]; intros k v k'.
  - cbn. destruct (keyEq k k'); reflexivity.
  - cbn [app lookup]. rewrite IH.
    destruct (keyEq k k'); reflexivity.
Qed.

Lemma lookup_filter k k' : forall m,
  keyEq k k' = false ->
  lookup (filter (fun kv => negb (keyEq (fst kv) k)) m) k' = lookup m k'.
Proof.
  intros m N. induction m as [|[k0 v0] m IH]; [reflexivity|].
  cbn [filter fst lookup].
  destruct (keyEq k0 k) eqn:E; cbn [negb].
  - apply keyEq_true in E. subst k0. rewrite IH, N.
    destruct (lookup m k'); reflexivity.
  - cbn [lookup]. rewrite IH. reflexivity.
Qed.

(** Reading a map after an assignment. *)
Lemma lookup_assign m k v k' :
  lookup (assign m k v) k' = if keyEq k k' then Some v else lookup m k'.
Proof.
  unfold assign. rewrite lookup_snoc.
  destruct (keyEq k k') eqn:E; [reflexivity|].
  apply lookup_filter. exact E.
Qed.

(** Copying the bindings of [src] into [acc]. *)
Lemma copy_bindings k : forall (src acc : metadataMap),
  lookup (fold_left (fun m kv => assign m (fst kv) (snd kv)) src acc) k =
  match lookup src k with
  | Some w => Some w
  | None => lookup acc k
  end.
Proof.
  induction src as [|[k0 v0] src IH]; intros acc; [reflexivity|].
  cbn [fold_left fst snd lookup]. rewrite IH, lookup_assign.
  destruct (lookup src k); [reflexivity|].
  destruct (keyEq k0 k); reflexivity.
Qed.

Lemma chunkDocument_metadata doc i c k :
  lookup (Metadata (chunkDocument doc i c)) k =
  if keyEq (str "chunk_index") k then Some (AnyInt i)
  else if keyEq (str "source_id") k then Some (AnyString (ID doc))
  else lookup (Metadata doc) k.
Proof.
  unfold chunkDocument. cbn [Metadata].
  rewrite !lookup_assign, copy_bindings. cbn [lookup].
  destruct (lookup (Metadata doc) k); reflexivity.
Qed.

(** ** Chunk identifiers *)

Lemma digits_uint : forall d,
  forallb isDigit (str (DecimalString.NilEmpty.string_of_uint d)) = true.
Proof.
  induction d; cbn [DecimalString.NilEmpty.string_of_uint str list_ascii_of_string forallb];
    try reflexivity; fold (str (DecimalString.NilEmpty.string_of_uint d));
    rewrite IHd; reflexivity.
Qed.

Lemma decimal_digits i : 0 <= i -> forallb isDigit (decimal i) = true.
Proof.
  intros H. unfold decimal.
  destruct i as [|p|p]; [reflexivity| |lia].
  cbn [Z.to_int DecimalString.NilZero.string_of_int].
  unfold DecimalString.NilZero.string_of_uint.
  destruct (Pos.to_uint p) eqn:E; try (rewrite <- E; apply digits_uint).
  reflexivity.
Qed.

Lemma str_inj : forall a b, str a = str b -> a = b.
Proof.
  intros a b H. unfold str in H.
  rewrite <- (string_of_list_ascii_of_string a),
          <- (string_of_list_ascii_of_string b), H. reflexivity.
Qed.

Lemma to_int_proper i :
  Z.to_int i <> Decimal.Pos Decimal.Nil /\ Z.to_int i <> Decimal.Neg Decimal.Nil.
Proof.
  destruct i as [|p|p]; cbn; split; try discriminate;
    intros E; inversion E as [E'];
    exact (DecimalPos.Unsigned.to_uint_nonnil p E').
Qed.

Lemma decimal_inj i j : decimal i = decimal j -> i = j.
Proof.
  intros H. unfold decimal in H. apply str_inj in H.
  apply DecimalZ.to_int_inj.
  destruct (to_int_proper i) as (I1 & I2), (to_int_proper j) as (J1 & J2).
  pose proof (DecimalString.NilZero.isi _ I1 I2) as A.
  pose proof (DecimalString.NilZero.isi _ J1 J2) as B.
  rewrite H in A. rewrite A in B. inversion B. reflexivity.
Qed.

(** Two strings that end in digits behind the same byte that is no digit
    agree on the digits and on what comes before. *)
Lemma digits_tail (x : ascii) : forall d1 d2 r1 r2,
  isDigit x = false ->
  forallb isDigit d1 = true -> forallb isDigit d2 = true ->
  d1 ++ x :: r1 = d2 ++ x :: r2 -> d1 = d2 /\ r1 = r2.
Proof.
  induction d1 as [|a d1 IH]; intros d2 r1 r2 X D1 D2 E.
  - destruct d2 as [|b d2]; [inversion E; auto|].
    cbn in E, D2. inversion E. subst b.
    apply andb_true_iff in D2 as [D2 _]. congruence.
  - destruct d2 as [|b d2].
    + cbn in E, D1. inversion E. subst a.
      apply andb_true_iff in D1 as [D1 _]. congruence.
    + cbn in E, D1, D2. inversion E. subst b.
      apply andb_true_iff in D1 as [_ D1]. apply andb_true_iff in D2 as [_ D2].
      destruct (IH d2 r1 r2 X D1 D2 H1) as [-> ->]. auto.
Qed.

Lemma forallb_rev_eq {A} (f : A -> bool) l :
  forallb f (rev l) = forallb f l.
Proof.
  induction l as [|a l IH]; [reflexivity|].
  cbn [rev forallb]. rewrite forallb_app, IH. cbn. rewrite andb_true_r.
  apply andb_comm.
Qed.

(** The identifier of a chunk tells the document and the index. *)
Lemma chunkID_inj a i b j :
  0 <= i -> 0 <= j -> chunkID a i = chunkID b j -> a = b /\ i = j.
Proof.
  intros Hi Hj E. unfold chunkID in E.
  apply (f_equal (@rev ascii)) in E.
  rewrite !rev_app_distr in E.
  change (rev (str "_chunk_")) with ("_"%char :: str "knuhc_") in E.
  rewrite <- !app_assoc in E. cbn [app] in E.
  apply digits_tail in E as [E1 E2].
  - apply (f_equal (@rev ascii)) in E1. rewrite !rev_involutive in E1.
    apply decimal_inj in E1. split; [|exact E1].
    apply app_inv_head in E2.
    apply (f_equal (@rev ascii)) in E2. rewrite !rev_involutive in E2.
    exact E2.
  - reflexivity.
  - rewrite forallb_rev_eq. apply decimal_digits. exact Hi.
  - rewrite forallb_rev_eq. apply decimal_digits. exact Hj.
Qed.

Lemma chunksFrom_ID doc : forall textChunks i d,
  0 <= i -> In d (chunksFrom doc i textChunks) ->
  exists k, 0 <= k /\ ID d = chunkID (ID doc) k.
Proof.
  intros textChunks i d Hi H.
  apply chunksFrom_In in H as (k & c & K & _ & ->).
  exists k. split; [lia|reflexivity].
Qed.

Lemma chunksFrom_NoDup doc : forall textChunks i,
  0 <= i -> NoDup (map ID (chunksFrom doc i textChunks)).
Proof.
  induction textChunks as [|c more IH]; intros i Hi; [constructor|].
  cbn [chunksFrom map]. constructor; [|apply IH; lia].
  intros H. apply in_map_iff in H as (d & E & H).
  apply chunksFrom_In in H as (k & c' & K & _ & ->).
  cbn [chunkDocument ID] in E.
  apply chunkID_inj in E as [_ E]; lia.
Qed.

Lemma NoDup_app_disjoint {A} (l1 l2 : list A) :
  NoDup l1 -> NoDup l2 -> (forall x, In x l1 -> In x l2 -> False) ->
  NoDup (l1 ++ l2).
Proof.
  induction l1 as [|a l1 IH]; intros N1 N2 D; [exact N2|].
  inversion_clear N1. cbn. constructor.
  - intros H1. apply in_app_or in H1 as [H1|H1]; [contradiction|].
    apply (D a); [left; reflexivity|exact H1].
  - apply IH; auto. intros x X1 X2. apply (D x); [right; exact X1|exact X2].
Qed.

Lemma batch_NoDup : forall docs tcss,
  NoDup (map ID docs) ->
  NoDup (map ID (flat_map (fun dt => chunksFrom (fst dt) 0 (snd dt))
                          (combine docs tcss))).
Proof.
  induction docs as [|doc docs IH]; intros tcss N; [constructor|].
  destruct tcss as [|tcs tcss]; [constructor|].
  cbn [combine flat_map fst snd]. rewrite map_app.
  cbn [map] in N. inversion_clear N as [|? ? N1 N2].
  apply NoDup_app_disjoint.
  - apply chunksFrom_NoDup. lia.
  - apply IH. exact N2.
  - intros x X1 X2.
    apply in_map_iff in X1 as (d1 & E1 & X1).
    apply chunksFrom_ID in X1 as (k1 & K1 & I1); [|lia].
    apply in_map_iff in X2 as (d2 & E2 & X2).
    apply in_flat_map in X2 as ([doc2 tcs2] & C & X2). cbn [fst snd] in X2.
    apply chunksFrom_ID in X2 as (k2 & K2 & I2); [|lia].
    apply in_combine_l in C.
    rewrite <- E1, I1, I2 in E2.
    apply chunkID_inj in E2 as [E2 _]; try assumption.
    apply N1. rewrite <- E2. apply in_map. exact C.
Qed.
End RagFacts.

(* ================================================================== *)
(** * Trimming, dropping, hard splitting                                *)
(* ================================================================== *)

(** Trimming leaves nothing exactly of the texts that are white space
    only. *)
Lemma TrimSpace_empty_iff a :
  strings_TrimSpace a = [] <-> whitespaceOnly a = true.
Proof.
  split; [|apply TrimSpace_whitespaceOnly].
  intros E. pose proof (Fields_TrimSpace a) as F. rewrite E in F.
  change (strings_Fields []) with (@nil gostring) in F. cbn in F.
  unfold whitespaceOnly, runes. apply fieldsLoop_nil_spaces.
  fold (strings_Fields a).
  destruct (strings_Fields a); [reflexivity|].
  rewrite len_cons in F. pose proof (len_nonneg l). lia.
Qed.

Lemma Fields_empty_iff a :
  strings_Fields a = [] <-> whitespaceOnly a = true.
Proof.
  split; [|apply Fields_whitespaceOnly].
  intros E. unfold whitespaceOnly, runes. apply fieldsLoop_nil_spaces. exact E.
Qed.

Lemma postprocessChunks_filter : forall cs,
  postprocessChunks cs
  = map strings_TrimSpace (filter (fun c => negb (whitespaceOnly c)) cs).
Proof.
  induction cs as [|c cs IH]; [reflexivity|].
  cbn [postprocessChunks filter].
  destruct (isEmpty (strings_TrimSpace c)) eqn:E.
  - apply isEmpty_true in E. apply TrimSpace_empty_iff in E. rewrite E.
    cbn [negb]. exact IH.
  - destruct (whitespaceOnly c) eqn:W.
    + apply TrimSpace_empty_iff in W. rewrite W in E. discriminate.
    + cbn [negb map]. rewrite IH. reflexivity.
Qed.

(** ** The hard split gives the text back, rune by rune *)

Lemma stringOfRunes_concat : forall pieces,
  concat (map stringOfRunes pieces) = stringOfRunes (concat pieces).
Proof.
  induction pieces as [|p pieces IH]; [reflexivity|].
  cbn [map concat]. rewrite stringOfRunes_app, IH. reflexivity.
Qed.

Lemma splitOversizedParagraph_concat ps p :
  concat (Paragraph.splitOversizedParagraph ps p) = stringOfRunes (runes p).
Proof.
  unfold Paragraph.splitOversizedParagraph.
  destruct (oversizedLoop_spec ps (List.length (runes p)) (runes p) (Nat.le_refl _))
    as (C & _).
  rewrite stringOfRunes_concat, C. reflexivity.
Qed.

Lemma wellEncoded_roundtrip t :
  ParagraphNotions.wellEncoded t -> stringOfRunes (runes t) = t.
Proof.
  unfold ParagraphNotions.wellEncoded, runes. intros W.
  rewrite <- (segments_concat t) at 2.
  induction (segments t) as [|[r b] segs IH]; [reflexivity|].
  inversion_clear W as [|? ? H1 H2]. cbn [fst snd] in H1.
  cbn [map fst snd concat]. rewrite stringOfRunes_cons, H1, (IH H2).
  reflexivity.
Qed.

(** ** Paragraphs that fit together *)

Section ParagraphFit.
Import Paragraph ParagraphNotions.
Variable s : ParagraphSplitter.

Lemma Join_prefix_le sep : forall l1 l2,
  len (strings_Join l1 sep) <= len (strings_Join (l1 ++ l2) sep).
Proof.
  induction l1 as [|a l1 IH]; intros l2.
  - cbn. apply len_nonneg.
  - destruct l1 as [|b l1].
    + cbn [app]. destruct l2 as [|c l2]; [cbn; lia|].
      change (strings_Join (a :: c :: l2) sep)
        with (a ++ sep ++ strings_Join (c :: l2) sep).
      change (strings_Join [a] sep) with a.
      rewrite !len_app. pose proof (len_nonneg sep).
      pose proof (len_nonneg (strings_Join (c :: l2) sep)). lia.
    + change (strings_Join ((a :: b :: l1) ++ l2) sep)
        with (a ++ sep ++ strings_Join ((b :: l1) ++ l2) sep).
      change (strings_Join (a :: b :: l1) sep)
        with (a ++ sep ++ strings_Join (b :: l1) sep).
      rewrite !len_app. specialize (IH l2). lia.
Qed.

Lemma Join_last_le sep l p :
  len p <= len (strings_Join (l ++ [p]) sep).
Proof.
  destruct l as [|a l]; [cbn; lia|].
  rewrite Join_snoc by discriminate. rewrite !len_app.
  pose proof (len_nonneg sep).
  pose proof (len_nonneg (strings_Join (a :: l) sep)). lia.
Qed.

Lemma addParagraph_fits pre p :
  len (strings_Join (pre ++ [p]) (Separator s)) <= MaxChunkSize s ->
  addParagraph s {| chunks := []; currentChunk := pre;
                    currentSize := len (strings_Join pre (Separator s)) |} p
  = {| chunks := []; currentChunk := pre ++ [p];
       currentSize := len (strings_Join (pre ++ [p]) (Separator s)) |}.
Proof.
  intros L. pose proof (Join_last_le (Separator s) pre p) as Lp.
  unfold addParagraph. cbn [chunks currentChunk currentSize].
  unfold gostring in *.
  assert (B : (len p >? MaxChunkSize s) = false) by (apply gtb_false; lia).
  rewrite B.
  destruct pre as [|a pre].
  - cbn [app strings_Join] in *. cbn [len List.length Z.of_nat Z.gtb Z.compare].
    assert (T : (0 + len p >? MaxChunkSize s) = false) by (apply gtb_false; lia).
    rewrite T. reflexivity.
  - assert (N : (len (a :: pre) >? 0) = true)
      by (apply len_pos_nonempty; discriminate).
    rewrite N.
    assert (E : len (strings_Join ((a :: pre) ++ [p]) (Separator s))
                = len (strings_Join (a :: pre) (Separator s))
                  + (len p + len (Separator s))).
    { rewrite Join_snoc by discriminate. rewrite !len_app. lia. }
    assert (T : (len (strings_Join (a :: pre) (Separator s))
                 + (len p + len (Separator s)) >? MaxChunkSize s) = false)
      by (apply gtb_false; lia).
    rewrite T, E. reflexivity.
Qed.

Lemma addParagraphs_fit : forall rest pre,
  len (strings_Join (pre ++ rest) (Separator s)) <= MaxChunkSize s ->
  fold_left (addParagraph s) rest
    {| chunks := []; currentChunk := pre;
       currentSize := len (strings_Join pre (Separator s)) |}
  = {| chunks := []; currentChunk := pre ++ rest;
       currentSize := len (strings_Join (pre ++ rest) (Separator s)) |}.
Proof.
  induction rest as [|p rest IH]; intros pre L.
  - rewrite app_nil_r. reflexivity.
  - cbn [fold_left].
    replace (pre ++ p :: rest) with ((pre ++ [p]) ++ rest) in *
      by (rewrite <- app_assoc; reflexivity).
    rewrite addParagraph_fits.
    + apply IH. exact L.
    + pose proof (Join_prefix_le (Separator s) (pre ++ [p]) rest). lia.
Qed.

Lemma SplitText_fit text :
  paragraphsOf s text <> [] ->
  len (strings_Join (paragraphsOf s text) (Separator s)) <= MaxChunkSize s ->
  SplitText s text = [strings_Join (paragraphsOf s text) (Separator s)].
Proof.
  intros NE L. rewrite (SplitText_unfold s text NE). cbv zeta.
  change {| chunks := []; currentChunk := []; currentSize := 0 |}
    with {| chunks := []; currentChunk := [];
            currentSize := len (strings_Join [] (Separator s)) |}.
  rewrite (addParagraphs_fit (paragraphsOf s text) [] L).
  cbn [app chunks currentChunk].
  rewrite (proj2 (len_pos_nonempty _) NE). reflexivity.
Qed.
End ParagraphFit.

(** ** The panic of [merge] *)

Lemma merge_panics s chunkSize fuel pre x post :
  Forall (fun sp => tokenSize sp <= chunkSize) pre ->
  tokenSize x > chunkSize ->
  (2 * List.length pre < fuel)%nat ->
  merge fuel s (pre ++ x :: post) chunkSize
  = Panic (SingleTokenExceeded (tokenSize x) chunkSize).
Proof.
  intros F X L. unfold merge.
  destruct (mergeLoop_prefix s chunkSize pre mergeInit (x :: post) fuel F
              ltac:(lia)) as (fuel' & L' & ->).
  destruct fuel' as [|fuel']; [lia|].
  rewrite mergeLoop_step.
  assert (T : (tokenSize x >? chunkSize) = true) by (apply gtb_true; lia).
  rewrite T. reflexivity.
Qed.

(* ================================================================== *)
(** * Properties of the chunkers                                        *)
(* ================================================================== *)

Lemma postprocessChunks_In c : forall l,
  In c (postprocessChunks l) ->
  exists c0, In c0 l /\ c = strings_TrimSpace c0 /\ c <> [].
Proof.
  induction l as [|a l IH]; cbn [postprocessChunks]; intros H; [destruct H|].
  destruct (isEmpty (strings_TrimSpace a)) eqn:E.
  - destruct (IH H) as (c0 & H1 & H2). exists c0. split; [right; exact H1|exact H2].
  - destruct H as [<-|H].
    + exists a. split_ands; [left; reflexivity|reflexivity|].
      apply isEmpty_false. exact E.
    + destruct (IH H) as (c0 & H1 & H2). exists c0. split; [right; exact H1|exact H2].
Qed.

(** Under a subadditive measure a run of leaves measures at most the total
    of the measures of the leaves. *)
Lemma measure_join s : forall g,
  subadditive (Tokenizer_ s) -> Forall (measured s) g -> g <> [] ->
  getTokenSize s (joinItems g) <= sumLen g.
Proof.
  intros g SA. induction g as [|it g IH]; intros F NE; [congruence|].
  inversion_clear F as [|? ? Hit Hg]. unfold measured in Hit.
  destruct g as [|it' g].
  - cbn. rewrite app_nil_r. lia.
  - specialize (IH Hg ltac:(discriminate)).
    change (joinItems (it :: it' :: g)) with (item_text it ++ joinItems (it' :: g)).
    cbn [sumLen] in *. unfold getTokenSize in *.
    pose proof (SA (item_text it) (joinItems (it' :: g))). lia.
Qed.

(** A text that fits is one leaf and one chunk, trimmed or dropped. *)
Lemma splitText_fits s fuel t chunkSize :
  (1 <= fuel)%nat -> t <> [] -> getTokenSize s t <= chunkSize ->
  splitText fuel s t chunkSize = Ok (postprocessChunks [t]).
Proof.
  intros Hf Ht Hm. unfold splitText.
  apply isEmpty_false in Ht. rewrite Ht.
  destruct fuel as [|fuel]; [lia|].
  rewrite split_unfold.
  assert (M : (getTokenSize s t <=? chunkSize) = true) by (apply Z.leb_le; exact Hm).
  rewrite M. unfold merge. rewrite mergeLoop_step. cbn [tokenSize].
  assert (T : (getTokenSize s t >? chunkSize) = false) by (apply gtb_false; exact Hm).
  rewrite T. cbn [mergeInit newChunk negb]. rewrite andb_false_r.
  assert (E : forall st, mergeLoop fuel s chunkSize st [] = Ok st)
    by (intros st; destruct fuel; reflexivity).
  rewrite E, stepLeaf_newChunk. cbn [negb].
  unfold stepLeaf. cbn [mergeInit newChunk curChunkLen curChunk chunks tokenSize negb].
  rewrite andb_false_r. cbn [andb]. rewrite Z.add_0_l, T.
  cbn. rewrite app_nil_r. reflexivity.
Qed.

(** The chunks of the sentence splitter are within the chunk size under a
    measure that is subadditive and is not raised by trimming. *)
Lemma sentence_chunks_bounded s fuel t out :
  subadditive (Tokenizer_ s) -> trimStable (Tokenizer_ s) ->
  t <> [] -> SplitText fuel s t = Ok out ->
  Forall (fun c => getTokenSize s c <= ChunkSize s) out.
Proof.
  intros SA TS Ht E.
  unfold SplitText, splitText in E.
  apply isEmpty_false in Ht. rewrite Ht in E.
  destruct (split fuel s t (ChunkSize s)) as [leaves|] eqn:Sp; [|discriminate].
  destruct (merge fuel s leaves (ChunkSize s)) as [cs| |] eqn:Mg; try discriminate.
  inversion E; subst out; clear E.
  apply split_sizes in Sp.
  apply (merge_sizes s (ChunkSize s) (measured s)) in Mg.
  - apply Forall_forall. intros c Hc.
    apply postprocessChunks_In in Hc as (c0 & Hin & -> & NE).
    rewrite Forall_forall in Mg.
    destruct (Mg c0 Hin) as (g & -> & Hsum & Hg).
    destruct g as [|it g]; [exfalso; apply NE; reflexivity|].
    pose proof (measure_join s (it :: g) SA Hg ltac:(discriminate)) as MJ.
    pose proof (TS (joinItems (it :: g))) as T. unfold getTokenSize in *. lia.
  - eapply Forall_impl; [|exact Sp]. intros l [_ Hl]. exact Hl.
Qed.

(** C1, as amended.  Every chunk [SentenceSplitter.SplitText] returns for a
    text that is not empty measures at most the chunk size, when the
    measure of the tokenizer is subadditive under concatenation and is not
    raised by trimming; every chunk [ParagraphSplitter.SplitText] returns
    is at most [MaxChunkSize] bytes long, when no code point of a paragraph
    is wider than [MaxChunkSize] bytes. *)
Theorem chunk_size_bound :
  (forall s fuel t out,
      subadditive (Tokenizer_ s) -> trimStable (Tokenizer_ s) ->
      t <> [] -> SplitText fuel s t = Ok out ->
      Forall (fun c => getTokenSize s c <= ChunkSize s) out) /\
  (forall ps t,
      Forall (runesFit (Paragraph.MaxChunkSize ps))
             (Paragraph.keepParagraphs (strings_Split t (Paragraph.Separator ps))) ->
      Forall (fun c => len c <= Paragraph.MaxChunkSize ps)
             (Paragraph.SplitText ps t)).
Proof.
  split.
  - intros s fuel t out. apply sentence_chunks_bounded.
  - intros ps t F. apply Paragraph_SplitText_bound. exact F.
Qed.

Lemma chunk_size_bound_witness :
  Forall (fun c => getTokenSize smallSplitter c <= ChunkSize smallSplitter)
         [str "a b"; str "c d"] /\
  Forall (fun c => len c <= 5)
         (Paragraph.SplitText paragraphSplitter5 (str "1234567890")).
Proof.
  split.
  - apply (proj1 chunk_size_bound smallSplitter 20%nat (str "a b c d")).
    + apply SimpleTokenizer_subadditive.
    + apply SimpleTokenizer_trimStable.
    + discriminate.
    + vm_compute. reflexivity.
  - apply (proj2 chunk_size_bound paragraphSplitter5 (str "1234567890")).
    apply Forall_forall. intros p _.
    apply (runesFit_wide paragraphSplitter5). vm_compute. discriminate.
Defined.

(** C1 fails as stated: with a maximum of one byte the paragraph chunker
    returns the two bytes of U+00E9 as a chunk, and raises nothing. *)
Lemma chunk_size_bound_fails :
  Paragraph.SplitText paragraphSplitter1 eAcute = [eAcute] /\
  ~ Forall (fun c => len c <= Paragraph.MaxChunkSize paragraphSplitter1)
           (Paragraph.SplitText paragraphSplitter1 eAcute).
Proof.
  assert (E : Paragraph.SplitText paragraphSplitter1 eAcute = [eAcute])
    by (vm_compute; reflexivity).
  split; [exact E|]. rewrite E.
  intros F. inversion_clear F as [|? ? H _]. vm_compute in H. apply H. reflexivity.
Qed.

(** The measure has to be subadditive: two leaves of one token each are
    merged into a chunk of three tokens where two are allowed. *)
Example nonadditive_measure_overflows :
  SplitText 5 lumpSplitter (str "ab") = Ok [str "ab"] /\
  getTokenSize lumpSplitter (str "ab") = 3 /\
  ChunkSize lumpSplitter = 2.
Proof. vm_compute. auto. Qed.

(** [SplitText] never panics: the leaves [split] returns all fit, so the
    check of [merge] cannot fire. *)
Lemma SplitText_never_panics s fuel t p : SplitText fuel s t <> Panic p.
Proof.
  unfold SplitText, splitText.
  destruct (isEmpty t); [discriminate|].
  destruct (split fuel s t (ChunkSize s)) as [leaves|] eqn:Sp; [|discriminate].
  destruct (merge fuel s leaves (ChunkSize s)) as [cs|q|] eqn:Mg; try discriminate.
  exfalso. unfold merge in Mg.
  destruct (mergeLoop fuel s (ChunkSize s) mergeInit leaves) as [st|q'|] eqn:ML;
    try discriminate.
  - destruct (negb _); discriminate.
  - apply mergeLoop_not_panic in ML; [exact ML|].
    apply split_sizes in Sp. eapply Forall_impl; [|exact Sp].
    intros l [Hl _]. exact Hl.
Qed.

(** C2, what the code does.  With a tokenizer that charges two tokens for
    a byte and a chunk size of 1, [SplitText] on the one character "a"
    does not return whatever the recursion depth allowed, and no call of
    [SplitText] ever ends in the panic of [merge]. *)
Theorem oversized_character_diverges :
  (forall fuel, SplitText fuel twoPerByteSplitter (str "a") = OutOfFuel) /\
  (forall s fuel t p, SplitText fuel s t <> Panic p).
Proof.
  split; [|apply SplitText_never_panics].
  intros fuel. unfold SplitText, splitText. cbn [isEmpty str list_ascii_of_string].
  rewrite split_diverges; [reflexivity| |].
  - vm_compute. reflexivity.
  - vm_compute. reflexivity.
Qed.

(** C3, as amended.  When the split functions of both chains lose nothing, the texts
    of the leaves [split] returns, concatenated in order, are the input;
    and when moreover every candidate of a fragment that is too large fits
    or is shorter than the fragment, [split] returns such leaves. *)
Theorem split_reconstructs s chunkSize :
  losslessChain s ->
  (forall fuel t leaves,
      split fuel s t chunkSize = Some leaves ->
      concat (map text leaves) = t) /\
  (progresses s chunkSize ->
   forall t, exists leaves,
       split (S (List.length t)) s t chunkSize = Some leaves /\
       concat (map text leaves) = t).
Proof.
  intros HL. split.
  - intros fuel t leaves E. eapply split_concat; eauto.
  - intros HP t.
    destruct (split_total s chunkSize HP (S (List.length t)) t (Nat.lt_succ_diag_r _))
      as [leaves E].
    exists leaves. split; [exact E|]. eapply split_concat; eauto.
Qed.

Lemma split_reconstructs_witness :
  exists leaves,
    split 8 smallSplitter (str "a b c d") 2 = Some leaves /\
    concat (map text leaves) = str "a b c d".
Proof.
  apply (proj2 (split_reconstructs smallSplitter 2 (built_lossless 2 0 None))
               (built_progresses 2 0 None (SimpleTokenizer_charFits 2 ltac:(lia)))
               (str "a b c d")).
Defined.

(** C3 fails as stated: the strategy is the caller's, and one that drops
    what it cuts at loses it for good.  With a strategy that cuts at white
    space as [strings.Fields] does, the leaves of "a b" are "a" and "b". *)
Lemma split_reconstructs_fails :
  split 3 fieldsSplitter (str "a b") (ChunkSize fieldsSplitter)
  = Some [ {| text := str "a"; isSentence := true; tokenSize := 1 |};
           {| text := str "b"; isSentence := true; tokenSize := 1 |} ] /\
  concat (map text
            [ {| text := str "a"; isSentence := true; tokenSize := 1 |};
              {| text := str "b"; isSentence := true; tokenSize := 1 |} ])
  <> str "a b".
Proof.
  split; [vm_compute; reflexivity|]. vm_compute. discriminate.
Qed.

(** With the default strategy nothing is lost, whatever the sizes and the
    tokenizer. *)
Corollary built_split_reconstructs chunkSize chunkOverlap tokenizer fuel t cs leaves :
  split fuel (NewSentenceSplitter SpecHelpers.helpers chunkSize chunkOverlap
                                  tokenizer None) t cs = Some leaves ->
  concat (map text leaves) = t.
Proof.
  apply split_concat. apply built_lossless.
Qed.

(** With the default tokenizer and strategy [SplitText] returns chunks,
    given depth enough. *)
Corollary default_SplitText_returns chunkSize chunkOverlap t :
  exists fuel, forall fuel', (fuel <= fuel')%nat ->
    exists out,
      SplitText fuel' (NewSentenceSplitter SpecHelpers.helpers chunkSize
                                           chunkOverlap None None) t = Ok out.
Proof.
  set (s := NewSentenceSplitter SpecHelpers.helpers chunkSize chunkOverlap None None).
  assert (Cs : 1 <= ChunkSize s).
  { cbn. destruct (chunkSize <=? 0) eqn:E; [unfold DefaultChunkSize; lia|].
    apply Z.leb_gt in E. lia. }
  pose proof (built_progresses chunkSize chunkOverlap None
                (SimpleTokenizer_charFits _ Cs)) as HP.
  destruct (split_total s (ChunkSize s) HP (S (List.length t)) t
              (Nat.lt_succ_diag_r _)) as [leaves E].
  exists (S (List.length t) + 2 * List.length leaves)%nat.
  intros fuel' L. unfold SplitText, splitText.
  destruct (isEmpty t); [eauto|].
  rewrite (split_fuel_mono s (ChunkSize s) _ t leaves E fuel') by lia.
  unfold merge. rewrite mergeLoop_enough.
  - destruct (negb _); eauto.
  - apply split_sizes in E. eapply Forall_impl; [|exact E].
    intros l [Hl _]. exact Hl.
  - lia.
Qed.

(** C4, as amended.  The chunks [merge] returns are laid out over the
    leaves it is given: every chunk is a run [O] of trailing leaves of the
    chunk before followed by the leaves it is the first to hold, and these
    new leaves, chunk after chunk, are the leaves given; the first chunk
    has no [O]; every chunk is within the chunk size; a chunk is closed
    when the next leaf [x] does not fit it; and [O] is empty or within the
    overlap size, leaves room for [x] within the chunk size, and is the
    longest such run: the leaf in front of it would exceed the overlap
    size or leave no room for [x].  The chunks of [SplitText] are these
    chunks for the leaves of [split], whose sizes are the measure of the
    tokenizer, trimmed and pruned. *)
Theorem merge_overlap s :
  (forall fuel splits chunkSize out,
      merge fuel s splits chunkSize = Ok out ->
      exists pairs,
        out = map chunkOf pairs /\
        mergeLayout s chunkSize (map itemOf splits) pairs) /\
  (forall fuel t out,
      t <> [] -> SplitText fuel s t = Ok out ->
      exists leaves pairs,
        split fuel s t (ChunkSize s) = Some leaves /\
        Forall (fun l => tokenSize l = getTokenSize s (text l)) leaves /\
        out = postprocessChunks (map chunkOf pairs) /\
        mergeLayout s (ChunkSize s) (map itemOf leaves) pairs).
Proof.
  split.
  - intros fuel splits chunkSize out. apply merge_layout.
  - intros fuel t out Ht E. unfold SplitText, splitText in E.
    destruct t as [|c0 t]; [congruence|]. cbn [isEmpty] in E.
    destruct (split fuel s (c0 :: t) (ChunkSize s)) as [leaves|] eqn:Sp;
      [|discriminate].
    destruct (merge fuel s leaves (ChunkSize s)) as [cs| |] eqn:M;
      try discriminate.
    inversion E. subst out.
    destruct (merge_layout s (ChunkSize s) fuel leaves cs M) as (pairs & -> & L).
    exists leaves, pairs. split_ands; auto.
    apply split_sizes in Sp. eapply Forall_impl; [|exact Sp].
    intros l [_ Hl]. exact Hl.
Qed.

Lemma merge_overlap_witness :
  (exists pairs,
      [str "abc"; str "cde"; str "efg"] = map chunkOf pairs /\
      mergeLayout byteSplitter 3 (map itemOf byteLeaves) pairs) /\
  (exists leaves pairs,
      split 20 smallSplitter (str "a b c d") (ChunkSize smallSplitter)
      = Some leaves /\
      Forall (fun l => tokenSize l = getTokenSize smallSplitter (text l)) leaves /\
      [str "a b"; str "c d"] = postprocessChunks (map chunkOf pairs) /\
      mergeLayout smallSplitter (ChunkSize smallSplitter) (map itemOf leaves) pairs).
Proof.
  split.
  - apply (proj1 (merge_overlap byteSplitter) 20%nat byteLeaves 3).
    vm_compute. reflexivity.
  - apply (proj2 (merge_overlap smallSplitter) 20%nat (str "a b c d")).
    + discriminate.
    + vm_compute. reflexivity.
Defined.

(** C4 fails as stated: with an overlap size of 0 the chunks of "a b c d"
    share nothing, although any two leaves fit a chunk together. *)
Lemma overlap_as_specified_fails :
  SplitText 20 smallSplitter (str "a b c d") = Ok [str "a b"; str "c d"] /\
  exists leaves,
    split 20 smallSplitter (str "a b c d") (ChunkSize smallSplitter) = Some leaves /\
    ~ overlapAsSpecified smallSplitter leaves (str "a b") (str "c d").
Proof.
  split; [vm_compute; reflexivity|].
  eexists. split; [vm_compute; reflexivity|].
  intros [(o & NE & (pre & Hpre) & (post & Hpost) & _)|(l & x & Hl & Hx & Hs)].
  - destruct o as [|c o]; [congruence|].
    cbn in Hpost. inversion Hpost; subst c.
    assert (In "c"%char (str "a b")).
    { rewrite Hpre. apply in_or_app. right. left. reflexivity. }
    cbn in H. intuition discriminate.
  - cbn in Hl, Hx.
    assert (A : forall y, In y
              [{| text := str "a"; isSentence := false; tokenSize := 1 |};
               {| text := str " b"; isSentence := false; tokenSize := 1 |};
               {| text := str " c"; isSentence := false; tokenSize := 1 |};
               {| text := str " d"; isSentence := false; tokenSize := 1 |}] ->
              tokenSize y = 1).
    { intros y Hy. cbn in Hy. intuition (subst; reflexivity). }
    rewrite (A l Hl), (A x Hx) in Hs. vm_compute in Hs. discriminate.
Qed.

(** C5, as amended.  For a text whose measure is at most the chunk size,
    [SplitText] returns the trimmed text as its one chunk when the trimmed
    text is not empty or the text is empty, and no chunk when the text is
    not empty and trims to nothing. *)
Theorem single_chunk_when_fits s fuel t :
  (1 <= fuel)%nat -> getTokenSize s t <= ChunkSize s ->
  (strings_TrimSpace t <> [] \/ t = [] ->
   SplitText fuel s t = Ok [strings_TrimSpace t]) /\
  (t <> [] -> strings_TrimSpace t = [] -> SplitText fuel s t = Ok []).
Proof.
  intros Hf Hm. split.
  - intros [NE| ->]; [|reflexivity].
    assert (Ht : t <> []) by (intros ->; apply NE; reflexivity).
    unfold SplitText. rewrite splitText_fits by assumption.
    cbn [postprocessChunks]. apply isEmpty_false in NE. rewrite NE. reflexivity.
  - intros Ht E. unfold SplitText. rewrite splitText_fits by assumption.
    cbn [postprocessChunks]. rewrite E. reflexivity.
Qed.

Lemma single_chunk_when_fits_witness :
  (strings_TrimSpace (str " Para1 ") <> [] \/ str " Para1 " = [] ->
   SplitText 1 defaultSplitter (str " Para1 ")
   = Ok [strings_TrimSpace (str " Para1 ")]) /\
  (str " Para1 " <> [] -> strings_TrimSpace (str " Para1 ") = [] ->
   SplitText 1 defaultSplitter (str " Para1 ") = Ok []).
Proof.
  apply (single_chunk_when_fits defaultSplitter 1%nat (str " Para1 ")).
  - lia.
  - vm_compute. discriminate.
Defined.

(** C5 fails as stated: a blank measures 0, which is at most the chunk
    size, and [SplitText] returns no chunk for it. *)
Lemma single_chunk_fails_on_blank :
  getTokenSize defaultSplitter (str " ") <= ChunkSize defaultSplitter /\
  SplitText 5 defaultSplitter (str " ") = Ok [] /\
  SplitText 5 defaultSplitter (str " ") <> Ok [strings_TrimSpace (str " ")].
Proof.
  split_ands; vm_compute; [discriminate|reflexivity|discriminate].
Qed.

(** C6.  [SplitText] on the empty string returns the one empty chunk. *)
Theorem empty_input_one_empty_chunk s fuel : SplitText fuel s [] = Ok [[]].
Proof. reflexivity. Qed.

(** C7, as amended.  [NewSentenceSplitter] replaces a chunk size that is
    not positive by 1024 and keeps the overlap it is given: called with
    overlap 0 it yields overlap 0, the default 200 is used only when the
    caller passes it. *)
Theorem constructor_defaults H chunkSize chunkOverlap tokenizer strategy :
  ChunkSize (NewSentenceSplitter H chunkSize chunkOverlap tokenizer strategy)
  = (if chunkSize <=? 0 then 1024 else chunkSize) /\
  ChunkOverlap (NewSentenceSplitter H chunkSize chunkOverlap tokenizer strategy)
  = chunkOverlap /\
  DefaultChunkSize = 1024 /\ DefaultChunkOverlap = 200.
Proof. cbn. auto. Qed.

(** C7 fails as stated: built from (0, 0, nil, nil) the splitter has
    overlap 0, not 200. *)
Lemma constructor_overlap_not_defaulted :
  ChunkSize defaultSplitter = 1024 /\
  ChunkOverlap defaultSplitter = 0 /\
  ~ (ChunkSize defaultSplitter = 1024 /\ ChunkOverlap defaultSplitter = 200).
Proof.
  split_ands; [reflexivity|reflexivity|]. intros [_ H]. discriminate H.
Qed.

(** C8, as amended.  With a maximum of 5 bytes "1234567890" is cut into
    "12345" and "67890"; in general the hard split cuts between code
    points and loses none, and every piece is the longest run of code
    points that fits the maximum, or a single code point that is wider
    than the maximum. *)
Theorem oversized_paragraph_split :
  Paragraph.SplitText paragraphSplitter5 (str "1234567890")
  = [str "12345"; str "67890"] /\
  forall ps t,
    exists pieces,
      Paragraph.splitOversizedParagraph ps t = map stringOfRunes pieces /\
      concat pieces = runes t /\
      piecesGood (Paragraph.MaxChunkSize ps) pieces.
Proof.
  split; [vm_compute; reflexivity|].
  intros ps t. eexists. split; [reflexivity|].
  apply oversizedLoop_spec. apply Nat.le_refl.
Qed.

(** C8 fails as stated: with a maximum of 3 bytes the four bytes of
    U+1F600 exceed the maximum and stay one piece, which is not within the
    maximum. *)
Lemma oversized_piece_not_bounded :
  len grinningFace > Paragraph.MaxChunkSize paragraphSplitter3 /\
  Paragraph.splitOversizedParagraph paragraphSplitter3 grinningFace
  = [grinningFace] /\
  ~ Forall (fun piece => len piece <= Paragraph.MaxChunkSize paragraphSplitter3)
           (Paragraph.splitOversizedParagraph paragraphSplitter3 grinningFace).
Proof.
  assert (E : Paragraph.splitOversizedParagraph paragraphSplitter3 grinningFace
              = [grinningFace]) by (vm_compute; reflexivity).
  split_ands; [vm_compute; reflexivity|exact E|]. rewrite E.
  intros F. inversion_clear F as [|? ? H _]. vm_compute in H. apply H. reflexivity.
Qed.

(** C9.  On leaves none of which is larger than the chunk size [merge]
    returns, within two rounds of its loop for every leaf. *)
Theorem merge_terminates s splits chunkSize fuel :
  Forall (fun sp => tokenSize sp <= chunkSize) splits ->
  (2 * List.length splits <= fuel)%nat ->
  exists out, merge fuel s splits chunkSize = Ok out.
Proof.
  intros F L. unfold merge. rewrite mergeLoop_enough by assumption.
  destruct (negb _); eauto.
Qed.

Lemma merge_terminates_witness :
  exists out, merge 14 byteSplitter byteLeaves 3 = Ok out.
Proof.
  apply (merge_terminates byteSplitter byteLeaves 3 14%nat).
  - repeat constructor; cbn; lia.
  - cbn. lia.
Defined.

(** White space only, measured by the white-space tokenizer, fits every
    chunk size that is not negative and trims to nothing. *)
Lemma splitText_whitespaceOnly s fuel t chunkSize :
  Tokenizer_ s = SimpleTokenizer -> 0 <= chunkSize -> (1 <= fuel)%nat ->
  t <> [] -> whitespaceOnly t = true ->
  splitText fuel s t chunkSize = Ok [].
Proof.
  intros Tk Cs Hf Ht W.
  rewrite splitText_fits; try assumption.
  - cbn [postprocessChunks]. rewrite (TrimSpace_whitespaceOnly t W). reflexivity.
  - unfold getTokenSize. rewrite Tk. cbn [Encode SimpleTokenizer].
    rewrite (Fields_whitespaceOnly t W). cbn. exact Cs.
Qed.

(** C10.  With the white-space tokenizer and a chunk size that is not
    negative, [SplitText] returns no chunk for a text that is not empty and
    consists of white space only. *)
Theorem whitespace_only_no_chunks s fuel t :
  Tokenizer_ s = SimpleTokenizer -> 0 <= ChunkSize s -> (1 <= fuel)%nat ->
  t <> [] -> whitespaceOnly t = true ->
  SplitText fuel s t = Ok [].
Proof.
  intros Tk Cs Hf Ht W. apply splitText_whitespaceOnly; assumption.
Qed.

Lemma whitespace_only_no_chunks_witness :
  SplitText 1 defaultSplitter (str "   ") = Ok [].
Proof.
  apply (whitespace_only_no_chunks defaultSplitter 1%nat (str "   ")).
  - reflexivity.
  - vm_compute. discriminate.
  - lia.
  - discriminate.
  - vm_compute. reflexivity.
Defined.

(** The constructor never yields a negative chunk size, so the white-space
    result holds for every splitter built with the default tokenizer. *)
Corollary built_whitespaceOnly H chunkSize chunkOverlap strategy fuel t :
  (1 <= fuel)%nat -> t <> [] -> whitespaceOnly t = true ->
  SplitText fuel (NewSentenceSplitter H chunkSize chunkOverlap None strategy) t
  = Ok [].
Proof.
  intros Hf Ht W. apply splitText_whitespaceOnly; auto.
  cbn. destruct (chunkSize <=? 0) eqn:E; [unfold DefaultChunkSize; lia|].
  apply Z.leb_gt in E. lia.
Qed.

(** The scenarios of the specification. *)
Example scenario_single_chunk :
  SplitText 5 defaultSplitter
    (str "Para1" ++ DefaultParagraphSep ++ str "Para2" ++ DefaultParagraphSep
       ++ str "Para3")
  = Ok [str "Para1" ++ DefaultParagraphSep ++ str "Para2" ++ DefaultParagraphSep
          ++ str "Para3"].
Proof. vm_compute. reflexivity. Qed.

Example scenario_paragraph_overlap :
  Paragraph.SplitText (Paragraph.NewParagraphSplitter 12)
    (str "Para1" ++ [ascii_of_nat 10; ascii_of_nat 10] ++ str "Para2"
       ++ [ascii_of_nat 10; ascii_of_nat 10] ++ str "Para3")
  = [str "Para1" ++ [ascii_of_nat 10] ++ str "Para2";
     str "Para2" ++ [ascii_of_nat 10] ++ str "Para3"].
Proof. vm_compute. reflexivity. Qed.

(* ================================================================== *)
(** * Further properties of the sentence splitter                       *)
(* ================================================================== *)

(** X1.  Every leaf that [split] returns fits the chunk size, and the size
    it records is the measure of its text under the tokenizer. *)
Theorem split_leaves_fit s chunkSize fuel t leaves :
  split fuel s t chunkSize = Some leaves ->
  Forall (fun l => tokenSize l <= chunkSize /\
                   tokenSize l = getTokenSize s (text l)) leaves.
Proof. apply split_sizes. Qed.

Lemma split_leaves_fit_witness :
  Forall (fun l => tokenSize l <= 2 /\
                   tokenSize l = getTokenSize smallSplitter (text l))
    [ {| text := str "a"; isSentence := false; tokenSize := 1 |};
      {| text := str " b"; isSentence := false; tokenSize := 1 |};
      {| text := str " c"; isSentence := false; tokenSize := 1 |};
      {| text := str " d"; isSentence := false; tokenSize := 1 |} ].
Proof.
  apply (split_leaves_fit smallSplitter 2 20%nat (str "a b c d")).
  vm_compute. reflexivity.
Defined.

(** X2.  [merge] panics at the first leaf that is larger than the chunk
    size, with the size of that leaf and the chunk size in the panic
    value; the leaves before it are handled within two rounds each. *)
Theorem merge_panics_on_oversized_leaf s chunkSize fuel pre x post :
  Forall (fun sp => tokenSize sp <= chunkSize) pre ->
  tokenSize x > chunkSize ->
  (2 * List.length pre < fuel)%nat ->
  merge fuel s (pre ++ x :: post) chunkSize
  = Panic (SingleTokenExceeded (tokenSize x) chunkSize).
Proof. apply merge_panics. Qed.

Lemma merge_panics_on_oversized_leaf_witness :
  merge 3 byteSplitter
    ([ {| text := str "a"; isSentence := false; tokenSize := 1 |} ]
       ++ {| text := str "bcdef"; isSentence := false; tokenSize := 5 |}
       :: [ {| text := str "g"; isSentence := false; tokenSize := 1 |} ]) 3
  = Panic (SingleTokenExceeded 5 3).
Proof.
  apply (merge_panics_on_oversized_leaf byteSplitter 3 3%nat
           [ {| text := str "a"; isSentence := false; tokenSize := 1 |} ]
           {| text := str "bcdef"; isSentence := false; tokenSize := 5 |}
           [ {| text := str "g"; isSentence := false; tokenSize := 1 |} ]).
  - repeat constructor. cbn. lia.
  - cbn. lia.
  - cbn. lia.
Defined.

(** X3.  [merge] loses no leaf and keeps their order: every chunk is a
    run of trailing leaves of the chunk before, none for the first chunk,
    followed by at least one leaf it is the first to hold, and the leaves
    first held, chunk after chunk, are the leaves given. *)
Theorem merge_keeps_every_leaf s fuel splits chunkSize out :
  merge fuel s splits chunkSize = Ok out ->
  exists pairs,
    out = map chunkOf pairs /\
    concat (map snd pairs) = map itemOf splits /\
    firstFresh pairs /\
    Forall (fun p => snd p <> []) pairs /\
    chain carries pairs.
Proof.
  intros E.
  destruct (merge_layout s chunkSize fuel splits out E)
    as (pairs & -> & L1 & L2 & L3 & L4).
  exists pairs. split_ands; auto.
  - eapply Forall_impl; [|exact L3]. intros p [H _]. exact H.
  - eapply chain_impl; [|exact L4]. apply follows_carries.
Qed.

Lemma merge_keeps_every_leaf_witness :
  exists pairs,
    [str "abc"; str "cde"; str "efg"] = map chunkOf pairs /\
    concat (map snd pairs) = map itemOf byteLeaves /\
    firstFresh pairs /\
    Forall (fun p => snd p <> []) pairs /\
    chain carries pairs.
Proof.
  apply (merge_keeps_every_leaf byteSplitter 14%nat byteLeaves 3).
  vm_compute. reflexivity.
Defined.

(** X4.  When every leaf is larger than the chunk overlap no leaf is
    carried over, and the chunks of [merge] put end to end are the texts
    of the leaves put end to end. *)
Theorem merge_without_overlap_partitions s fuel splits chunkSize out :
  Forall (fun sp => tokenSize sp > ChunkOverlap s) splits ->
  merge fuel s splits chunkSize = Ok out ->
  concat out = concat (map text splits).
Proof.
  intros Ov E. apply merge_Ok in E as [F ->].
  assert (I0 : partInv s mergeInit []).
  { unfold partInv, mergeInit. cbn. split_ands; auto. }
  assert (FF : Forall (fun sp => tokenSize sp <= chunkSize /\
                                 tokenSize sp > ChunkOverlap s) splits).
  { rewrite Forall_forall in *. intros sp Hsp. split; auto. }
  pose proof (partInv_fold s chunkSize splits mergeInit [] I0 FF) as I.
  cbn [app] in I. destruct I as (_ & _ & I3 & I4).
  destruct (newChunk _) eqn:N; cbn [negb].
  - rewrite (I3 eq_refl) in I4. cbn in I4. rewrite app_nil_r in I4. exact I4.
  - rewrite concat_app. cbn [concat]. rewrite app_nil_r. exact I4.
Qed.

Lemma merge_without_overlap_partitions_witness :
  concat [str "ab"; str "cd"; str "ef"; str "g"] = concat (map text byteLeaves).
Proof.
  apply (merge_without_overlap_partitions smallSplitter 14%nat byteLeaves 2).
  - repeat constructor.
  - vm_compute. reflexivity.
Defined.

(** X5.  [postprocessChunks] drops exactly the chunks that consist of
    white space only (the empty one among them) and trims the others. *)
Theorem postprocess_drops_blank_chunks cs :
  postprocessChunks cs
  = map strings_TrimSpace (filter (fun c => negb (whitespaceOnly c)) cs).
Proof. apply postprocessChunks_filter. Qed.

(** X6.  For a text that is not empty, no chunk [SplitText] returns is
    empty, and none begins or ends with white space. *)
Theorem chunks_are_trimmed s fuel t out :
  t <> [] -> SplitText fuel s t = Ok out ->
  Forall (fun c => c <> [] /\
                   unicode_IsSpace (fst (DecodeRune c)) = false /\
                   unicode_IsSpace (fst (DecodeLastRune c)) = false) out.
Proof.
  intros Ht E. unfold SplitText, splitText in E.
  destruct t as [|c0 t]; [congruence|]. cbn [isEmpty] in E.
  destruct (split fuel s (c0 :: t) (ChunkSize s)) as [leaves|]; [|discriminate].
  destruct (merge fuel s leaves (ChunkSize s)) as [cs| |]; try discriminate.
  inversion E. apply Forall_forall. intros c Hc.
  apply postprocessChunks_In in Hc as (c1 & _ & -> & NE).
  split_ands; [exact NE| |].
  - apply TrimSpace_head. exact NE.
  - apply TrimSpace_last. exact NE.
Qed.

Lemma chunks_are_trimmed_witness :
  Forall (fun c => c <> [] /\
                   unicode_IsSpace (fst (DecodeRune c)) = false /\
                   unicode_IsSpace (fst (DecodeLastRune c)) = false)
         [str "a b"; str "c d"].
Proof.
  apply (chunks_are_trimmed smallSplitter 20%nat (str "a b c d")).
  - discriminate.
  - vm_compute. reflexivity.
Defined.

(** X7.  [SplitText] returns: when every candidate the split functions
    give for a fragment that is too large fits or is shorter than the
    fragment, there is a depth from which on the call yields chunks. *)
Theorem SplitText_returns s t :
  progresses s (ChunkSize s) ->
  exists fuel, forall fuel', (fuel <= fuel')%nat ->
    exists out, SplitText fuel' s t = Ok out.
Proof.
  intros HP.
  destruct (split_total s (ChunkSize s) HP (S (List.length t)) t
              (Nat.lt_succ_diag_r _)) as [leaves E].
  exists (S (List.length t) + 2 * List.length leaves)%nat.
  intros fuel' L. unfold SplitText, splitText.
  destruct (isEmpty t); [eauto|].
  rewrite (split_fuel_mono s (ChunkSize s) _ t leaves E fuel') by lia.
  unfold merge. rewrite mergeLoop_enough.
  - destruct (negb _); eauto.
  - apply split_sizes in E. eapply Forall_impl; [|exact E].
    intros l [Hl _]. exact Hl.
  - lia.
Qed.

Lemma SplitText_returns_witness :
  exists fuel, forall fuel', (fuel <= fuel')%nat ->
    exists out, SplitText fuel' smallSplitter (str "a b c d") = Ok out.
Proof.
  apply (SplitText_returns smallSplitter (str "a b c d")).
  apply (built_progresses 2 0 None).
  apply SimpleTokenizer_charFits. vm_compute. discriminate.
Defined.

(** X8.  With the white-space tokenizer, whatever the other settings,
    every chunk [SplitText] returns for a text that is not empty has at
    most [ChunkSize] fields. *)
Theorem default_tokenizer_chunks_bounded s fuel t out :
  Tokenizer_ s = SimpleTokenizer ->
  t <> [] -> SplitText fuel s t = Ok out ->
  Forall (fun c => getTokenSize s c <= ChunkSize s) out.
Proof.
  intros Tk. apply sentence_chunks_bounded; rewrite Tk.
  - apply SimpleTokenizer_subadditive.
  - apply SimpleTokenizer_trimStable.
Qed.

Lemma default_tokenizer_chunks_bounded_witness :
  Forall (fun c => getTokenSize smallSplitter c <= ChunkSize smallSplitter)
         [str "a b"; str "c d"].
Proof.
  apply (default_tokenizer_chunks_bounded smallSplitter 20%nat (str "a b c d")).
  - reflexivity.
  - discriminate.
  - vm_compute. reflexivity.
Defined.

(* ================================================================== *)
(** * The white-space tokenizer                                         *)
(* ================================================================== *)

(** X9.  [SimpleTokenizer.Encode] gives no token exactly for the texts
    that consist of white space only, the empty text among them. *)
Theorem SimpleTokenizer_zero_iff_blank t :
  len (Encode SimpleTokenizer t) = 0 <-> whitespaceOnly t = true.
Proof.
  cbn [Encode SimpleTokenizer]. rewrite <- Fields_empty_iff.
  destruct (strings_Fields t) as [|f fs].
  - cbn. tauto.
  - rewrite len_cons. pose proof (len_nonneg fs).
    split; [lia|discriminate].
Qed.

(** X10.  The number of tokens [SimpleTokenizer.Encode] gives is
    subadditive under concatenation, also where the cut falls inside a
    UTF-8 sequence, and is not changed by trimming white space. *)
Theorem SimpleTokenizer_measure :
  (forall a b, len (Encode SimpleTokenizer (a ++ b))
               <= len (Encode SimpleTokenizer a) + len (Encode SimpleTokenizer b)) /\
  (forall a, len (Encode SimpleTokenizer (strings_TrimSpace a))
             = len (Encode SimpleTokenizer a)).
Proof.
  split.
  - apply SimpleTokenizer_subadditive.
  - intros a. apply Fields_TrimSpace.
Qed.

(* ================================================================== *)
(** * Further properties of the paragraph chunker                       *)
(* ================================================================== *)

Section ParagraphFurther.
Import Paragraph ParagraphNotions.

Lemma keepParagraphs_nil_iff : forall raw,
  keepParagraphs raw = [] <-> forallb whitespaceOnly raw = true.
Proof.
  induction raw as [|p raw IH]; [cbn; tauto|].
  cbn [keepParagraphs forallb].
  destruct (isEmpty (strings_TrimSpace p)) eqn:E.
  - apply isEmpty_true in E. apply TrimSpace_empty_iff in E.
    rewrite E. cbn [andb]. exact IH.
  - destruct (whitespaceOnly p) eqn:W.
    + apply TrimSpace_empty_iff in W. rewrite W in E. discriminate.
    + cbn [andb]. split; discriminate.
Qed.

Lemma addSubParts_chunks_prefix ps : forall parts st,
  exists more,
    chunks (fold_left (addSubPart ps) parts st) = chunks st ++ more.
Proof.
  induction parts as [|u parts IH]; intros st.
  - exists []. rewrite app_nil_r. reflexivity.
  - cbn [fold_left]. destruct (IH (addSubPart ps st u)) as [more E].
    rewrite E. unfold addSubPart.
    destruct (currentSize st + len u + len (Separator ps) >? MaxChunkSize ps).
    + destruct (len (currentChunk st) >? 0).
      * destruct (len (lastPara (currentChunk st)) + len u + len (Separator ps)
                  >? MaxChunkSize ps); cbn [chunks];
          rewrite <- app_assoc; eauto.
      * cbn [chunks]. eauto.
    + cbn [chunks]. eauto.
Qed.

(** X11.  The paragraph chunker returns no chunk exactly when every
    piece of the text between separators is white space only; the empty
    text is one such case. *)
Theorem paragraph_none_iff_blank ps t :
  SplitText ps t = [] <->
  forallb whitespaceOnly (strings_Split t (Separator ps)) = true.
Proof.
  rewrite <- keepParagraphs_nil_iff.
  apply (proj2 (SplitText_nonempty_chunks ps t)).
Qed.

(** X12.  No chunk the paragraph chunker returns is empty. *)
Theorem paragraph_no_empty_chunk ps t :
  Forall (fun c => c <> []) (SplitText ps t).
Proof. apply (proj1 (SplitText_nonempty_chunks ps t)). Qed.

(** X13.  When the paragraphs of a text, joined by the separator, fit
    the maximum, the paragraph chunker returns that one chunk: the
    paragraphs trimmed, the blank ones left out. *)
Theorem paragraph_single_chunk ps t :
  paragraphsOf ps t <> [] ->
  len (strings_Join (paragraphsOf ps t) (Separator ps)) <= MaxChunkSize ps ->
  SplitText ps t = [strings_Join (paragraphsOf ps t) (Separator ps)].
Proof. apply SplitText_fit. Qed.

Lemma paragraph_single_chunk_witness :
  SplitText (NewParagraphSplitter 12)
    (str " a " ++ [ascii_of_nat 10; ascii_of_nat 10] ++ str "b")
  = [str "a" ++ [ascii_of_nat 10] ++ str "b"].
Proof.
  apply (paragraph_single_chunk (NewParagraphSplitter 12)
           (str " a " ++ [ascii_of_nat 10; ascii_of_nat 10] ++ str "b")).
  - vm_compute. discriminate.
  - vm_compute. discriminate.
Defined.

(** X14.  The chunks of the paragraph chunker are laid out over the
    units of the text: its trimmed paragraphs, a paragraph that is too
    large standing as its pieces, the first of them marked.  Every
    chunk is the paragraph it inherits, if any, and the units it is the
    first to hold, joined by the separator; these new units, chunk
    after chunk, are the units of the text; the first chunk inherits
    nothing and the last holds a new unit.  Every chunk is within the
    maximum or one unit alone, and a marked unit is the first new unit
    of its chunk.  A chunk whose first new unit is [u] either begins
    with the last paragraph of the chunk before, which fits the maximum
    with a separator and [u], that chunk having been closed because [u]
    is marked or did not fit it; or it begins with [u], which does not
    fit the maximum with a separator and that paragraph.  A chunk that
    holds no new unit is the last paragraph of the chunk before, alone;
    it comes after a chunk that holds a new unit, and the chunk after
    it begins with a marked unit. *)
Theorem paragraph_overlap ps t :
  exists pairs,
    SplitText ps t = map (paraChunk ps) pairs /\
    paraLayout ps (taggedUnits ps (paragraphsOf ps t)) pairs.
Proof. apply paragraph_layout. Qed.

(** X15.  The paragraph chunker loses no paragraph and keeps their
    order: the units the chunks are the first to hold are, chunk after
    chunk, the units of the text; what a chunk has in front of them is
    nothing or the last paragraph of the chunk before, nothing for the
    first chunk; a chunk that holds no new unit comes after one that
    does; no chunk is empty; and the last chunk holds a new unit. *)
Theorem paragraph_keeps_every_unit ps t :
  exists pairs,
    SplitText ps t = map (paraChunk ps) pairs /\
    map snd (concat (map snd pairs)) = units ps (paragraphsOf ps t) /\
    firstFresh pairs /\
    Forall (fun p => paraGroup p <> []) pairs /\
    lastNew pairs /\
    chain carriesPara pairs.
Proof.
  destruct (paragraph_layout ps t) as (pairs & E & (L1 & L2 & L3 & L4) & L5).
  exists pairs. split_ands; auto.
  - rewrite L1. apply taggedUnits_units.
  - eapply Forall_impl; [|exact L3]. intros p (H & _). exact H.
  - eapply chain_impl; [|exact L4]. apply paraFollows_carries.
Qed.

(** X16.  A paragraph carried over can come out as a chunk of its own a
    second time: when a paragraph that fits is followed by one that is
    too large, and the first piece of that one does not fit the maximum
    beside it, the chunker returns the first paragraph twice. *)
Theorem overlap_chunk_repeated ps t p1 p2 u rest :
  paragraphsOf ps t = [p1; p2] ->
  len p1 <= MaxChunkSize ps -> len p2 > MaxChunkSize ps ->
  splitOversizedParagraph ps p2 = u :: rest ->
  len p1 + len u + len (Separator ps) > MaxChunkSize ps ->
  exists more, SplitText ps t = p1 :: p1 :: more.
Proof.
  intros E L1 L2 Sp Ov.
  assert (NE : paragraphsOf ps t <> []) by (rewrite E; discriminate).
  rewrite (SplitText_unfold _ _ NE). cbv zeta. rewrite E.
  cbn [fold_left].
  change {| chunks := []; currentChunk := []; currentSize := 0 |}
    with {| chunks := []; currentChunk := [];
            currentSize := len (strings_Join [] (Separator ps)) |}.
  rewrite (addParagraph_fits ps [] p1) by exact L1.
  rewrite addParagraph_oversized by exact L2.
  rewrite Sp. cbn [fold_left app strings_Join].
  unfold preFlush. cbn [currentChunk chunks currentSize].
  change (len [p1] >? 0) with true. cbv iota.
  change (lastPara [p1]) with p1. cbn [strings_Join app].
  assert (T : (len p1 + len u + len (Separator ps) >? MaxChunkSize ps) = true)
    by (apply gtb_true; lia).
  assert (A : addSubPart ps {| chunks := [p1]; currentChunk := [p1];
                               currentSize := len p1 |} u
              = {| chunks := [p1; p1]; currentChunk := [u];
                   currentSize := len u |}).
  { unfold addSubPart. cbn [currentChunk chunks currentSize].
    rewrite T. change (len [p1] >? 0) with true. cbv iota.
    change (lastPara [p1]) with p1. rewrite T. reflexivity. }
  rewrite A.
  destruct (addSubParts_chunks_prefix ps rest
              {| chunks := [p1; p1]; currentChunk := [u]; currentSize := len u |})
    as [more M].
  cbn [chunks app] in M.
  destruct (len (currentChunk _) >? 0); rewrite M; cbn [app]; eauto.
Qed.

Lemma overlap_chunk_repeated_witness :
  exists more,
    SplitText paragraphSplitter5 (str "abc" ++ [ascii_of_nat 10] ++ str "1234567890")
    = str "abc" :: str "abc" :: more.
Proof.
  apply (overlap_chunk_repeated paragraphSplitter5
           (str "abc" ++ [ascii_of_nat 10] ++ str "1234567890")
           (str "abc") (str "1234567890") (str "12345") [str "67890"]).
  - vm_compute. reflexivity.
  - vm_compute. discriminate.
  - vm_compute. reflexivity.
  - vm_compute. reflexivity.
  - vm_compute. reflexivity.
Defined.

(** X17.  The hard split loses nothing of a paragraph that is valid
    UTF-8: its pieces put end to end are the paragraph.  (In general
    they are the paragraph with every byte that is no valid sequence
    replaced by the encoding of U+FFFD.) *)
Theorem hard_split_roundtrip ps p :
  wellEncoded p -> concat (splitOversizedParagraph ps p) = p.
Proof.
  intros W. rewrite splitOversizedParagraph_concat.
  apply wellEncoded_roundtrip. exact W.
Qed.

Lemma hard_split_roundtrip_witness :
  concat (splitOversizedParagraph paragraphSplitter3
            (str "ab" ++ eAcute ++ grinningFace ++ str "c"))
  = str "ab" ++ eAcute ++ grinningFace ++ str "c".
Proof.
  apply (hard_split_roundtrip paragraphSplitter3
           (str "ab" ++ eAcute ++ grinningFace ++ str "c")).
  unfold wellEncoded.
  assert (E : segments (str "ab" ++ eAcute ++ grinningFace ++ str "c")
              = [(97, str "a"); (98, str "b"); (233, eAcute);
                 (128512, grinningFace); (99, str "c")])
    by (vm_compute; reflexivity).
  rewrite E. repeat constructor.
Defined.

(** X18.  With a maximum of four bytes or more, every chunk of the
    paragraph chunker is within the maximum, whatever the text. *)
Theorem paragraph_chunks_bounded ps t :
  4 <= MaxChunkSize ps ->
  Forall (fun c => len c <= MaxChunkSize ps) (SplitText ps t).
Proof.
  intros H. apply Paragraph_SplitText_bound.
  apply Forall_forall. intros p _. apply runesFit_wide. exact H.
Qed.

Lemma paragraph_chunks_bounded_witness :
  Forall (fun c => len c <= 5)
         (SplitText paragraphSplitter5 (str "1234567890")).
Proof.
  apply (paragraph_chunks_bounded paragraphSplitter5 (str "1234567890")).
  vm_compute. discriminate.
Defined.
End ParagraphFurther.

(* ================================================================== *)
(** * The ingestion service                                             *)
(* ================================================================== *)

Section RagService.
Import Rag.

Lemma batchLoop_Ok_inv sp : forall docs allChunks out,
  batchLoop sp docs allChunks = Ok out ->
  exists tcss,
    Forall2 (fun doc tcs => SplitText sp (Content doc) = Ok tcs) docs tcss.
Proof.
  induction docs as [|doc docs IH]; intros allChunks out E.
  - exists []. constructor.
  - cbn [batchLoop] in E.
    destruct (SplitText sp (Content doc)) as [tcs| |] eqn:S; try discriminate.
    destruct (IH _ _ E) as [tcss F].
    exists (tcs :: tcss). constructor; assumption.
Qed.

Lemma store_spec {DB} (s : Service DB) db c (docs : list Document) :
  (if len docs =? 0 then Ok (db, None)
   else
     match Upsert (vectorDB s) db c docs with
     | (db', Some err) =>
       Ok (db', Some (Errorf_w (str "failed to upsert chunks: ") err))
     | (db', None) => Ok (db', None)
     end) = Ok (store s db c docs).
Proof.
  unfold store. destruct docs as [|d docs]; [reflexivity|].
  rewrite len_cons.
  assert (E : (1 + len docs =? 0) = false)
    by (apply Z.eqb_neq; pose proof (len_nonneg docs); lia).
  rewrite E. destruct (Upsert _ _ _ _) as [db' [err|]]; reflexivity.
Qed.

(** X19.  [Ingest] makes one document for every chunk of the splitter,
    in order: document [n] holds chunk [n], its ID is the ID of the
    source, [_chunk_] and [n] in decimal, and it has no title and no
    vector.  With no chunk nothing is stored; else the documents go to
    the store in one call of [Upsert]. *)
Theorem Ingest_one_document_per_chunk {DB} (s : Service DB) db c doc tcs :
  SplitText (splitter s) (Content doc) = Ok tcs ->
  exists docs,
    Ingest s db c doc = Ok (store s db c docs) /\
    List.length docs = List.length tcs /\
    forall n textChunk, nth_error tcs n = Some textChunk ->
      exists d, nth_error docs n = Some d /\
                ID d = chunkID (ID doc) (Z.of_nat n) /\
                Content d = textChunk /\ Title d = [] /\ Vector d = [].
Proof.
  intros E. exists (chunksFrom doc 0 tcs). split_ands.
  - unfold Ingest. rewrite E. cbv zeta. rewrite chunkLoop_spec. cbn [app].
    apply store_spec.
  - apply chunksFrom_length.
  - intros n textChunk H. eexists. split.
    + apply chunksFrom_nth. exact H.
    + cbn. auto.
Qed.

Lemma Ingest_one_document_per_chunk_witness :
  exists docs,
    Ingest (NewService recordingDB (ofParagraphSplitter (Paragraph.NewParagraphSplitter 12)))
           [] (str "col") sampleDocument
    = Ok (store (NewService recordingDB
                   (ofParagraphSplitter (Paragraph.NewParagraphSplitter 12)))
                [] (str "col") docs) /\
    List.length docs
    = List.length [str "Para1" ++ [ascii_of_nat 10] ++ str "Para2";
                   str "Para2" ++ [ascii_of_nat 10] ++ str "Para3"] /\
    forall n textChunk,
      nth_error [str "Para1" ++ [ascii_of_nat 10] ++ str "Para2";
                 str "Para2" ++ [ascii_of_nat 10] ++ str "Para3"] n
      = Some textChunk ->
      exists d, nth_error docs n = Some d /\
                ID d = chunkID (ID sampleDocument) (Z.of_nat n) /\
                Content d = textChunk /\ Title d = [] /\ Vector d = [].
Proof.
  apply (Ingest_one_document_per_chunk
           (NewService recordingDB
              (ofParagraphSplitter (Paragraph.NewParagraphSplitter 12)))
           [] (str "col") sampleDocument).
  vm_compute. reflexivity.
Defined.

(** X20.  The metadata of a chunk document: [chunk_index] is the index
    of the chunk and [source_id] the ID of the source, also when the
    source had these keys; every other key reads as in the source. *)
Theorem chunk_metadata doc i textChunk k :
  lookup (Metadata (chunkDocument doc i textChunk)) k =
  if keyEq (str "chunk_index") k then Some (AnyInt i)
  else if keyEq (str "source_id") k then Some (AnyString (ID doc))
  else lookup (Metadata doc) k.
Proof. apply chunkDocument_metadata. Qed.

(** X21.  With the paragraph chunker, [Ingest] of a document whose
    content is blank between all separators stores nothing and reports
    no error: [Upsert] is not called. *)
Theorem Ingest_blank_document {DB} (vdb : VectorDB DB) ps db c doc :
  forallb whitespaceOnly
          (strings_Split (Content doc) (Paragraph.Separator ps)) = true ->
  Ingest (NewService vdb (ofParagraphSplitter ps)) db c doc = Ok (db, None).
Proof.
  intros B. unfold Ingest, NewService, ofParagraphSplitter.
  cbn [splitter SplitText vectorDB].
  apply keepParagraphs_nil_iff in B.
  rewrite (SplitText_no_paragraph ps (Content doc) B). reflexivity.
Qed.

Lemma Ingest_blank_document_witness :
  Ingest (NewService failingDB (ofParagraphSplitter paragraphSplitter5)) tt
         (str "col")
         {| ID := str "d"; Title := []; Content := str "  " ++ [ascii_of_nat 10] ++ str " ";
            Metadata := []; Vector := [] |}
  = Ok (tt, None).
Proof.
  apply (Ingest_blank_document failingDB paragraphSplitter5 tt (str "col")
           {| ID := str "d"; Title := [];
              Content := str "  " ++ [ascii_of_nat 10] ++ str " ";
              Metadata := []; Vector := [] |}).
  vm_compute. reflexivity.
Defined.

(** X22.  With the sentence splitter, [Ingest] of a document with empty
    content does store something: one chunk document with empty
    content, index 0. *)
Theorem Ingest_empty_document {DB} (vdb : VectorDB DB) fuel s db c doc :
  Content doc = [] ->
  Ingest (NewService vdb (ofSentenceSplitter fuel s)) db c doc
  = Ok (store (NewService vdb (ofSentenceSplitter fuel s)) db c
              [chunkDocument doc 0 []]).
Proof.
  intros E. unfold Ingest, NewService, ofSentenceSplitter.
  cbn [splitter SplitText vectorDB]. rewrite E.
  unfold SentenceSplit.SplitText, splitText. cbn [isEmpty].
  cbn [chunkLoop app]. unfold store. cbn [vectorDB].
  destruct (Upsert vdb db c [chunkDocument doc 0 []]) as [db' [err|]];
    reflexivity.
Qed.

Lemma Ingest_empty_document_witness :
  Ingest (NewService recordingDB (ofSentenceSplitter 1 defaultSplitter)) []
         (str "col")
         {| ID := str "d"; Title := []; Content := []; Metadata := [];
            Vector := [] |}
  = Ok (store (NewService recordingDB (ofSentenceSplitter 1 defaultSplitter)) []
              (str "col")
              [chunkDocument {| ID := str "d"; Title := []; Content := [];
                                Metadata := []; Vector := [] |} 0 []]).
Proof.
  apply (Ingest_empty_document recordingDB 1%nat defaultSplitter []
           (str "col")
           {| ID := str "d"; Title := []; Content := []; Metadata := [];
              Vector := [] |}).
  reflexivity.
Defined.

(** X23.  [BatchIngest] of a single document is [Ingest] of it: the same
    store afterwards, the same error, the same panic. *)
Theorem BatchIngest_single {DB} (s : Service DB) db c doc :
  BatchIngest s db c [doc] = Ingest s db c doc.
Proof.
  unfold BatchIngest, Ingest. cbn [batchLoop].
  destruct (SplitText (splitter s) (Content doc)); reflexivity.
Qed.

(** X24.  [BatchIngest] calls [Upsert] once, with the chunk documents
    of all the documents given, document after document, each numbered
    from 0; with no chunk at all it does not call it. *)
Theorem BatchIngest_one_call {DB} (s : Service DB) db c docs tcss :
  Forall2 (fun doc tcs => SplitText (splitter s) (Content doc) = Ok tcs)
          docs tcss ->
  BatchIngest s db c docs
  = Ok (store s db c
          (flat_map (fun dt => chunksFrom (fst dt) 0 (snd dt))
                    (combine docs tcss))).
Proof.
  intros F. unfold BatchIngest.
  rewrite (batchLoop_spec (splitter s) docs tcss [] F). cbn [app].
  apply store_spec.
Qed.

Lemma BatchIngest_one_call_witness :
  BatchIngest (NewService recordingDB
                 (ofParagraphSplitter (Paragraph.NewParagraphSplitter 12)))
              [] (str "col") [sampleDocument; otherDocument]
  = Ok (store (NewService recordingDB
                 (ofParagraphSplitter (Paragraph.NewParagraphSplitter 12)))
              [] (str "col")
              (flat_map (fun dt => chunksFrom (fst dt) 0 (snd dt))
                 (combine [sampleDocument; otherDocument]
                    [[str "Para1" ++ [ascii_of_nat 10] ++ str "Para2";
                      str "Para2" ++ [ascii_of_nat 10] ++ str "Para3"];
                     [str "Lorem ipsum"]]))).
Proof.
  apply (BatchIngest_one_call
           (NewService recordingDB
              (ofParagraphSplitter (Paragraph.NewParagraphSplitter 12)))
           [] (str "col") [sampleDocument; otherDocument]).
  repeat constructor.
Defined.

(** X25.  The chunk documents [BatchIngest] makes for documents with
    pairwise distinct IDs have pairwise distinct IDs, whatever the IDs
    and the chunks are. *)
Theorem BatchIngest_distinct_IDs sp docs allChunks :
  NoDup (map ID docs) ->
  batchLoop sp docs [] = Ok allChunks ->
  NoDup (map ID allChunks).
Proof.
  intros N E. destruct (batchLoop_Ok_inv sp docs [] allChunks E) as [tcss F].
  rewrite (batchLoop_spec sp docs tcss [] F) in E. inversion E.
  cbn [app]. apply batch_NoDup. exact N.
Qed.

Lemma BatchIngest_distinct_IDs_witness :
  NoDup (map ID
           (chunksFrom sampleDocument 0
              [str "Para1" ++ [ascii_of_nat 10] ++ str "Para2";
               str "Para2" ++ [ascii_of_nat 10] ++ str "Para3"]
            ++ chunksFrom otherDocument 0 [str "Lorem ipsum"])).
Proof.
  apply (BatchIngest_distinct_IDs
           (ofParagraphSplitter (Paragraph.NewParagraphSplitter 12))
           [sampleDocument; otherDocument]).
  - repeat constructor; cbn; intuition discriminate.
  - vm_compute. reflexivity.
Defined.

(** X26.  When [Upsert] fails, [Ingest] returns an error that wraps the
    error of [Upsert], with the message [failed to upsert chunks: ] in
    front of its message; the store is as [Upsert] left it. *)
Theorem Ingest_wraps_upsert_error {DB} (s : Service DB) db c doc tcs db' e :
  SplitText (splitter s) (Content doc) = Ok tcs -> tcs <> [] ->
  Upsert (vectorDB s) db c (chunksFrom doc 0 tcs) = (db', Some e) ->
  exists e',
    Ingest s db c doc = Ok (db', Some e') /\
    Error e' = str "failed to upsert chunks: " ++ Error e /\
    Unwrap e' = Some e.
Proof.
  intros E NE U. unfold Ingest. rewrite E. cbv zeta.
  rewrite chunkLoop_spec. cbn [app]. rewrite store_spec. unfold store.
  destruct tcs as [|tc tcs]; [congruence|].
  cbn [chunksFrom] in *. rewrite U.
  eexists. split_ands; reflexivity.
Qed.

Lemma Ingest_wraps_upsert_error_witness :
  exists e',
    Ingest (NewService failingDB (ofParagraphSplitter paragraphSplitter5)) tt
           (str "col") otherDocument = Ok (tt, Some e') /\
    Error e' = str "failed to upsert chunks: "
                 ++ Error (errorString (str "no space left")) /\
    Unwrap e' = Some (errorString (str "no space left")).
Proof.
  apply (Ingest_wraps_upsert_error
           (NewService failingDB (ofParagraphSplitter paragraphSplitter5)) tt
           (str "col") otherDocument
           (Paragraph.SplitText paragraphSplitter5 (str "Lorem ipsum")) tt
           (errorString (str "no space left"))).
  - reflexivity.
  - vm_compute. discriminate.
  - reflexivity.
Defined.
End RagService.
